(** * hctree: a hot/cold tiered index over two B-trees

    Shallow embedding of [hctree.c].  The index keeps every key in a
    cold B-tree and copies frequently hit keys into a hot B-tree; a
    feedback controller tunes the sampling rate of promotions. *)

From Stdlib Require Import ZArith QArith Lia Floats.
From stdpp Require Import base option list gmap sorting.

Set Warnings "-inexact-float".
Local Open Scope Z_scope.

(** ** C doubles

    A C [double] is an IEEE 754 binary64 number; the primitive floats
    have exactly this format and round to nearest, ties to even.  Every
    operation of the source rounds on its own (no fused multiply-add,
    no extended precision). *)

Abbreviation double := float.

(** [(double) z] for an integer [z]: the nearest binary64 number. *)
Definition double_of_Z (z : Z) : double :=
  SF2Prim (binary_normalize prec emax z 0 false).

(** [(size_t) z] on a 64-bit target. *)
Definition size_t_of (z : Z) : Z := z mod 2 ^ 64.

(** Classification of the specification-level value of a double. *)
Definition is_nan_sf (x : spec_float) : bool :=
  match x with S754_nan => true | _ => false end.

Definition is_finite_sf (x : spec_float) : bool :=
  match x with S754_zero _ | S754_finite _ _ _ => true | _ => false end.

(** [x] is a number in the closed interval [0, 1]. *)
Definition in01 (x : double) : bool := (0 <=? x)%float && (x <=? 1)%float.

(** The clamp written out twice in the source
    ([if (D < 0.0) D = 0.0; if (D > 1.0) D = 1.0;]). *)
Definition clamp01 (D : double) : double :=
  let D := if (D <? 0)%float then 0%float else D in
  if (1 <? D)%float then 1%float else D.

#[global] Instance double_inhabited : Inhabited double := populate 0%float.

(** ** The ordered index service (B-tree)

    The B-tree ([btree.h], [btree.c]) is not part of the sources; the
    tiered index uses it through [bt_create], [bt_insert], [bt_search],
    [bt_range_search] and [bt_count_keys].  A tree is represented by what
    determines it: its degree and the sequence of insertions that built
    it.  Its node layout, and so the number of nodes an operation
    visits, is outside this layer: it is any function of the tree, an
    instance of [BTLayout]. *)

Abbreviation BTKey := Z.

(** A payload is an opaque pointer; [NULL] doubles as "absent". *)
Abbreviation BTPayload := Z.
Definition NULL : BTPayload := 0.

Record BTStats := { node_visits : Z }.

(** Modelled from the spec: the tree type of the missing [btree.h], as
    the degree given to [bt_create] and the insertions made since,
    newest first. *)
Record BTree := {
  bt_degree : Z;
  bt_log : list (BTKey * BTPayload)
}.

(** Modelled from the spec: the visit counts that the missing
    [bt_search] and [bt_range_search] report, left open. *)
Class BTLayout := {
  search_visits : BTree -> BTKey -> Z;
  range_visits : BTree -> BTKey -> BTKey -> Z
}.

(** The entries of a tree: the newest insertion of a key wins. *)
Definition bt_entries (t : BTree) : gmap Z Z := list_to_map (bt_log t).

(** Modelled from the spec: the missing [bt_create], an empty index. *)
Definition bt_create (degree : Z) : BTree :=
  {| bt_degree := degree; bt_log := [] |}.

(** Modelled from the spec: the missing [bt_insert], an upsert. *)
Definition bt_insert (t : BTree) (k : BTKey) (v : BTPayload) : BTree :=
  {| bt_degree := bt_degree t; bt_log := (k, v) :: bt_log t |}.

(** Modelled from the spec: the missing [bt_search], which returns the
    payload stored under [k], or [NULL] when [k] is absent, and the
    number of nodes visited. *)
Definition bt_search {L : BTLayout} (t : BTree) (k : BTKey)
  : BTPayload * BTStats :=
  (default NULL (bt_entries t !! k), {| node_visits := search_visits t k |}).

(** Modelled from the spec: the missing [bt_count_keys], the number of
    keys. *)
Definition bt_count_keys (t : BTree) : Z := Z.of_nat (size (bt_entries t)).

Definition key_le (p q : BTKey * BTPayload) : Prop := p.1 <= q.1.

#[global] Instance key_le_dec p q : Decision (key_le p q) :=
  Z_le_dec p.1 q.1.

(** The entries with a key in [lo, hi], in ascending key order. *)
Definition bt_range (t : BTree) (lo hi : BTKey) : list (BTKey * BTPayload) :=
  merge_sort key_le
    (filter (fun p => lo <= p.1 <= hi) (map_to_list (bt_entries t))).

(** Modelled from the spec: the missing [bt_range_search], which invokes
    the callback once per key in [lo, hi], in ascending key order, and
    reports the number of nodes visited.  The callback threads its
    [void *arg] as a state of type [A]. *)
Definition bt_range_search {L : BTLayout} {A : Type} (t : BTree) (lo hi : BTKey)
    (cb : BTKey -> BTPayload -> A -> A) (arg : A) : A * BTStats :=
  (foldl (fun a p => cb p.1 p.2 a) arg (bt_range t lo hi),
   {| node_visits := range_visits t lo hi |}).

(** ** The tiered index

    The structures are declared in [hctree.h], which is not part of the
    sources; their fields are the ones [hctree.c] reads and writes.  The
    two flags are only ever tested for being non-zero.  The counters are
    mathematical integers (their C type is signed, and 2^63 queries are
    out of reach). *)

Record HCParams := {
  adapt_sampling : bool;
  sampling_rate : double;
  decay_alpha : double;
  hot_threshold : double;
  max_hot_fraction : double;
  inclusive : bool
}.

Record HCStats := {
  queries : Z;
  hot_hits : Z;
  cold_hits : Z;
  not_found : Z;
  hot_node_visits : Z;
  cold_node_visits : Z;
  hot_keys : Z;
  cold_keys : Z;
  final_sampling_rate : double
}.

Record HCIndex := {
  hot : BTree;
  cold : BTree;
  max_key : Z;
  hit_score : list double;
  params : HCParams;
  stats : HCStats;
  last_q_for_adapt : Z;
  last_cost : double;
  last_D : double
}.

(** Field updates. *)

Definition set_sampling_rate (p : HCParams) (D : double) : HCParams :=
  {| adapt_sampling := adapt_sampling p; sampling_rate := D;
     decay_alpha := decay_alpha p; hot_threshold := hot_threshold p;
     max_hot_fraction := max_hot_fraction p; inclusive := inclusive p |}.

Definition incr_queries (s : HCStats) : HCStats :=
  {| queries := queries s + 1; hot_hits := hot_hits s;
     cold_hits := cold_hits s; not_found := not_found s;
     hot_node_visits := hot_node_visits s;
     cold_node_visits := cold_node_visits s;
     hot_keys := hot_keys s; cold_keys := cold_keys s;
     final_sampling_rate := final_sampling_rate s |}.

Definition incr_hot_hits (s : HCStats) : HCStats :=
  {| queries := queries s; hot_hits := hot_hits s + 1;
     cold_hits := cold_hits s; not_found := not_found s;
     hot_node_visits := hot_node_visits s;
     cold_node_visits := cold_node_visits s;
     hot_keys := hot_keys s; cold_keys := cold_keys s;
     final_sampling_rate := final_sampling_rate s |}.

Definition incr_cold_hits (s : HCStats) : HCStats :=
  {| queries := queries s; hot_hits := hot_hits s;
     cold_hits := cold_hits s + 1; not_found := not_found s;
     hot_node_visits := hot_node_visits s;
     cold_node_visits := cold_node_visits s;
     hot_keys := hot_keys s; cold_keys := cold_keys s;
     final_sampling_rate := final_sampling_rate s |}.

Definition incr_not_found (s : HCStats) : HCStats :=
  {| queries := queries s; hot_hits := hot_hits s;
     cold_hits := cold_hits s; not_found := not_found s + 1;
     hot_node_visits := hot_node_visits s;
     cold_node_visits := cold_node_visits s;
     hot_keys := hot_keys s; cold_keys := cold_keys s;
     final_sampling_rate := final_sampling_rate s |}.

Definition add_hot_node_visits (s : HCStats) (n : Z) : HCStats :=
  {| queries := queries s; hot_hits := hot_hits s;
     cold_hits := cold_hits s; not_found := not_found s;
     hot_node_visits := hot_node_visits s + n;
     cold_node_visits := cold_node_visits s;
     hot_keys := hot_keys s; cold_keys := cold_keys s;
     final_sampling_rate := final_sampling_rate s |}.

Definition add_cold_node_visits (s : HCStats) (n : Z) : HCStats :=
  {| queries := queries s; hot_hits := hot_hits s;
     cold_hits := cold_hits s; not_found := not_found s;
     hot_node_visits := hot_node_visits s;
     cold_node_visits := cold_node_visits s + n;
     hot_keys := hot_keys s; cold_keys := cold_keys s;
     final_sampling_rate := final_sampling_rate s |}.

Definition set_hot (idx : HCIndex) (t : BTree) : HCIndex :=
  {| hot := t; cold := cold idx; max_key := max_key idx;
     hit_score := hit_score idx; params := params idx; stats := stats idx;
     last_q_for_adapt := last_q_for_adapt idx; last_cost := last_cost idx;
     last_D := last_D idx |}.

Definition set_cold (idx : HCIndex) (t : BTree) : HCIndex :=
  {| hot := hot idx; cold := t; max_key := max_key idx;
     hit_score := hit_score idx; params := params idx; stats := stats idx;
     last_q_for_adapt := last_q_for_adapt idx; last_cost := last_cost idx;
     last_D := last_D idx |}.

Definition set_hit_score (idx : HCIndex) (hs : list double) : HCIndex :=
  {| hot := hot idx; cold := cold idx; max_key := max_key idx;
     hit_score := hs; params := params idx; stats := stats idx;
     last_q_for_adapt := last_q_for_adapt idx; last_cost := last_cost idx;
     last_D := last_D idx |}.

Definition set_stats (idx : HCIndex) (s : HCStats) : HCIndex :=
  {| hot := hot idx; cold := cold idx; max_key := max_key idx;
     hit_score := hit_score idx; params := params idx; stats := s;
     last_q_for_adapt := last_q_for_adapt idx; last_cost := last_cost idx;
     last_D := last_D idx |}.

(** [k >= 0 && k <= idx->max_key] *)
Definition in_domain (idx : HCIndex) (k : BTKey) : bool :=
  (0 <=? k) && (k <=? max_key idx).

Definition zero_stats : HCStats :=
  {| queries := 0; hot_hits := 0; cold_hits := 0; not_found := 0;
     hot_node_visits := 0; cold_node_visits := 0;
     hot_keys := 0; cold_keys := 0; final_sampling_rate := 0%float |}.

Definition hc_create (max_key : Z) (btree_degree : Z) (params : HCParams)
  : HCIndex :=
  {| hot := bt_create btree_degree;
     cold := bt_create btree_degree;
     max_key := max_key;
     hit_score := replicate (Z.to_nat (max_key + 1)) 0%float;
     params := params;
     stats := zero_stats;
     last_q_for_adapt := 0;
     last_cost := 0%float;
     last_D := sampling_rate params |}.

(** The line [hc_insert] prints on [stderr]. *)
Inductive stderr_line :=
  | ErrOutOfRange (k : Z) (max_key : Z).

Definition hc_insert (idx : HCIndex) (k : BTKey) (v : BTPayload)
  : HCIndex * list stderr_line :=
  if (k <? 0) || (max_key idx <? k) then
    (idx, [ErrOutOfRange k (max_key idx)])
  else
    (set_cold idx (bt_insert (cold idx) k v), []).

Definition MIN_DELTA_Q : Z := 5000.

(** [(double)idx->stats.hot_hits / (double)(q ? q : 1)] against the
    target hot-hit ratio 0.6. *)
Definition nudge_by_hot_frac (idx : HCIndex) (q : Z) (D : double) : double :=
  let hot_frac :=
    (double_of_Z (hot_hits (stats idx))
     / double_of_Z (if (q =? 0)%Z then 1%Z else q))%float in
  let target_hot := 0.6%float in
  if (hot_frac <? target_hot)%float then (D + 0.05)%float
  else (D - 0.05)%float.

(** [cost = (q > 0) ? total_nodes / q : 0.0] *)
Definition adapt_cost (idx : HCIndex) : double :=
  let q := queries (stats idx) in
  let total_nodes :=
    (double_of_Z (hot_node_visits (stats idx))
     + double_of_Z (cold_node_visits (stats idx)))%float in
  if 0 <? q then (total_nodes / double_of_Z q)%float else 0%float.

Definition hc_maybe_adapt_sampling (idx : HCIndex) : HCIndex :=
  if negb (adapt_sampling (params idx)) then idx else
  let q := queries (stats idx) in
  if q - last_q_for_adapt idx <? MIN_DELTA_Q then idx else
  let cost := adapt_cost idx in
  let D := sampling_rate (params idx) in
  let D' :=
    if last_q_for_adapt idx =? 0 then
      nudge_by_hot_frac idx q D
    else
      let dC := (cost - last_cost idx)%float in
      let dD := (D - last_D idx)%float in
      if (abs dD <? 1e-9)%float then
        nudge_by_hot_frac idx q D
      else if (dC * dD <? 0)%float then
        (D + 0.05 * (if (0 <? dD)%float then 1 else -1))%float
      else if (0 <? dC * dD)%float then
        (D - 0.05 * (if (0 <? dD)%float then 1 else -1))%float
      else D in
  {| hot := hot idx; cold := cold idx; max_key := max_key idx;
     hit_score := hit_score idx;
     params := set_sampling_rate (params idx) (clamp01 D');
     stats := stats idx;
     last_q_for_adapt := q;
     last_cost := cost;
     last_D := sampling_rate (params idx) |}.

(** [max_hot = idx->params.max_hot_fraction * (double)total_keys] with
    [total_keys = (size_t)(idx->max_key + 1)]. *)
Definition hot_capacity (idx : HCIndex) : double :=
  let total_keys := size_t_of (max_key idx + 1) in
  (max_hot_fraction (params idx) * double_of_Z total_keys)%float.

(** [(double)hot_keys >= max_hot]: the hot index is at capacity. *)
Definition at_capacity (idx : HCIndex) : bool :=
  let hot_keys := bt_count_keys (hot idx) in
  (hot_capacity idx <=? double_of_Z hot_keys)%float.

(** [u] is the value of [(double)rand() / ((double)RAND_MAX + 1.0)] on
    this call, a number in [0, 1). *)
Definition maybe_promote {L : BTLayout} (idx : HCIndex) (k : BTKey) (u : double)
  : HCIndex :=
  if negb (inclusive (params idx)) then idx else
  let D := clamp01 (sampling_rate (params idx)) in
  if (D <? u)%float then idx else
  if at_capacity idx then idx else
  let '(existing, s) := bt_search (hot idx) k in
  if negb (existing =? NULL) then idx else
  let '(v, s2) := bt_search (cold idx) k in
  if v =? NULL then idx else
  set_hot idx (bt_insert (hot idx) k v).

(** [idx->hit_score[k] = idx->params.decay_alpha * old + 1.0] *)
Definition decayed_score (idx : HCIndex) (k : BTKey) : double :=
  (decay_alpha (params idx) * (hit_score idx !!! Z.to_nat k) + 1)%float.

Definition hc_search {L : BTLayout} (idx : HCIndex) (k : BTKey) (u : double)
  : BTPayload * HCIndex :=
  let idx := set_stats idx (incr_queries (stats idx)) in
  let idx := hc_maybe_adapt_sampling idx in
  let '(v, hot_s) := bt_search (hot idx) k in
  let idx :=
    set_stats idx (add_hot_node_visits (stats idx) (node_visits hot_s)) in
  if negb (v =? NULL) then
    let idx := set_stats idx (incr_hot_hits (stats idx)) in
    let idx :=
      if in_domain idx k then
        set_hit_score idx
          (<[Z.to_nat k := decayed_score idx k]> (hit_score idx))
      else idx in
    (v, idx)
  else
    let '(v, cold_s) := bt_search (cold idx) k in
    let idx :=
      set_stats idx (add_cold_node_visits (stats idx) (node_visits cold_s)) in
    if negb (v =? NULL) then
      let idx := set_stats idx (incr_cold_hits (stats idx)) in
      let idx :=
        if in_domain idx k then
          let new_score := decayed_score idx k in
          let idx :=
            set_hit_score idx (<[Z.to_nat k := new_score]> (hit_score idx)) in
          if (hot_threshold (params idx) <=? new_score)%float
          then maybe_promote idx k u
          else idx
        else idx in
      (v, idx)
    else
      (NULL, set_stats idx (incr_not_found (stats idx))).

(** The context of a deduplicated range scan; [seen] has one slot per
    key of the domain. *)
Record HCRangeCtx (U : Type) := {
  user_cb : BTKey -> BTPayload -> U -> U;
  user_arg : U;
  seen : list Z;
  ctx_idx : HCIndex
}.
Arguments user_cb {U}.
Arguments user_arg {U}.
Arguments seen {U}.
Arguments ctx_idx {U}.

Definition hc_range_cb_hot {U : Type} (k : BTKey) (v : BTPayload)
    (ctx : HCRangeCtx U) : HCRangeCtx U :=
  if (k <? 0) || (max_key (ctx_idx ctx) <? k) then ctx
  else if (seen ctx !!! Z.to_nat k) =? 0 then
    {| user_cb := user_cb ctx;
       user_arg := user_cb ctx k v (user_arg ctx);
       seen := <[Z.to_nat k := 1]> (seen ctx);
       ctx_idx := ctx_idx ctx |}
  else ctx.

Definition hc_range_cb_cold {U : Type} (k : BTKey) (v : BTPayload)
    (ctx : HCRangeCtx U) : HCRangeCtx U :=
  if (k <? 0) || (max_key (ctx_idx ctx) <? k) then ctx
  else if (seen ctx !!! Z.to_nat k) =? 0 then
    {| user_cb := user_cb ctx;
       user_arg := user_cb ctx k v (user_arg ctx);
       seen := <[Z.to_nat k := 1]> (seen ctx);
       ctx_idx := ctx_idx ctx |}
  else ctx.

(** Returns the index and the final state of the user's [arg]. *)
Definition hc_range_search {L : BTLayout} {U : Type} (idx : HCIndex)
    (lo hi : BTKey) (cb : BTKey -> BTPayload -> U -> U) (arg : U)
  : HCIndex * U :=
  let ctx :=
    {| user_cb := cb; user_arg := arg; ctx_idx := idx;
       seen := replicate (Z.to_nat (max_key idx + 1)) 0 |} in
  let '(ctx, hot_s) :=
    bt_range_search (hot idx) lo hi hc_range_cb_hot ctx in
  let '(ctx, cold_s) :=
    bt_range_search (cold idx) lo hi hc_range_cb_cold ctx in
  let idx :=
    set_stats idx (add_hot_node_visits (stats idx) (node_visits hot_s)) in
  let idx :=
    set_stats idx (add_cold_node_visits (stats idx) (node_visits cold_s)) in
  (idx, user_arg ctx).

Definition hc_get_stats (idx : HCIndex) : HCStats :=
  let s := stats idx in
  {| queries := queries s; hot_hits := hot_hits s;
     cold_hits := cold_hits s; not_found := not_found s;
     hot_node_visits := hot_node_visits s;
     cold_node_visits := cold_node_visits s;
     hot_keys := bt_count_keys (hot idx);
     cold_keys := bt_count_keys (cold idx);
     final_sampling_rate := sampling_rate (params idx) |}.

Arguments hc_maybe_adapt_sampling : simpl never.
Arguments maybe_promote : simpl never.
Arguments in_domain : simpl never.
Arguments decayed_score : simpl never.
Arguments at_capacity : simpl never.
Arguments hot_capacity : simpl never.
Arguments bt_entries : simpl never.

(** ** Calls, observations and reachable states *)

Inductive hc_call :=
  | CallInsert (k : BTKey) (v : BTPayload)
  | CallSearch (k : BTKey) (u : double)
  | CallRangeSearch (lo hi : BTKey)
  | CallGetStats.

(** What the caller of an operation observes: the returned payload,
    the lines printed on [stderr], the callback invocations of a range
    scan, and the statistics read back. *)
Record Observed := {
  returned : option BTPayload;
  printed : list stderr_line;
  emitted : list (BTKey * BTPayload);
  read_stats : option HCStats
}.

(** The callback that records its invocations. *)
Definition record_cb (k : BTKey) (v : BTPayload)
    (acc : list (BTKey * BTPayload)) : list (BTKey * BTPayload) :=
  acc ++ [(k, v)].

Definition hc_run {L : BTLayout} (idx : HCIndex) (c : hc_call)
  : HCIndex * Observed :=
  match c with
  | CallInsert k v =>
      let '(idx', err) := hc_insert idx k v in
      (idx', {| returned := None; printed := err; emitted := [];
                read_stats := None |})
  | CallSearch k u =>
      let '(v, idx') := hc_search idx k u in
      (idx', {| returned := Some v; printed := []; emitted := [];
                read_stats := None |})
  | CallRangeSearch lo hi =>
      let '(idx', out) := hc_range_search idx lo hi record_cb [] in
      (idx', {| returned := None; printed := []; emitted := out;
                read_stats := None |})
  | CallGetStats =>
      (idx, {| returned := None; printed := []; emitted := [];
               read_stats := Some (hc_get_stats idx) |})
  end.

Definition hc_step {L : BTLayout} (idx : HCIndex) (c : hc_call) : HCIndex :=
  (hc_run idx c).1.

Definition hc_steps {L : BTLayout} (idx : HCIndex) (cs : list hc_call)
  : HCIndex :=
  foldl hc_step idx cs.

(** States reachable from [hc_create] by calls that satisfy [ok]. *)
Inductive reachable_by {L : BTLayout} (ok : HCIndex -> hc_call -> Prop)
  : HCIndex -> Prop :=
  | reachable_create max_key degree params :
      reachable_by ok (hc_create max_key degree params)
  | reachable_step idx c :
      reachable_by ok idx -> ok idx c -> reachable_by ok (hc_step idx c).

Definition reachable {L : BTLayout} : HCIndex -> Prop :=
  reachable_by (fun _ _ => True).

(** The operation is reported as out of range. *)
Definition reports_OutOfRange (o : Observed) : Prop :=
  exists k m, ErrOutOfRange k m ∈ printed o.

(** ** Invariants *)

(** Every key of the hot tier is a key of the cold tier. *)
Definition key_inclusion (idx : HCIndex) : Prop :=
  dom (bt_entries (hot idx)) ⊆ dom (bt_entries (cold idx)).

(** Every entry of the hot tier is an entry of the cold tier. *)
Definition entry_inclusion (idx : HCIndex) : Prop :=
  forall k v, bt_entries (hot idx) !! k = Some v ->
              bt_entries (cold idx) !! k = Some v.

(** A call that does not overwrite the payload of a key that is in the
    hot tier. *)
Definition keeps_hot_payloads (idx : HCIndex) (c : hc_call) : Prop :=
  match c with
  | CallInsert k v =>
      forall w, bt_entries (hot idx) !! k = Some w -> w = v
  | _ => True
  end.

(** The payload that the calls [cs] leave in the cold tier under a key
    [k] of the domain that held [d] before them: the payload of the last
    [hc_insert] of [k] among them, or [d] when there is none. *)
Fixpoint last_insert (k : BTKey) (cs : list hc_call) (d : BTPayload)
  : BTPayload :=
  match cs with
  | [] => d
  | CallInsert k' w :: cs => last_insert k cs (if k' =? k then w else d)
  | _ :: cs => last_insert k cs d
  end.

(** The keys of both tiers lie in the domain [0, max_key]. *)
Definition keys_in_domain (idx : HCIndex) : Prop :=
  forall k, k ∈ dom (bt_entries (hot idx)) ∪ dom (bt_entries (cold idx)) ->
            0 <= k <= max_key idx.

(** The score array has one slot per key of the domain. *)
Definition score_array_ok (idx : HCIndex) : Prop :=
  length (hit_score idx) = Z.to_nat (max_key idx + 1).

(** The number of hot keys does not exceed the capacity bound. *)
Definition within_capacity (idx : HCIndex) : bool :=
  negb (hot_capacity idx <? double_of_Z (bt_count_keys (hot idx)))%float.

(** The hot tier without its last key was below the capacity bound. *)
Definition capacity_inv (idx : HCIndex) : Prop :=
  bt_count_keys (hot idx) = 0 \/
  (hot_capacity idx <=? double_of_Z (bt_count_keys (hot idx) - 1))%float
  = false.

(** ** The adapter's decision rule in the words of the specification *)

(** Move [D] by the fixed step 0.05, up or down. *)
Definition move_D (D : double) (up : bool) : double :=
  if up then (D + 0.05)%float else (D - 0.05)%float.

(** ** The decay recurrence *)

(** [n] applications of [s := alpha * s + 1.0]. *)
Fixpoint iter_decay (alpha : double) (n : nat) (s : double) : double :=
  match n with
  | O => s
  | S n => iter_decay alpha n (alpha * s + 1)%float
  end.

(** Consecutive searches of one key, one random draw per search. *)
Definition search_many {L : BTLayout} (idx : HCIndex) (k : BTKey)
    (us : list double) : HCIndex :=
  foldl (fun i u => (hc_search i k u).2) idx us.

(** ** The values of doubles

    A finite double is an integer multiple of 2^-1074.  The order of the
    scores is settled on these integers; the exact result of a product is
    a multiple of 2^-2148. *)

(** [M / P] rounded to the nearest integer, ties to even. *)
Definition rne (P M : Z) : Z :=
  let q := M / P in
  let R := M mod P in
  if (P <? 2 * R) || ((P =? 2 * R) && Z.odd q) then q + 1 else q.

(** The exponent of the last place that binary64 keeps of the number
    [X * 2^-K], counted in units of 2^-K. *)
Definition cexp (K X : Z) : Z := Z.max (Z.log2 X + 1 - prec) (emin + K).

(** The number [X * 2^-K] rounded to binary64 (to nearest, ties to
    even), in units of 2^-K. *)
Definition Rnd (K X : Z) : Z := rne (2 ^ cexp K X) X * 2 ^ cexp K X.

(** The value of a positive number in units of 2^-K; 0 for the others. *)
Definition SFint (K : Z) (f : spec_float) : Z :=
  match f with
  | S754_finite false m e => Zpos m * 2 ^ (e + K)
  | _ => 0
  end.

(** A zero, or a positive number in the canonical form of binary64. *)
Definition canon_nonneg (f : spec_float) : bool :=
  match f with
  | S754_zero _ => true
  | S754_finite false m e => bounded prec emax m e
  | _ => false
  end.

Definition ival (f : spec_float) : Z := SFint 1074 f.

(** The value of a non-negative finite double in units of 2^-1074. *)
Definition dval (x : double) : Z := ival (Prim2SF x).

(** The exact value of a non-negative finite double, as a fraction. *)
Definition Q_of_double (x : double) : Q := Qmake (dval x) (2 ^ 1074)%positive.

(** [x] is a number in [0, 2^53]. *)
Definition score_range (x : double) : bool :=
  (0 <=? x)%float && (x <=? 9007199254740992)%float.

(** A decay factor in [0, 1). *)
Definition decay_factor (alpha : double) : bool :=
  (0 <=? alpha)%float && (alpha <? 1)%float.

(** The record [rec] holds the integer [M] shifted right: its mantissa
    is the quotient of [M] by [P], its round and sticky bits place the
    remainder with respect to one half of [P]. *)
Definition shr_inv (M P : Z) (rec : shr_record) : Prop :=
  exists R, 0 <= R < P /\ M = shr_m rec * P + R /\ 0 <= shr_m rec /\
    shr_r rec = (P <=? 2 * R) /\
    shr_s rec = negb ((R =? 0) || (2 * R =? P)).

(** ** The deduplicated scan as a function on lists *)

(** The invocations of the user callback while the entries [l] of one
    tier are fed to the scan callback, and the [seen] array afterwards. *)
Fixpoint dedup_scan (mk : Z) (seen : list Z) (l : list (BTKey * BTPayload))
  : list (BTKey * BTPayload) * list Z :=
  match l with
  | [] => ([], seen)
  | (k, v) :: l =>
      if (k <? 0) || (mk <? k) then dedup_scan mk seen l
      else if (seen !!! Z.to_nat k) =? 0 then
        let '(calls, seen') := dedup_scan mk (<[Z.to_nat k := 1]> seen) l in
        ((k, v) :: calls, seen')
      else dedup_scan mk seen l
  end.

(** The array [seen] marks exactly the keys of the domain that
    satisfy [P]. *)
Definition seen_marks (mk : Z) (seen : list Z) (P : Z -> Prop) : Prop :=
  length seen = Z.to_nat (mk + 1) /\
  forall k, 0 <= k <= mk -> (seen !!! Z.to_nat k <> 0 <-> P k).

(** ** Concrete scenarios *)

(** A layout in which every operation visits one node. *)
Definition ex_layout : BTLayout :=
  {| search_visits := fun _ _ => 1; range_visits := fun _ _ _ => 1 |}.

Definition ex_params (adapt : bool) (alpha threshold fraction : double)
  : HCParams :=
  {| adapt_sampling := adapt; sampling_rate := 1%float;
     decay_alpha := alpha; hot_threshold := threshold;
     max_hot_fraction := fraction; inclusive := true |}.

(** Key 42 is promoted with payload 65 and then inserted again with
    payload 66. *)
Definition ex_reinsert : HCIndex :=
  hc_steps (L := ex_layout)
    (hc_create 99 4 (ex_params false 0.5 1 1))
    [CallInsert 42 65; CallSearch 42 0; CallInsert 42 66].

(** Keys 42 and 7 are promoted with payloads 65 and 70, and key 42 alone
    is then inserted again with payload 66. *)
Definition ex_two_hot_calls : list hc_call :=
  [CallInsert 42 65; CallInsert 7 70; CallSearch 42 0; CallSearch 7 0;
   CallInsert 42 66].

Abbreviation ex_two_hot :=
  (hc_steps (L := ex_layout)
     (hc_create 99 4 (ex_params false 0.5 1 1)) ex_two_hot_calls).

(** Five keys in the domain, half of them may be hot; three keys are
    inserted and searched once each. *)
Definition ex_half : HCIndex :=
  hc_steps (L := ex_layout)
    (hc_create 4 4 (ex_params false 0 1 0.5))
    [CallInsert 0 65; CallInsert 1 66; CallInsert 2 67;
     CallSearch 0 0; CallSearch 1 0; CallSearch 2 0].

(** Adaptation enabled: key 0 is promoted by the first search and hit
    4998 more times, so that the next search is the 5000th query. *)
Definition ex_adapt : HCIndex :=
  hc_steps (L := ex_layout)
    (hc_create 1 4 (ex_params true 0.5 1 1))
    ([CallInsert 0 65; CallInsert 1 66]
     ++ replicate 4999 (CallSearch 0 0)).

(** A fresh index with one key, for the decay examples. *)
Definition ex_decay (alpha : double) : HCIndex :=
  hc_steps (L := ex_layout)
    (hc_create 9 4 (ex_params false alpha 100 1))
    [CallInsert 5 65].

(** A fresh index over the keys 0..99. *)
Definition ex_fresh : HCIndex := hc_create 99 4 (ex_params false 0.5 1 1).

(** Key 42 inserted, not yet searched. *)
Definition ex_one : HCIndex :=
  hc_steps (L := ex_layout) ex_fresh [CallInsert 42 65].

(** [ex_adapt] after a search of key 1 and 4999 more searches of key 0,
    at the entry of the adapter in the 10000th query.  The first
    adaptation took place at query 5000 and lowered the rate to 0.95;
    the cost per query has risen since. *)
Definition ex_adapt_again : HCIndex :=
  let idx := hc_steps (L := ex_layout) ex_adapt
               (CallSearch 1 0.99 :: replicate 4999 (CallSearch 0 0)) in
  set_stats idx (incr_queries (stats idx)).

(** The worked example of the specification: [max_key = 99], degree 4,
    [sampling_rate = 1.0], [hot_threshold = 1.5], [decay_alpha = 0.5],
    [max_hot_fraction = 1.0]; key 42 is inserted and searched [n] times. *)
Definition ex_spec (n : nat) : HCIndex :=
  hc_steps (L := ex_layout)
    (hc_create 99 4 (ex_params false 0.5 1.5 1))
    (CallInsert 42 65 :: replicate n (CallSearch 42 0)).

(** ** Further invariants and measures *)

Definition is_search (c : hc_call) : bool :=
  match c with CallSearch _ _ => true | _ => false end.

(** The number of [hc_search] calls in a sequence of calls. *)
Fixpoint count_searches (cs : list hc_call) : Z :=
  match cs with
  | [] => 0
  | c :: cs => (if is_search c then 1 else 0) + count_searches cs
  end.

(** Every query is a hot hit, a cold hit or a miss. *)
Definition stats_balanced (s : HCStats) : Prop :=
  queries s = hot_hits s + cold_hits s + not_found s /\
  0 <= hot_hits s /\ 0 <= cold_hits s /\ 0 <= not_found s.

(** No entry of the hot tier has a NULL payload. *)
Definition hot_payloads_set (idx : HCIndex) : Prop :=
  forall k v, bt_entries (hot idx) !! k = Some v -> v ≠ NULL.

(** A key of the domain that was never inserted has score 0. *)
Definition unseen_scores_zero (idx : HCIndex) : Prop :=
  forall k, 0 <= k <= max_key idx ->
            k ∉ dom (bt_entries (cold idx)) ->
            hit_score idx !!! Z.to_nat k = 0%float.

(** The adapter last acted at a query count that has been reached, and
    never before the 5000th query. *)
Definition adapter_window_ok (idx : HCIndex) : Prop :=
  last_q_for_adapt idx <= queries (stats idx) /\
  (last_q_for_adapt idx = 0 \/ MIN_DELTA_Q <= last_q_for_adapt idx).

(** The parameters that no operation writes. *)
Definition same_config (idx idx' : HCIndex) : Prop :=
  max_key idx' = max_key idx /\
  adapt_sampling (params idx') = adapt_sampling (params idx) /\
  decay_alpha (params idx') = decay_alpha (params idx) /\
  hot_threshold (params idx') = hot_threshold (params idx) /\
  max_hot_fraction (params idx') = max_hot_fraction (params idx) /\
  inclusive (params idx') = inclusive (params idx).

(** The adapter state. *)
Definition same_adapter (idx idx' : HCIndex) : Prop :=
  params idx' = params idx /\
  last_q_for_adapt idx' = last_q_for_adapt idx /\
  last_cost idx' = last_cost idx /\
  last_D idx' = last_D idx.

(** The hot-hit ratio the adapter compares with its target 0.6. *)
Definition hot_frac (idx : HCIndex) : double :=
  let q := queries (stats idx) in
  (double_of_Z (hot_hits (stats idx))
   / double_of_Z (if (q =? 0)%Z then 1%Z else q))%float.

(** All gates of a promotion, as [hc_search] evaluates them for key [k]
    and draw [u]: a cold hit on a key of the domain whose updated score
    reaches the threshold, inclusive mode, not sampled out at the rate in
    force after the adapter step, and a hot tier below capacity. *)
Definition promotes {L : BTLayout} (idx : HCIndex) (k : BTKey) (u : double)
  : bool :=
  let idx1 :=
    hc_maybe_adapt_sampling (set_stats idx (incr_queries (stats idx))) in
  ((bt_search (hot idx) k).1 =? NULL)
  && negb ((bt_search (cold idx) k).1 =? NULL)
  && in_domain idx k
  && (hot_threshold (params idx) <=? decayed_score idx k)%float
  && inclusive (params idx)
  && negb (clamp01 (sampling_rate (params idx1)) <? u)%float
  && negb (at_capacity idx).

(** The callback invocations of a range scan: those of the hot scan,
    then those of the cold scan. *)
Definition range_calls_hot (idx : HCIndex) (lo hi : BTKey)
  : list (BTKey * BTPayload) * list Z :=
  dedup_scan (max_key idx) (replicate (Z.to_nat (max_key idx + 1)) 0)
    (bt_range (hot idx) lo hi).

Definition range_calls_cold (idx : HCIndex) (lo hi : BTKey)
  : list (BTKey * BTPayload) :=
  (dedup_scan (max_key idx) (range_calls_hot idx lo hi).2
     (bt_range (cold idx) lo hi)).1.

Definition range_calls (idx : HCIndex) (lo hi : BTKey)
  : list (BTKey * BTPayload) :=
  (range_calls_hot idx lo hi).1 ++ range_calls_cold idx lo hi.

(** The keys of the domain, as a set. *)
Definition domain_keys (idx : HCIndex) : gset Z :=
  list_to_set (seqZ 0 (max_key idx + 1)).

(** [ex_adapt] at the entry of the adapter in the 5000th query, its
    first adaptation. *)
Definition ex_adapt_entry : HCIndex :=
  set_stats ex_adapt (incr_queries (stats ex_adapt)).

(** An index created in non-inclusive mode. *)
Definition ex_noninclusive_params : HCParams :=
  {| adapt_sampling := false; sampling_rate := 1%float;
     decay_alpha := 0.5%float; hot_threshold := 1%float;
     max_hot_fraction := 1%float; inclusive := false |}.

(** * Facts about doubles

    Derived from [SpecFloat], the executable specification of the
    primitive operations. *)

Module Double.

Lemma SFcompare_antisym x y :
  SFcompare y x = option_map CompOpp (SFcompare x y).
Proof.
  destruct x as [[]|[]| |[] m e], y as [[]|[]| |[] m' e'];
    simpl; try reflexivity;
    rewrite (Z.compare_antisym e e'); destruct (e ?= e'); simpl;
    try reflexivity;
    change (Pos.compare_cont Eq m' m) with (Pos.compare m' m);
    change (Pos.compare_cont Eq m m') with (Pos.compare m m');
    rewrite (Pos.compare_antisym m m'); destruct (m ?= m')%positive;
    reflexivity.
Qed.

Lemma SFcompare_None x y :
  SFcompare x y = None -> is_nan_sf x = true \/ is_nan_sf y = true.
Proof.
  destruct x as [[]|[]| |[] m e], y as [[]|[]| |[] m' e'];
    simpl; intros H; try discriminate H; auto.
Qed.

Lemma ltb_asym (x y : double) :
  (x <? y)%float = true -> (y <? x)%float = false.
Proof.
  rewrite !ltb_spec. unfold SFltb.
  rewrite (SFcompare_antisym (Prim2SF x) (Prim2SF y)).
  destruct (SFcompare (Prim2SF x) (Prim2SF y)) as [[]|]; simpl; congruence.
Qed.

Lemma ltb_leb_asym (x y : double) :
  (x <? y)%float = true -> (y <=? x)%float = false.
Proof.
  rewrite ltb_spec, leb_spec. unfold SFltb, SFleb.
  rewrite (SFcompare_antisym (Prim2SF x) (Prim2SF y)).
  destruct (SFcompare (Prim2SF x) (Prim2SF y)) as [[]|]; simpl; congruence.
Qed.

Lemma leb_ltb_asym (x y : double) :
  (x <=? y)%float = true -> (y <? x)%float = false.
Proof.
  rewrite ltb_spec, leb_spec. unfold SFltb, SFleb.
  rewrite (SFcompare_antisym (Prim2SF x) (Prim2SF y)).
  destruct (SFcompare (Prim2SF x) (Prim2SF y)) as [[]|]; simpl; congruence.
Qed.

Lemma ltb_false_leb (x y : double) :
  is_nan_sf (Prim2SF x) = false -> is_nan_sf (Prim2SF y) = false ->
  (x <? y)%float = false -> (y <=? x)%float = true.
Proof.
  intros Hx Hy. rewrite ltb_spec, leb_spec. unfold SFltb, SFleb.
  rewrite (SFcompare_antisym (Prim2SF x) (Prim2SF y)).
  destruct (SFcompare (Prim2SF x) (Prim2SF y)) as [[]|] eqn:E; simpl;
    try congruence.
  apply SFcompare_None in E. destruct E; congruence.
Qed.

(** *** Rounding never produces a NaN *)

Lemma shr_1_nonneg mrs : 0 <= shr_m mrs -> 0 <= shr_m (shr_1 mrs).
Proof. destruct mrs as [[|[p|p|]|p] r s]; simpl; lia. Qed.

Lemma iter_shr_1_nonneg p : forall mrs,
  0 <= shr_m mrs -> 0 <= shr_m (SpecFloat.iter_pos shr_1 p mrs).
Proof.
  induction p as [p IH|p IH|]; intros mrs H; simpl.
  - apply IH, IH, shr_1_nonneg, H.
  - apply IH, IH, H.
  - apply shr_1_nonneg, H.
Qed.

Lemma shr_fexp_nonneg m e l :
  0 <= m -> 0 <= shr_m (fst (shr_fexp prec emax m e l)).
Proof.
  intros H. unfold shr_fexp, shr.
  assert (H0 : 0 <= shr_m (shr_record_of_loc m l))
    by (destruct l as [|[]]; exact H).
  destruct (fexp prec emax (Zdigits2 m + e) - e); simpl; auto.
  apply iter_shr_1_nonneg, H0.
Qed.

Lemma round_nearest_even_nonneg mx lx :
  0 <= mx -> 0 <= round_nearest_even mx lx.
Proof.
  intros H. destruct lx as [|[]]; simpl; try destruct (Z.even mx); lia.
Qed.

Lemma binary_round_aux_not_nan sx mx ex lx :
  0 <= mx -> is_nan_sf (binary_round_aux prec emax sx mx ex lx) = false.
Proof.
  intros H. unfold binary_round_aux.
  pose proof (shr_fexp_nonneg mx ex lx H) as H1.
  destruct (shr_fexp prec emax mx ex lx) as [mrs' e']. simpl in H1.
  pose proof (shr_fexp_nonneg _ e' loc_Exact
                (round_nearest_even_nonneg _ (loc_of_shr_record mrs') H1))
    as H2.
  destruct (shr_fexp prec emax _ e' loc_Exact) as [mrs'' e'']. simpl in H2.
  destruct (shr_m mrs'') as [|m|m]; simpl; [reflexivity| |lia].
  destruct (e'' <=? emax - prec); reflexivity.
Qed.

Lemma binary_normalize_not_nan m e sz :
  is_nan_sf (binary_normalize prec emax m e sz) = false.
Proof.
  destruct m as [|m|m]; simpl; [reflexivity| |]; unfold binary_round;
    destruct (shl_align _ _ _) as [mz ez];
    apply binary_round_aux_not_nan; lia.
Qed.

Lemma SFadd_finite x y :
  is_finite_sf x = true -> is_finite_sf y = true ->
  is_nan_sf (SFadd prec emax x y) = false.
Proof.
  destruct x as [[]|[]| |sx mx ex], y as [[]|[]| |sy my ey];
    simpl; intros; try discriminate; try reflexivity.
  apply binary_normalize_not_nan.
Qed.

Lemma SFsub_finite x y :
  is_finite_sf x = true -> is_finite_sf y = true ->
  is_nan_sf (SFsub prec emax x y) = false.
Proof.
  destruct x as [[]|[]| |sx mx ex], y as [[]|[]| |sy my ey];
    simpl; intros; try discriminate; try reflexivity.
  apply binary_normalize_not_nan.
Qed.

Lemma add_not_nan (x y : double) :
  is_finite_sf (Prim2SF x) = true -> is_finite_sf (Prim2SF y) = true ->
  is_nan_sf (Prim2SF (x + y)%float) = false.
Proof. intros. rewrite add_spec. now apply SFadd_finite. Qed.

Lemma sub_not_nan (x y : double) :
  is_finite_sf (Prim2SF x) = true -> is_finite_sf (Prim2SF y) = true ->
  is_nan_sf (Prim2SF (x - y)%float) = false.
Proof. intros. rewrite sub_spec. now apply SFsub_finite. Qed.

Lemma in01_finite (x : double) :
  in01 x = true -> is_finite_sf (Prim2SF x) = true.
Proof.
  unfold in01. rewrite !leb_spec.
  change (Prim2SF 0) with (S754_zero false).
  change (Prim2SF 1) with (S754_finite false 4503599627370496 (-52)).
  destruct (Prim2SF x) as [[]|[]| |[] m e]; simpl; try reflexivity;
    intros H; discriminate H.
Qed.

Lemma finite_not_nan x : is_finite_sf x = true -> is_nan_sf x = false.
Proof. destruct x; simpl; congruence. Qed.

(** *** Subtraction is addition of the opposite *)

Lemma SFsub_SFadd_opp x y :
  SFsub prec emax x y = SFadd prec emax x (SFopp y).
Proof.
  destruct x as [[]|[]| |sx mx ex], y as [[]|[]| |sy my ey];
    simpl; try reflexivity.
  f_equal. destruct sy; simpl; lia.
Qed.

Lemma sub_add_opp (x y : double) : (x - y = x + - y)%float.
Proof.
  apply Prim2SF_inj.
  rewrite sub_spec, add_spec, opp_spec. apply SFsub_SFadd_opp.
Qed.

(** *** A product with a zero factor is neither negative nor positive *)

Lemma eqb_zero_inv (x : double) :
  (x =? 0)%float = true -> exists s, Prim2SF x = S754_zero s.
Proof.
  rewrite FloatAxioms.eqb_spec. change (Prim2SF 0) with (S754_zero false).
  destruct (Prim2SF x) as [s|[]| |[] m e]; simpl; intros H;
    try discriminate H.
  now exists s.
Qed.

Lemma mul_zero_l_sign (x y : double) :
  (x =? 0)%float = true ->
  (x * y <? 0)%float = false /\ (0 <? x * y)%float = false.
Proof.
  intros [s Hs]%eqb_zero_inv.
  rewrite !ltb_spec, mul_spec, Hs.
  change (Prim2SF 0) with (S754_zero false).
  destruct (Prim2SF y) as [[]|[]| |[] m e], s; simpl; split; reflexivity.
Qed.

(** *** Clamping and the fixed step *)

Lemma clamp01_in01 (x : double) :
  is_nan_sf (Prim2SF x) = false -> in01 (clamp01 x) = true.
Proof.
  intros Hx. unfold clamp01.
  destruct (x <? 0)%float eqn:E1; [vm_compute; reflexivity|].
  destruct (1 <? x)%float eqn:E2; [vm_compute; reflexivity|].
  unfold in01.
  rewrite (ltb_false_leb x 0), (ltb_false_leb 1 x); auto.
Qed.

Lemma clamp01_one : clamp01 1 = 1%float.
Proof. vm_compute. reflexivity. Qed.

Lemma in01_add_not_nan (D c : double) :
  in01 D = true -> is_finite_sf (Prim2SF c) = true ->
  is_nan_sf (Prim2SF (D + c)%float) = false.
Proof. intros HD Hc. apply add_not_nan; [now apply in01_finite|exact Hc]. Qed.

Lemma in01_sub_not_nan (D c : double) :
  in01 D = true -> is_finite_sf (Prim2SF c) = true ->
  is_nan_sf (Prim2SF (D - c)%float) = false.
Proof. intros HD Hc. apply sub_not_nan; [now apply in01_finite|exact Hc]. Qed.

Lemma in01_not_nan (D : double) :
  in01 D = true -> is_nan_sf (Prim2SF D) = false.
Proof. intros HD. now apply finite_not_nan, in01_finite. Qed.

Lemma step_up_pos (D : double) : (D + 0.05 * 1 = D + 0.05)%float.
Proof. reflexivity. Qed.

Lemma step_up_neg (D : double) : (D + 0.05 * -1 = D - 0.05)%float.
Proof. rewrite (sub_add_opp D 0.05). reflexivity. Qed.

Lemma step_down_pos (D : double) : (D - 0.05 * 1 = D - 0.05)%float.
Proof. reflexivity. Qed.

Lemma step_down_neg (D : double) : (D - 0.05 * -1 = D + 0.05)%float.
Proof. rewrite (sub_add_opp D (0.05 * -1)). reflexivity. Qed.

(** *** The first hit on a fresh score *)

Lemma decay_from_zero (alpha : double) :
  is_finite_sf (Prim2SF alpha) = true -> (alpha * 0 + 1 = 1)%float.
Proof.
  intros H. apply Prim2SF_inj. rewrite add_spec, mul_spec.
  change (Prim2SF 0) with (S754_zero false).
  destruct (Prim2SF alpha) as [[]|[]| |[] m e]; try discriminate H;
    reflexivity.
Qed.

End Double.

(** * Rounding and the order of doubles

    The primitive operations are specified by [SpecFloat]: an operation
    computes an exact mantissa and exponent, shifts the mantissa to the
    format's precision and rounds to nearest, ties to even.  On
    non-negative numbers this is a monotone function of the exact
    result, which makes the decay recurrence monotone. *)

Module Rounding.

(** ** Rounding to the nearest integer, ties to even *)

Lemma rne_bounds P M : 0 < P -> M / P <= rne P M <= M / P + 1.
Proof. intros HP. unfold rne. cbv zeta. destruct (_ || _); lia. Qed.

Lemma div_le_lt P M1 M2 : 0 < P -> M1 <= M2 ->
  M1 / P < M2 / P \/ (M1 / P = M2 / P /\ M1 mod P <= M2 mod P).
Proof.
  intros HP H.
  pose proof (Z.div_mod M1 P ltac:(lia)).
  pose proof (Z.div_mod M2 P ltac:(lia)).
  pose proof (Z.mod_pos_bound M1 P HP).
  pose proof (Z.mod_pos_bound M2 P HP).
  assert (M1 / P <= M2 / P) by (apply Z.div_le_mono; lia).
  destruct (Z.eq_dec (M1 / P) (M2 / P)) as [E|E]; [right|left; lia].
  split; [exact E|]. rewrite E in *. lia.
Qed.

Lemma rne_mono P M1 M2 : 0 < P -> M1 <= M2 -> rne P M1 <= rne P M2.
Proof.
  intros HP H.
  destruct (div_le_lt P M1 M2 HP H) as [Hlt|[Heq Hr]].
  - pose proof (rne_bounds P M1 HP). pose proof (rne_bounds P M2 HP). lia.
  - unfold rne. cbv zeta. rewrite Heq.
    pose proof (Z.mod_pos_bound M1 P HP).
    pose proof (Z.mod_pos_bound M2 P HP).
    destruct (P <? 2 * (M1 mod P)) eqn:E1, (P <? 2 * (M2 mod P)) eqn:E2;
    destruct (P =? 2 * (M1 mod P)) eqn:E3, (P =? 2 * (M2 mod P)) eqn:E4;
    destruct (Z.odd (M2 / P)); cbn [orb andb]; lia.
Qed.

Lemma rne_exact P q : 0 < P -> rne P (q * P) = q.
Proof.
  intros HP. unfold rne. cbv zeta.
  rewrite Z.div_mul, Z.mod_mul by lia.
  replace (P <? 2 * 0) with false by lia.
  replace (P =? 2 * 0) with false by lia. reflexivity.
Qed.

Lemma rne_scale P S M : 0 < P -> 0 < S -> rne (P * S) (M * S) = rne P M.
Proof.
  intros HP HS. unfold rne. cbv zeta.
  rewrite Z.div_mul_cancel_r, Zmult_mod_distr_r by lia.
  replace (P * S <? 2 * (M mod P * S)) with (P <? 2 * (M mod P)) by nia.
  replace (P * S =? 2 * (M mod P * S)) with (P =? 2 * (M mod P)) by nia.
  reflexivity.
Qed.

Lemma emin_val : emin = -1074.
Proof. reflexivity. Qed.

Lemma cexp_nonneg K X : 1074 <= K -> 0 <= cexp K X.
Proof. unfold cexp. rewrite emin_val. lia. Qed.

Lemma cexp_mono K X Y : 0 <= X <= Y -> cexp K X <= cexp K Y.
Proof.
  intros H. unfold cexp.
  pose proof (Z.log2_le_mono X Y ltac:(lia)). lia.
Qed.

Lemma Rnd_mono K X Y : 1074 <= K -> 0 <= X <= Y -> Rnd K X <= Rnd K Y.
Proof.
  intros HK H. unfold Rnd.
  pose proof (cexp_mono K X Y H) as Hc.
  pose proof (cexp_nonneg K X HK) as H1.
  pose proof (cexp_nonneg K Y HK) as H2.
  destruct (Z.eq_dec (cexp K X) (cexp K Y)) as [E|E].
  - rewrite E. apply Z.mul_le_mono_nonneg_r; [apply Z.pow_nonneg; lia|].
    apply rne_mono; [apply Z.pow_pos_nonneg; lia|lia].
  - assert (Hlt : cexp K X < cexp K Y) by lia.
    set (C1 := cexp K X) in *. set (C2 := cexp K Y) in *.
    assert (HY : C2 = Z.log2 Y + 1 - prec).
    { unfold C2, C1, cexp in *. lia. }
    assert (HYpos : 0 < Y).
    { destruct (Z.eq_dec Y 0) as [->|]; [|lia].
      assert (X = 0) by lia. subst X. lia. }
    assert (Hp : prec = 53) by reflexivity.
    set (B := 2 ^ (C2 + prec - 1)).
    assert (HBY : B <= Y).
    { unfold B. replace (C2 + prec - 1) with (Z.log2 Y) by lia.
      apply Z.log2_spec. lia. }
    assert (HXB : X <= B).
    { destruct (Z.eq_dec X 0) as [->|]; [apply Z.pow_nonneg; lia|].
      pose proof (Z.log2_spec X ltac:(lia)) as [_ Hs].
      assert (Z.log2 X + 1 <= C1 + prec) by (unfold C1, cexp; lia).
      assert (2 ^ Z.succ (Z.log2 X) <= B).
      { unfold B. apply Z.pow_le_mono_r; lia. }
      lia. }
    assert (HB1 : B = 2 ^ (C2 + prec - 1 - C1) * 2 ^ C1).
    { unfold B. rewrite <- Z.pow_add_r by lia. f_equal. lia. }
    assert (HB2 : B = 2 ^ (prec - 1) * 2 ^ C2).
    { unfold B. rewrite <- Z.pow_add_r by lia. f_equal. lia. }
    assert (P1 : 0 < 2 ^ C1) by (apply Z.pow_pos_nonneg; lia).
    assert (P2 : 0 < 2 ^ C2) by (apply Z.pow_pos_nonneg; lia).
    apply Z.le_trans with B.
    + pose proof (rne_mono (2 ^ C1) X B P1 HXB) as Hm.
      rewrite HB1 in Hm. rewrite rne_exact in Hm by exact P1.
      rewrite HB1. apply Z.mul_le_mono_nonneg_r; lia.
    + pose proof (rne_mono (2 ^ C2) B Y P2 HBY) as Hm.
      rewrite HB2 in Hm. rewrite rne_exact in Hm by exact P2.
      rewrite HB2 at 1. apply Z.mul_le_mono_nonneg_r; lia.
Qed.

Lemma Rnd_exact K X Y : 1074 <= K -> X = Y * 2 ^ cexp K X -> Rnd K X = X.
Proof.
  intros HK H. unfold Rnd. rewrite H at 2.
  rewrite rne_exact by (apply Z.pow_pos_nonneg; [lia|now apply cexp_nonneg]).
  now rewrite <- H.
Qed.

Lemma Rnd_nonneg K X : 1074 <= K -> 0 <= X -> 0 <= Rnd K X.
Proof.
  intros HK H. unfold Rnd.
  pose proof (cexp_nonneg K X HK).
  assert (0 < 2 ^ cexp K X) by (apply Z.pow_pos_nonneg; lia).
  pose proof (rne_bounds (2 ^ cexp K X) X ltac:(lia)).
  assert (0 <= X / 2 ^ cexp K X) by (apply Z.div_pos; lia).
  nia.
Qed.

(** ** Shifting a mantissa to the right *)

Lemma shr_inv_start M : 0 <= M -> shr_inv M 1 (shr_record_of_loc M loc_Exact).
Proof. intros H. exists 0. cbn. repeat split; lia. Qed.

Lemma shr_1_inv M P rec :
  0 < P -> shr_inv M P rec -> shr_inv M (2 * P) (shr_1 rec).
Proof.
  intros HP (R & HR & HM & Hm & Hr & Hs).
  destruct rec as [m r s]. cbn [shr_m shr_r shr_s] in *.
  assert (Hrs : r || s = negb (R =? 0)).
  { subst r s. destruct (P <=? 2 * R) eqn:E1, (R =? 0) eqn:E2,
      (2 * R =? P) eqn:E3; cbn; lia. }
  destruct m as [|[p|p|]|p]; cbn [shr_1 shr_m shr_r shr_s]; try lia.
  - exists R. rewrite Hrs. cbn [shr_m shr_r shr_s]. repeat split; try lia.
    all: destruct (R =? 0) eqn:E2, (2 * R =? 2 * P) eqn:E3; cbn; lia.
  - exists (R + P). rewrite Hrs. cbn [shr_m shr_r shr_s].
    repeat split; try lia.
    all: destruct (R =? 0) eqn:E2, (R + P =? 0) eqn:E4,
      (2 * (R + P) =? 2 * P) eqn:E3; cbn; lia.
  - exists R. rewrite Hrs. cbn [shr_m shr_r shr_s]. repeat split; try lia.
    all: destruct (R =? 0) eqn:E2, (2 * R =? 2 * P) eqn:E3; cbn; lia.
  - exists (R + P). rewrite Hrs. cbn [shr_m shr_r shr_s].
    repeat split; try lia.
    all: destruct (R =? 0) eqn:E2, (R + P =? 0) eqn:E4,
      (2 * (R + P) =? 2 * P) eqn:E3; cbn; lia.
Qed.

Lemma iter_shr_inv M p : forall P rec,
  0 < P -> shr_inv M P rec ->
  shr_inv M (2 ^ Zpos p * P) (SpecFloat.iter_pos shr_1 p rec).
Proof.
  induction p as [p IH|p IH|]; intros P rec HP H; cbn [SpecFloat.iter_pos].
  - assert (HA : 0 < 2 ^ Zpos p) by (apply Z.pow_pos_nonneg; lia).
    replace (2 ^ Zpos p~1 * P) with (2 ^ Zpos p * (2 ^ Zpos p * (2 * P))).
    + apply IH; [nia|]. apply IH; [lia|]. now apply shr_1_inv.
    + replace (Zpos p~1) with (Zpos p + Zpos p + 1) by lia.
      rewrite !Z.pow_add_r by lia. change (2 ^ 1) with 2. ring.
  - assert (HA : 0 < 2 ^ Zpos p) by (apply Z.pow_pos_nonneg; lia).
    replace (2 ^ Zpos p~0 * P) with (2 ^ Zpos p * (2 ^ Zpos p * P)).
    + apply IH; [nia|]. now apply IH.
    + replace (Zpos p~0) with (Zpos p + Zpos p) by lia.
      rewrite !Z.pow_add_r by lia. ring.
  - change (2 ^ 1) with 2. now apply shr_1_inv.
Qed.

Lemma shr_inv_round M P rec :
  0 < P -> shr_inv M P rec ->
  round_nearest_even (shr_m rec) (loc_of_shr_record rec) = rne P M.
Proof.
  intros HP (R & HR & HM & Hm & Hr & Hs).
  assert (Hq : M / P = shr_m rec)
    by (symmetry; apply (Z.div_unique_pos M P (shr_m rec) R); lia).
  assert (HR' : M mod P = R)
    by (symmetry; apply (Z.mod_unique_pos M P (shr_m rec) R); lia).
  unfold rne. cbv zeta. rewrite Hq, HR'.
  destruct rec as [m r s]. cbn [shr_m shr_r shr_s] in *.
  rewrite <- Z.negb_even.
  destruct (P <=? 2 * R) eqn:E1, (R =? 0) eqn:E2, (2 * R =? P) eqn:E3,
    (P <? 2 * R) eqn:E4, (P =? 2 * R) eqn:E5; subst r s;
    cbn; try lia; try reflexivity; now destruct (Z.even m).
Qed.

(** Shifting right by [n] bits and rounding. *)
Lemma shr_round M e n :
  0 <= M -> 0 <= n ->
  snd (shr (shr_record_of_loc M loc_Exact) e n) = e + n /\
  round_nearest_even
    (shr_m (fst (shr (shr_record_of_loc M loc_Exact) e n)))
    (loc_of_shr_record (fst (shr (shr_record_of_loc M loc_Exact) e n)))
  = rne (2 ^ n) M.
Proof.
  intros HM Hn. destruct n as [|p|p]; [| |lia].
  - cbn [shr fst snd]. split; [lia|].
    rewrite (shr_inv_round M 1); [reflexivity|lia|now apply shr_inv_start].
  - cbn [shr fst snd]. split; [reflexivity|].
    apply shr_inv_round; [apply Z.pow_pos_nonneg; lia|].
    replace (2 ^ Zpos p) with (2 ^ Zpos p * 1) by lia.
    apply iter_shr_inv; [lia|now apply shr_inv_start].
Qed.

Lemma digits2_pos_size m : digits2_pos m = Pos.size m.
Proof. induction m; cbn; now rewrite ?IHm. Qed.

Lemma Zdigits2_log2 m : Zdigits2 (Zpos m) = Z.log2 (Zpos m) + 1.
Proof.
  cbn [Zdigits2]. rewrite digits2_pos_size.
  destruct m; cbn [Pos.size Z.log2]; lia.
Qed.

(** ** The rounding at the core of the operations *)

Lemma fexp_val x : fexp prec emax x = Z.max (x - 53) (-1074).
Proof. reflexivity. Qed.

Lemma shr_nonpos rec e n : n <= 0 -> shr rec e n = (rec, e).
Proof. intros H. destruct n; [reflexivity|lia|reflexivity]. Qed.

Lemma bounded_spec m e :
  bounded prec emax m e = true <->
  Z.max (Z.log2 (Zpos m) + 1 + e - 53) (-1074) = e /\ e <= 971.
Proof.
  unfold bounded, canonical_mantissa.
  change (Zpos (digits2_pos m)) with (Zdigits2 (Zpos m)).
  rewrite Zdigits2_log2, fexp_val, andb_true_iff, Z.eqb_eq, Z.leb_le.
  change (emax - prec) with 971. reflexivity.
Qed.

Lemma finish_round q' e1 :
  0 <= q' <= 2 ^ 53 -> -1074 <= e1 <= 970 ->
  (e1 = -1074 \/ 2 ^ 52 <= q') ->
  let f :=
    match shr_m (fst (shr_fexp prec emax q' e1 loc_Exact)) with
    | Z0 => S754_zero false
    | Zpos m =>
        if snd (shr_fexp prec emax q' e1 loc_Exact) <=? emax - prec
        then S754_finite false m (snd (shr_fexp prec emax q' e1 loc_Exact))
        else S754_infinity false
    | _ => S754_nan
    end in
  canon_nonneg f = true /\
  forall K, 0 <= e1 + K -> SFint K f = q' * 2 ^ (e1 + K).
Proof.
  intros Hq He Hn. cbv zeta.
  destruct (Z.eq_dec q' 0) as [->|Hq0].
  { unfold shr_fexp. cbn [Zdigits2]. rewrite fexp_val.
    rewrite shr_nonpos by lia. cbn. split; [reflexivity|]. intros; lia. }
  destruct (Z.eq_dec q' (2 ^ 53)) as [->|Hq53].
  { unfold shr_fexp. change (Zdigits2 (2 ^ 53)) with 54. rewrite fexp_val.
    replace (Z.max (54 + e1 - 53) (-1074) - e1) with 1 by lia.
    cbn [shr shr_record_of_loc SpecFloat.iter_pos fst snd].
    change (2 ^ 53) with 9007199254740992.
    cbn [shr_1 shr_m orb].
    change (emax - prec) with 971.
    replace (e1 + 1 <=? 971) with true by lia.
    split.
    - cbn [canon_nonneg]. apply bounded_spec.
      change (Z.log2 4503599627370496) with 52. lia.
    - intros K HK. cbn [SFint].
      replace (e1 + 1 + K) with (1 + (e1 + K)) by lia.
      rewrite Z.pow_add_r by lia. change (2 ^ 1) with 2. lia. }
  assert (Hpos : 0 < q') by lia.
  assert (Hlog : Z.log2 q' < 53) by (apply Z.log2_lt_pow2; lia).
  pose proof (Z.log2_nonneg q') as Hlog0.
  destruct q' as [|p|p]; try lia.
  unfold shr_fexp. rewrite Zdigits2_log2, fexp_val.
  rewrite shr_nonpos by lia.
  cbn [shr_record_of_loc fst snd shr_m].
  change (emax - prec) with 971.
  replace (e1 <=? 971) with true by lia.
  split; [|intros; reflexivity].
  cbn [canon_nonneg]. apply bounded_spec.
  destruct Hn as [->|Hn]; [lia|].
  assert (52 <= Z.log2 (Zpos p)) by (apply Z.log2_le_pow2; lia).
  lia.
Qed.

Lemma log2_scaled m a : 0 < m -> 0 <= a -> Z.log2 (m * 2 ^ a) = Z.log2 m + a.
Proof. intros Hm Ha. rewrite Z.log2_mul_pow2 by lia. lia. Qed.

(** The rounding at the core of every operation, on a positive mantissa
    that needs no alignment to the left and is far from overflow. *)
Lemma round_aux_spec K m e :
  1074 <= K -> 0 <= e + K ->
  e <= fexp prec emax (Zdigits2 (Zpos m) + e) ->
  Zdigits2 (Zpos m) + e <= 1023 ->
  canon_nonneg (binary_round_aux prec emax false (Zpos m) e loc_Exact) = true /\
  SFint K (binary_round_aux prec emax false (Zpos m) e loc_Exact)
  = Rnd K (Zpos m * 2 ^ (e + K)).
Proof.
  intros HK HeK Hn Hov.
  rewrite Zdigits2_log2, fexp_val in Hn. rewrite Zdigits2_log2 in Hov.
  set (d := Z.log2 (Zpos m) + 1) in *.
  set (e1 := Z.max (d + e - 53) (-1074)) in *.
  pose proof (Z.log2_spec (Zpos m) ltac:(lia)) as [Hlo Hhi].
  fold (Z.succ (Z.log2 (Zpos m))) in d.
  change (Z.succ (Z.log2 (Zpos m))) with d in Hhi.
  assert (Hn0 : 0 <= e1 - e) by lia.
  assert (HP : 0 < 2 ^ (e1 - e)) by (apply Z.pow_pos_nonneg; lia).
  set (q' := rne (2 ^ (e1 - e)) (Zpos m)).
  assert (Hq' : 0 <= q' <= 2 ^ 53).
  { pose proof (rne_bounds (2 ^ (e1 - e)) (Zpos m) HP) as Hb. fold q' in Hb.
    assert (0 <= Zpos m / 2 ^ (e1 - e)) by (apply Z.div_pos; lia).
    assert (Zpos m / 2 ^ (e1 - e) < 2 ^ 53).
    { apply Z.div_lt_upper_bound; [lia|].
      rewrite <- Z.pow_add_r by lia.
      apply Z.lt_le_trans with (2 ^ d); [exact Hhi|].
      apply Z.pow_le_mono_r; lia. }
    lia. }
  assert (Hnorm : e1 = -1074 \/ 2 ^ 52 <= q').
  { destruct (Z.eq_dec e1 (-1074)) as [E|E]; [now left|right].
    assert (E1 : e1 - e = d - 53) by lia.
    pose proof (rne_bounds (2 ^ (e1 - e)) (Zpos m) HP) as Hb. fold q' in Hb.
    assert (2 ^ 52 <= Zpos m / 2 ^ (e1 - e)); [|lia].
    apply Z.div_le_lower_bound; [lia|].
    rewrite <- Z.pow_add_r by lia.
    replace (e1 - e + 52) with (Z.log2 (Zpos m)) by lia. exact Hlo. }
  assert (He1 : -1074 <= e1 <= 970) by lia.
  assert (Hvalue : Rnd K (Zpos m * 2 ^ (e + K)) = q' * 2 ^ (e1 + K)).
  { unfold Rnd.
    assert (Hc : cexp K (Zpos m * 2 ^ (e + K)) = e1 + K).
    { unfold cexp. rewrite log2_scaled by lia. rewrite emin_val.
      change prec with 53. lia. }
    rewrite Hc. f_equal.
    replace (e1 + K) with ((e1 - e) + (e + K)) by lia.
    rewrite Z.pow_add_r by lia.
    apply rne_scale; [exact HP|apply Z.pow_pos_nonneg; lia]. }
  rewrite Hvalue.
  unfold binary_round_aux.
  pose proof (shr_round (Zpos m) e (e1 - e) ltac:(lia) Hn0) as [Hs1 Hs2].
  assert (Hfe : shr_fexp prec emax (Zpos m) e loc_Exact
                = shr (shr_record_of_loc (Zpos m) loc_Exact) e (e1 - e)).
  { unfold shr_fexp. now rewrite Zdigits2_log2, fexp_val. }
  rewrite Hfe.
  destruct (shr (shr_record_of_loc (Zpos m) loc_Exact) e (e1 - e))
    as [mrs' e'] eqn:Eshr.
  cbn [fst snd] in Hs1, Hs2. rewrite Hs2. fold q'.
  replace e' with e1 by lia.
  pose proof (finish_round q' e1 Hq' He1 Hnorm) as Hfin. cbv zeta in Hfin.
  destruct (shr_fexp prec emax q' e1 loc_Exact) as [mrs'' e''].
  cbn [fst snd] in Hfin. destruct Hfin as [Hc Hv].
  split; [exact Hc|]. apply Hv. lia.
Qed.

(** ** Products, sums and comparisons of non-negative numbers *)

Lemma canon_finite m e :
  canon_nonneg (S754_finite false m e) = true ->
  -1074 <= e <= 971 /\ 0 <= Z.log2 (Zpos m) <= 52 /\
  (e = -1074 \/ Z.log2 (Zpos m) = 52).
Proof.
  cbn [canon_nonneg]. rewrite bounded_spec.
  pose proof (Z.log2_nonneg (Zpos m)). lia.
Qed.

Lemma Rnd_zero K : 1074 <= K -> Rnd K 0 = 0.
Proof. intros HK. apply (Rnd_exact K 0 0 HK). lia. Qed.

Lemma SFint_shift K f :
  1074 <= K -> canon_nonneg f = true ->
  SFint K f = ival f * 2 ^ (K - 1074).
Proof.
  intros HK Hc. destruct f as [s|s| |[|] m e]; try discriminate Hc;
    try reflexivity.
  apply canon_finite in Hc. unfold ival. cbn [SFint].
  replace (e + K) with (e + 1074 + (K - 1074)) by lia.
  rewrite (Z.pow_add_r 2 (e + 1074) (K - 1074)) by lia. ring.
Qed.

Lemma ival_nonneg f : 0 <= ival f.
Proof.
  destruct f as [s|s| |[|] m e]; unfold ival; cbn [SFint]; lia.
Qed.

Lemma ival_finite_pos m e :
  canon_nonneg (S754_finite false m e) = true ->
  0 < ival (S754_finite false m e).
Proof.
  intros Hc. apply canon_finite in Hc. unfold ival; cbn [SFint].
  assert (0 < 2 ^ (e + 1074)) by (apply Z.pow_pos_nonneg; lia). lia.
Qed.

(** A canonical number is its own rounding. *)
Lemma Rnd_canon f : canon_nonneg f = true -> Rnd 1074 (ival f) = ival f.
Proof.
  intros Hc. destruct f as [s|s| |[|] m e]; try discriminate Hc;
    try (apply Rnd_zero; lia).
  apply canon_finite in Hc. unfold ival; cbn [SFint].
  apply (Rnd_exact 1074 _ (Zpos m)); [lia|].
  f_equal. f_equal. unfold cexp. rewrite log2_scaled by lia.
  rewrite emin_val. change prec with 53. lia.
Qed.

(** *** Multiplication *)

Lemma mul_ival a b :
  canon_nonneg a = true -> canon_nonneg b = true ->
  ival a * ival b < 2 ^ 3171 ->
  canon_nonneg (SFmul prec emax a b) = true /\
  ival (SFmul prec emax a b) * 2 ^ 1074 = Rnd 2148 (ival a * ival b).
Proof.
  intros Ha Hb Hlt.
  assert (Hzero : forall s, canon_nonneg (S754_zero s) = true /\
            ival (S754_zero s) * 2 ^ 1074 = Rnd 2148 0)
    by (intros s; split; [reflexivity|now rewrite Rnd_zero]).
  destruct a as [sa|sa| |[|] ma ea]; try discriminate Ha;
    destruct b as [sb|sb| |[|] mb eb]; try discriminate Hb;
    cbn [SFmul].
  - apply Hzero.
  - apply Hzero.
  - replace (ival (S754_finite false ma ea) * ival (S754_zero sb)) with 0
      by (unfold ival; cbn [SFint]; lia).
    apply Hzero.
  - cbn [xorb].
    pose proof (canon_finite _ _ Ha) as (Hea & Hla & Hna).
    pose proof (canon_finite _ _ Hb) as (Heb & Hlb & Hnb).
    assert (Hprod : ival (S754_finite false ma ea)
                    * ival (S754_finite false mb eb)
                    = Zpos (ma * mb) * 2 ^ (ea + eb + 2148)).
    { unfold ival; cbn [SFint].
      replace (ea + eb + 2148) with ((ea + 1074) + (eb + 1074)) by lia.
      rewrite (Z.pow_add_r 2 (ea + 1074) (eb + 1074)) by lia.
      rewrite Pos2Z.inj_mul. ring. }
    rewrite Hprod in Hlt |- *.
    pose proof (Z.log2_mul_below (Zpos ma) (Zpos mb) ltac:(lia) ltac:(lia))
      as Hlog.
    rewrite <- Pos2Z.inj_mul in Hlog.
    assert (Hov : Z.log2 (Zpos (ma * mb)) + (ea + eb + 2148) < 3171).
    { rewrite <- log2_scaled by lia. apply Z.log2_lt_pow2; [|exact Hlt].
      assert (0 < 2 ^ (ea + eb + 2148)) by (apply Z.pow_pos_nonneg; lia).
      lia. }
    destruct (round_aux_spec 2148 (ma * mb) (ea + eb)) as [Hc Hv].
    + lia.
    + lia.
    + rewrite Zdigits2_log2, fexp_val. lia.
    + rewrite Zdigits2_log2. lia.
    + split; [exact Hc|]. rewrite <- Hv.
      rewrite (SFint_shift 2148) by (try exact Hc; lia). reflexivity.
Qed.

(** *** Addition *)

Lemma iter_xO m d : Zpos (Pos.iter xO m d) = Zpos m * 2 ^ Zpos d.
Proof.
  rewrite <- Z.shiftl_mul_pow2 by lia. cbn [Z.shiftl].
  apply Pos.iter_swap_gen. intros a. reflexivity.
Qed.

Lemma shl_align_spec m e e' :
  snd (shl_align m e e') = Z.min e e' /\
  Zpos (fst (shl_align m e e')) = Zpos m * 2 ^ (e - Z.min e e').
Proof.
  unfold shl_align. destruct (e' - e) as [|d|d] eqn:E; cbn [fst snd].
  - replace (Z.min e e') with e by lia. rewrite Z.sub_diag. split; lia.
  - replace (Z.min e e') with e by lia. rewrite Z.sub_diag. split; lia.
  - replace (Z.min e e') with e' by lia. split; [reflexivity|].
    rewrite iter_xO. f_equal. f_equal. lia.
Qed.

Lemma round_spec K m e :
  1074 <= K -> -1074 <= e ->
  Zdigits2 (Zpos m) + e <= 1023 ->
  canon_nonneg (binary_round prec emax false m e) = true /\
  SFint K (binary_round prec emax false m e) = Rnd K (Zpos m * 2 ^ (e + K)).
Proof.
  intros HK He Hov. unfold binary_round.
  change (Zpos (digits2_pos m)) with (Zdigits2 (Zpos m)).
  rewrite Zdigits2_log2 in Hov |- *. rewrite fexp_val.
  set (t := Z.max (Z.log2 (Zpos m) + 1 + e - 53) (-1074)).
  pose proof (shl_align_spec m e t) as [H1 H2].
  destruct (shl_align m e t) as [mz ez]. cbn [fst snd] in H1, H2.
  pose proof (Z.log2_nonneg (Zpos m)) as Hl.
  assert (Hlog : Z.log2 (Zpos mz) + ez = Z.log2 (Zpos m) + e).
  { rewrite H2, log2_scaled by lia. lia. }
  assert (Hval : Zpos mz * 2 ^ (ez + K) = Zpos m * 2 ^ (e + K)).
  { rewrite H2. replace (e + K) with ((e - Z.min e t) + (ez + K)) by lia.
    rewrite (Z.pow_add_r 2 (e - Z.min e t) (ez + K)) by lia. ring. }
  rewrite <- Hval.
  apply round_aux_spec; try lia.
  - rewrite Zdigits2_log2, fexp_val. lia.
  - rewrite Zdigits2_log2. lia.
Qed.

Lemma add_ival a b :
  canon_nonneg a = true -> canon_nonneg b = true ->
  ival a + ival b < 2 ^ 2097 ->
  canon_nonneg (SFadd prec emax a b) = true /\
  ival (SFadd prec emax a b) = Rnd 1074 (ival a + ival b).
Proof.
  intros Ha Hb Hlt.
  destruct a as [sa|sa| |[|] ma ea]; try discriminate Ha;
    destruct b as [sb|sb| |[|] mb eb]; try discriminate Hb;
    cbn [SFadd].
  - split; [now destruct sa, sb|].
    replace (ival (S754_zero sa) + ival (S754_zero sb)) with 0 by reflexivity.
    rewrite Rnd_zero by lia. now destruct sa, sb.
  - split; [exact Hb|].
    replace (ival (S754_zero sa) + ival (S754_finite false mb eb))
      with (ival (S754_finite false mb eb)) by (unfold ival; cbn [SFint]; lia).
    now rewrite Rnd_canon.
  - split; [exact Ha|].
    replace (ival (S754_finite false ma ea) + ival (S754_zero sb))
      with (ival (S754_finite false ma ea)) by (unfold ival; cbn [SFint]; lia).
    now rewrite Rnd_canon.
  - cbv zeta. cbn [cond_Zopp].
    pose proof (canon_finite _ _ Ha) as (Hea & Hla & Hna).
    pose proof (canon_finite _ _ Hb) as (Heb & Hlb & Hnb).
    set (ez := Z.min ea eb).
    pose proof (shl_align_spec ma ea ez) as [_ H1].
    pose proof (shl_align_spec mb eb ez) as [_ H2].
    replace (Z.min ea ez) with ez in H1 by lia.
    replace (Z.min eb ez) with ez in H2 by lia.
    set (pa := fst (shl_align ma ea ez)) in *.
    set (pb := fst (shl_align mb eb ez)) in *.
    change (Zpos pa + Zpos pb) with (Zpos (pa + pb)).
    cbn [binary_normalize].
    assert (Hsum : ival (S754_finite false ma ea)
                   + ival (S754_finite false mb eb)
                   = Zpos (pa + pb) * 2 ^ (ez + 1074)).
    { unfold ival; cbn [SFint]. rewrite Pos2Z.inj_add, H1, H2.
      replace (ea + 1074) with ((ea - ez) + (ez + 1074)) by lia.
      replace (eb + 1074) with ((eb - ez) + (ez + 1074)) by lia.
      rewrite (Z.pow_add_r 2 (ea - ez) (ez + 1074)) by lia.
      rewrite (Z.pow_add_r 2 (eb - ez) (ez + 1074)) by lia. ring. }
    rewrite Hsum in Hlt |- *.
    assert (Hov : Z.log2 (Zpos (pa + pb)) + (ez + 1074) < 2097).
    { rewrite <- log2_scaled by lia. apply Z.log2_lt_pow2; [|exact Hlt].
      assert (0 < 2 ^ (ez + 1074)) by (apply Z.pow_pos_nonneg; lia).
      lia. }
    apply (round_spec 1074); try lia.
    rewrite Zdigits2_log2. lia.
Qed.

(** *** Comparison *)

Lemma SFcompare_ival a b :
  canon_nonneg a = true -> canon_nonneg b = true ->
  SFcompare a b = Some (ival a ?= ival b).
Proof.
  intros Ha Hb.
  destruct a as [sa|sa| |[|] ma ea]; try discriminate Ha;
    destruct b as [sb|sb| |[|] mb eb]; try discriminate Hb;
    cbn [SFcompare].
  - reflexivity.
  - pose proof (ival_finite_pos _ _ Hb) as Hp.
    change (ival (S754_zero sa)) with 0.
    symmetry. f_equal. apply Z.compare_lt_iff. exact Hp.
  - pose proof (ival_finite_pos _ _ Ha) as Hp.
    change (ival (S754_zero sb)) with 0.
    symmetry. f_equal. apply Z.compare_gt_iff. exact Hp.
  - pose proof (canon_finite _ _ Ha) as (Hea & Hla & Hna).
    pose proof (canon_finite _ _ Hb) as (Heb & Hlb & Hnb).
    pose proof (Z.log2_spec (Zpos ma) ltac:(lia)) as [Ha1 Ha2].
    pose proof (Z.log2_spec (Zpos mb) ltac:(lia)) as [Hb1 Hb2].
    assert (Ha3 : Zpos ma < 2 ^ 53).
    { apply Z.lt_le_trans with (2 ^ Z.succ (Z.log2 (Zpos ma)));
        [exact Ha2|apply Z.pow_le_mono_r; lia]. }
    assert (Hb3 : Zpos mb < 2 ^ 53).
    { apply Z.lt_le_trans with (2 ^ Z.succ (Z.log2 (Zpos mb)));
        [exact Hb2|apply Z.pow_le_mono_r; lia]. }
    f_equal. symmetry. unfold ival; cbn [SFint].
    destruct (Z.compare_spec ea eb) as [E|E|E].
    + subst eb. rewrite Pos.compare_cont_spec. cbn [Pos.switch_Eq].
      assert (0 < 2 ^ (ea + 1074)) by (apply Z.pow_pos_nonneg; lia).
      destruct (Pos.compare_spec ma mb) as [E|E|E];
        cbn [Pos.switch_Eq];
        [apply Z.compare_eq_iff; now subst mb
        |apply Z.compare_lt_iff; nia|apply Z.compare_gt_iff; nia].
    + apply Z.compare_lt_iff.
      assert (Hmb : 2 ^ 52 <= Zpos mb) by (destruct Hnb as [?|E2]; [lia|now rewrite <- E2]).
      assert (2 ^ (ea + 1074 + 1) <= 2 ^ (eb + 1074))
        by (apply Z.pow_le_mono_r; lia).
      rewrite Z.pow_add_r in * by lia. change (2 ^ 1) with 2 in *.
      assert (0 < 2 ^ (ea + 1074)) by (apply Z.pow_pos_nonneg; lia).
      change (2 ^ 53) with (2 * 2 ^ 52) in Ha3.
      nia.
    + apply Z.compare_gt_iff.
      assert (Hma : 2 ^ 52 <= Zpos ma) by (destruct Hna as [?|E2]; [lia|now rewrite <- E2]).
      assert (2 ^ (eb + 1074 + 1) <= 2 ^ (ea + 1074))
        by (apply Z.pow_le_mono_r; lia).
      rewrite Z.pow_add_r in * by lia. change (2 ^ 1) with 2 in *.
      assert (0 < 2 ^ (eb + 1074)) by (apply Z.pow_pos_nonneg; lia).
      change (2 ^ 53) with (2 * 2 ^ 52) in Hb3.
      nia.
Qed.

Lemma SFleb_ival a b :
  canon_nonneg a = true -> canon_nonneg b = true ->
  SFleb a b = (ival a <=? ival b).
Proof.
  intros Ha Hb. unfold SFleb. rewrite SFcompare_ival by assumption.
  unfold Z.leb. now destruct (ival a ?= ival b).
Qed.

Lemma SFltb_ival a b :
  canon_nonneg a = true -> canon_nonneg b = true ->
  SFltb a b = (ival a <? ival b).
Proof.
  intros Ha Hb. unfold SFltb. rewrite SFcompare_ival by assumption.
  unfold Z.ltb. now destruct (ival a ?= ival b).
Qed.

Lemma ival_inj a b :
  canon_nonneg a = true -> canon_nonneg b = true ->
  ival a = ival b -> SFcompare a b = Some Eq.
Proof.
  intros Ha Hb E. rewrite SFcompare_ival by assumption.
  now rewrite E, Z.compare_refl.
Qed.

(** ** One step of the decay recurrence *)

Lemma Prim2SF_zero : Prim2SF 0 = S754_zero false.
Proof. reflexivity. Qed.

Lemma Prim2SF_one : Prim2SF 1 = S754_finite false 4503599627370496 (-52).
Proof. reflexivity. Qed.

Lemma Prim2SF_2p53 :
  Prim2SF 9007199254740992 = S754_finite false 4503599627370496 1.
Proof. reflexivity. Qed.

Lemma nonneg_canon (x : double) :
  (0 <=? x)%float = true ->
  canon_nonneg (Prim2SF x) = true \/ Prim2SF x = S754_infinity false.
Proof.
  rewrite leb_spec, Prim2SF_zero. pose proof (Prim2SF_valid x) as Hv.
  destruct (Prim2SF x) as [s|[|]| |[|] m e]; cbn; intros H;
    try discriminate H; auto.
Qed.

Lemma leb_canon (x b : double) :
  (0 <=? x)%float = true -> (x <=? b)%float = true ->
  canon_nonneg (Prim2SF b) = true -> canon_nonneg (Prim2SF x) = true.
Proof.
  intros H0 Hb Hc. destruct (nonneg_canon x H0) as [H|H]; [exact H|].
  rewrite leb_spec, H in Hb.
  destruct (Prim2SF b) as [s|[|]| |[|] m e]; discriminate.
Qed.

Lemma ltb_canon (x b : double) :
  (0 <=? x)%float = true -> (x <? b)%float = true ->
  canon_nonneg (Prim2SF b) = true -> canon_nonneg (Prim2SF x) = true.
Proof.
  intros H0 Hb Hc. destruct (nonneg_canon x H0) as [H|H]; [exact H|].
  rewrite ltb_spec, H in Hb.
  destruct (Prim2SF b) as [s|[|]| |[|] m e]; discriminate.
Qed.

Lemma leb_dval (x y : double) :
  canon_nonneg (Prim2SF x) = true -> canon_nonneg (Prim2SF y) = true ->
  (x <=? y)%float = (dval x <=? dval y).
Proof. intros Hx Hy. rewrite leb_spec. now apply SFleb_ival. Qed.

Lemma ltb_dval (x y : double) :
  canon_nonneg (Prim2SF x) = true -> canon_nonneg (Prim2SF y) = true ->
  (x <? y)%float = (dval x <? dval y).
Proof. intros Hx Hy. rewrite ltb_spec. now apply SFltb_ival. Qed.

Lemma dval_one : dval 1 = 2 ^ 1074.
Proof. reflexivity. Qed.

Lemma dval_2p53 : dval 9007199254740992 = 2 ^ 1127.
Proof. reflexivity. Qed.

Lemma score_range_spec x :
  score_range x = true <->
  canon_nonneg (Prim2SF x) = true /\ dval x <= 2 ^ 1127.
Proof.
  unfold score_range. rewrite andb_true_iff. split.
  - intros [H0 H1].
    assert (Hc : canon_nonneg (Prim2SF x) = true)
      by (apply (leb_canon x 9007199254740992 H0 H1); reflexivity).
    split; [exact Hc|].
    rewrite leb_dval in H1 by (try exact Hc; reflexivity).
    rewrite dval_2p53 in H1. now apply Z.leb_le.
  - intros [Hc H1]. split.
    + rewrite leb_dval by (try exact Hc; reflexivity).
      apply Z.leb_le, ival_nonneg.
    + rewrite leb_dval by (try exact Hc; reflexivity).
      rewrite dval_2p53. now apply Z.leb_le.
Qed.

Lemma decay_factor_spec alpha :
  decay_factor alpha = true ->
  canon_nonneg (Prim2SF alpha) = true /\ dval alpha < 2 ^ 1074.
Proof.
  unfold decay_factor. rewrite andb_true_iff. intros [H0 H1].
  assert (Hc : canon_nonneg (Prim2SF alpha) = true)
    by (apply (ltb_canon alpha 1 H0 H1); reflexivity).
  split; [exact Hc|].
  rewrite ltb_dval in H1 by (try exact Hc; reflexivity).
  rewrite dval_one in H1. now apply Z.ltb_lt.
Qed.

Lemma Rnd_pow2 K j : 1074 <= K -> K - 1074 <= j -> Rnd K (2 ^ j) = 2 ^ j.
Proof.
  intros HK Hj.
  assert (Hc : cexp K (2 ^ j) <= j).
  { unfold cexp. rewrite Z.log2_pow2 by lia. rewrite emin_val.
    change prec with 53. lia. }
  pose proof (cexp_nonneg K (2 ^ j) HK).
  apply (Rnd_exact K _ (2 ^ (j - cexp K (2 ^ j))) HK).
  rewrite <- Z.pow_add_r by lia. f_equal. lia.
Qed.

Lemma Rnd_top : Rnd 1074 (2 ^ 1127 + 2 ^ 1074) = 2 ^ 1127.
Proof. vm_compute. reflexivity. Qed.

(** One step of the recurrence, on values. *)
Lemma decay_step_spec alpha s :
  decay_factor alpha = true -> score_range s = true ->
  score_range (alpha * s + 1) = true /\
  2 ^ 1074 <= dval (alpha * s + 1) /\
  exists p, p * 2 ^ 1074 = Rnd 2148 (dval alpha * dval s) /\
            dval (alpha * s + 1) = Rnd 1074 (p + 2 ^ 1074).
Proof.
  intros Ha Hs.
  apply decay_factor_spec in Ha as [Hac Hav].
  apply score_range_spec in Hs as [Hsc Hsv].
  pose proof (ival_nonneg (Prim2SF alpha)) as Ha0.
  pose proof (ival_nonneg (Prim2SF s)) as Hs0.
  fold (dval alpha) in Ha0. fold (dval s) in Hs0.
  assert (P1 : 0 < 2 ^ 1074) by (apply Z.pow_pos_nonneg; lia).
  assert (Hprod : dval alpha * dval s <= 2 ^ 2201).
  { change (2 ^ 2201) with (2 ^ 1074 * 2 ^ 1127). nia. }
  destruct (mul_ival (Prim2SF alpha) (Prim2SF s) Hac Hsc) as [Hpc Hpv].
  { fold (dval alpha) (dval s).
    apply Z.le_lt_trans with (2 ^ 2201); [exact Hprod|].
    apply Z.pow_lt_mono_r; lia. }
  fold (dval alpha) (dval s) in Hpv.
  change (SFmul prec emax) with SF64mul in Hpc, Hpv.
  rewrite <- mul_spec in Hpc, Hpv.
  fold (dval (alpha * s)) in Hpv.
  assert (Hpb : dval (alpha * s) <= 2 ^ 1127).
  { pose proof (Rnd_mono 2148 _ _ ltac:(lia)
                  (conj (Z.mul_nonneg_nonneg _ _ Ha0 Hs0) Hprod)) as Hm.
    rewrite (Rnd_pow2 2148 2201) in Hm by lia.
    rewrite <- Hpv in Hm.
    change (2 ^ 2201) with (2 ^ 1127 * 2 ^ 1074) in Hm. nia. }
  pose proof (ival_nonneg (Prim2SF (alpha * s))) as Hp0.
  fold (dval (alpha * s)) in Hp0.
  destruct (add_ival (Prim2SF (alpha * s)) (Prim2SF 1) Hpc eq_refl)
    as [Hgc Hgv].
  { fold (dval (alpha * s)). change (ival (Prim2SF 1)) with (2 ^ 1074).
    apply Z.le_lt_trans with (2 ^ 1127 + 2 ^ 1074); [lia|].
    vm_compute. reflexivity. }
  fold (dval (alpha * s)) in Hgv. change (ival (Prim2SF 1)) with (2 ^ 1074) in Hgv.
  change (SFadd prec emax) with SF64add in Hgc, Hgv.
  rewrite <- add_spec in Hgc, Hgv.
  fold (dval (alpha * s + 1)) in Hgv.
  assert (Hhi : dval (alpha * s + 1) <= 2 ^ 1127).
  { rewrite Hgv, <- Rnd_top. apply Rnd_mono; lia. }
  assert (Hlo : 2 ^ 1074 <= dval (alpha * s + 1)).
  { rewrite Hgv, <- (Rnd_pow2 1074 1074) at 1 by lia.
    apply Rnd_mono; lia. }
  split; [apply score_range_spec; now split|].
  split; [exact Hlo|].
  exists (dval (alpha * s)). split; [exact Hpv|exact Hgv].
Qed.

Lemma decay_step_mono alpha s t :
  decay_factor alpha = true ->
  score_range s = true -> score_range t = true ->
  (s <=? t)%float = true ->
  (alpha * s + 1 <=? alpha * t + 1)%float = true.
Proof.
  intros Ha Hs Ht Hst.
  destruct (decay_step_spec alpha s Ha Hs) as (Hs' & _ & ps & Hps & Hgs).
  destruct (decay_step_spec alpha t Ha Ht) as (Ht' & _ & pt & Hpt & Hgt).
  apply score_range_spec in Hs' as [Hsc' _].
  apply score_range_spec in Ht' as [Htc' _].
  rewrite leb_dval by assumption. apply Z.leb_le.
  apply decay_factor_spec in Ha as [Hac Hav].
  apply score_range_spec in Hs as [Hsc Hsv].
  apply score_range_spec in Ht as [Htc Htv].
  rewrite leb_dval in Hst by assumption. apply Z.leb_le in Hst.
  pose proof (ival_nonneg (Prim2SF alpha)) as Ha0.
  pose proof (ival_nonneg (Prim2SF s)) as Hs0.
  fold (dval alpha) in Ha0. fold (dval s) in Hs0.
  assert (P1 : 0 < 2 ^ 1074) by (apply Z.pow_pos_nonneg; lia).
  assert (Hp : ps <= pt).
  { assert (Rnd 2148 (dval alpha * dval s) <= Rnd 2148 (dval alpha * dval t))
      by (apply Rnd_mono; [lia|nia]).
    nia. }
  assert (0 <= ps).
  { pose proof (Rnd_nonneg 2148 (dval alpha * dval s) ltac:(lia) ltac:(nia)).
    nia. }
  rewrite Hgs, Hgt. apply Rnd_mono; lia.
Qed.

Lemma iter_decay_range alpha n : forall s,
  decay_factor alpha = true -> score_range s = true ->
  score_range (iter_decay alpha n s) = true.
Proof.
  induction n as [|n IH]; intros s Ha Hs; [exact Hs|].
  cbn [iter_decay]. apply IH; [exact Ha|].
  now apply decay_step_spec.
Qed.

Lemma iter_decay_mono alpha n : forall s t,
  decay_factor alpha = true ->
  score_range s = true -> score_range t = true ->
  (s <=? t)%float = true ->
  (iter_decay alpha n s <=? iter_decay alpha n t)%float = true.
Proof.
  induction n as [|n IH]; intros s t Ha Hs Ht Hst; [exact Hst|].
  cbn [iter_decay]. apply IH; try assumption.
  - now apply decay_step_spec.
  - now apply decay_step_spec.
  - now apply decay_step_mono.
Qed.

Lemma score_range_zero : score_range 0 = true.
Proof. reflexivity. Qed.

(** The scores of consecutive hits never decrease. *)
Lemma iter_decay_nondecreasing alpha n :
  decay_factor alpha = true ->
  (iter_decay alpha n 0 <=? iter_decay alpha (S n) 0)%float = true.
Proof.
  intros Ha. cbn [iter_decay].
  destruct (decay_step_spec alpha 0 Ha score_range_zero) as [Hr _].
  apply iter_decay_mono; try assumption; [reflexivity|].
  unfold score_range in Hr. now apply andb_true_iff in Hr as [H _].
Qed.

Lemma leb_trans_range (x y z : double) :
  score_range x = true -> score_range y = true -> score_range z = true ->
  (x <=? y)%float = true -> (y <=? z)%float = true -> (x <=? z)%float = true.
Proof.
  intros Hx Hy Hz.
  apply score_range_spec in Hx as [Hx _].
  apply score_range_spec in Hy as [Hy _].
  apply score_range_spec in Hz as [Hz _].
  rewrite !leb_dval by assumption. rewrite !Z.leb_le. lia.
Qed.

(** The scores never exceed a number that the update does not raise. *)
Lemma iter_decay_bound alpha B n : forall s,
  decay_factor alpha = true -> score_range B = true ->
  (alpha * B + 1 <=? B)%float = true ->
  score_range s = true -> (s <=? B)%float = true ->
  (iter_decay alpha n s <=? B)%float = true.
Proof.
  induction n as [|n IH]; intros s Ha HB Hpost Hs HsB; [exact HsB|].
  cbn [iter_decay]. apply IH; try assumption.
  - now apply decay_step_spec.
  - apply (leb_trans_range _ (alpha * B + 1)); try assumption.
    + now apply decay_step_spec.
    + now apply decay_step_spec.
    + now apply decay_step_mono.
Qed.

(** ** Convergence and the limit *)

Lemma iter_decay_succ alpha n : forall s,
  iter_decay alpha (S n) s = (alpha * iter_decay alpha n s + 1)%float.
Proof.
  induction n as [|n IH]; intros s; [reflexivity|].
  change (iter_decay alpha (S (S n)) s)
    with (iter_decay alpha (S n) (alpha * s + 1)).
  rewrite IH. reflexivity.
Qed.

Lemma bounded_chain_stalls (v : nat -> Z) (B : Z) :
  (forall n, v n <= v (S n)) -> (forall n, v n <= B) ->
  exists N, v (S N) = v N.
Proof.
  intros Hmono Hb.
  assert (H : forall k n, B - v n <= Z.of_nat k -> exists N, v (S N) = v N).
  { induction k as [|k IH]; intros n Hn.
    - exists n. pose proof (Hmono n). pose proof (Hb (S n)). lia.
    - destruct (Z.eq_dec (v (S n)) (v n)) as [E|E]; [now exists n|].
      apply (IH (S n)). pose proof (Hmono n). lia. }
  apply (H (Z.to_nat (B - v O)) O). pose proof (Hb O). lia.
Qed.

Lemma ival_eq a b :
  canon_nonneg a = true -> canon_nonneg b = true ->
  0 < ival a -> ival a = ival b -> a = b.
Proof.
  intros Ha Hb Hpos E.
  pose proof (ival_inj a b Ha Hb E) as Hcmp.
  destruct a as [sa|sa| |[|] ma ea]; try discriminate Ha;
    try (cbn in Hpos; lia).
  destruct b as [sb|sb| |[|] mb eb]; try discriminate Hb;
    try (rewrite E in Hpos; cbn in Hpos; lia).
  cbn [SFcompare] in Hcmp.
  destruct (Z.compare_spec ea eb) as [Ee|Ee|Ee]; try discriminate Hcmp.
  injection Hcmp as Hm. rewrite Pos.compare_cont_spec in Hm.
  cbn [Pos.switch_Eq] in Hm.
  destruct (Pos.compare_spec ma mb) as [Em|Em|Em]; try discriminate Hm.
  now subst.
Qed.

Lemma dval_eq (x y : double) :
  canon_nonneg (Prim2SF x) = true -> canon_nonneg (Prim2SF y) = true ->
  0 < dval x -> dval x = dval y -> x = y.
Proof.
  intros Hx Hy Hpos E. apply Prim2SF_inj. now apply ival_eq.
Qed.

(** The scores of consecutive hits are eventually constant, at a score
    that the update leaves as it is. *)
Lemma iter_decay_stationary alpha :
  decay_factor alpha = true ->
  exists N,
    (forall n, (N <= n)%nat -> iter_decay alpha n 0 = iter_decay alpha N 0) /\
    (alpha * iter_decay alpha N 0 + 1)%float = iter_decay alpha N 0.
Proof.
  intros Ha.
  assert (Hr : forall n, score_range (iter_decay alpha n 0) = true)
    by (intros n; now apply iter_decay_range).
  assert (Hc : forall n, canon_nonneg (Prim2SF (iter_decay alpha n 0)) = true)
    by (intros n; now apply score_range_spec).
  destruct (bounded_chain_stalls
              (fun n => dval (iter_decay alpha (S n) 0)) (2 ^ 1127))
    as [N HN].
  - intros n. apply Z.leb_le. rewrite <- leb_dval by apply Hc.
    now apply iter_decay_nondecreasing.
  - intros n. now apply score_range_spec.
  - assert (Hfix : iter_decay alpha (S (S N)) 0 = iter_decay alpha (S N) 0).
    { apply dval_eq; try apply Hc; [|exact HN].
      rewrite HN, iter_decay_succ.
      assert (2 ^ 1074 <= dval (alpha * iter_decay alpha N 0 + 1))
        by now apply decay_step_spec.
      assert (0 < 2 ^ 1074) by (apply Z.pow_pos_nonneg; lia). lia. }
    exists (S N). split; [|now rewrite <- iter_decay_succ].
    intros n Hn.
    induction Hn as [|n Hn IH]; [reflexivity|].
    rewrite iter_decay_succ, IH, <- iter_decay_succ. exact Hfix.
Qed.

(** A number at least [1 / (1 - alpha)] is not raised by the update:
    [alpha * B + 1 <= B] in exact arithmetic implies the same in double
    arithmetic. *)
Lemma limit_post_fixed alpha B :
  decay_factor alpha = true -> score_range B = true ->
  dval alpha * dval B + 2 ^ 2148 <= dval B * 2 ^ 1074 ->
  (alpha * B + 1 <=? B)%float = true.
Proof.
  intros Ha HB Hex.
  destruct (decay_step_spec alpha B Ha HB) as (HgR & _ & p & Hp & Hg).
  apply score_range_spec in HgR as [Hgc _].
  pose proof HB as HB'. apply score_range_spec in HB' as [HBc HBv].
  apply decay_factor_spec in Ha as [Hac Hav].
  rewrite leb_dval by assumption. apply Z.leb_le.
  pose proof (ival_nonneg (Prim2SF alpha)) as Ha0. fold (dval alpha) in Ha0.
  assert (P1 : 0 < 2 ^ 1074) by (apply Z.pow_pos_nonneg; lia).
  assert (HB1 : 2 ^ 1074 <= dval B).
  { change (2 ^ 2148) with (2 ^ 1074 * 2 ^ 1074) in Hex. nia. }
  (* B - 1 is a double *)
  assert (Hrep : Rnd 2148 ((dval B - 2 ^ 1074) * 2 ^ 1074)
                 = (dval B - 2 ^ 1074) * 2 ^ 1074).
  { destruct (Z.eq_dec (dval B) (2 ^ 1074)) as [E|E].
    { rewrite E, Z.sub_diag. apply Rnd_zero. lia. }
    unfold dval in *.
    destruct (Prim2SF B) as [s|s| |[|] m e]; try discriminate HBc;
      try (cbn in HB1; lia).
    pose proof (canon_finite _ _ HBc) as (He & Hl & Hn).
    unfold ival in *. cbn [SFint] in *.
    pose proof (Z.log2_spec (Zpos m) ltac:(lia)) as [Hm1 Hm2].
    assert (Hm3 : Zpos m < 2 ^ 53).
    { apply Z.lt_le_trans with (2 ^ Z.succ (Z.log2 (Zpos m)));
        [exact Hm2|apply Z.pow_le_mono_r; lia]. }
    assert (He1 : -52 <= e).
    { destruct (Z_lt_le_dec e (-52)) as [Hlt|]; [|lia]. exfalso.
      assert (2 ^ (e + 1074) <= 2 ^ 1021) by (apply Z.pow_le_mono_r; lia).
      change (2 ^ 1074) with (2 ^ 53 * 2 ^ 1021) in HB1.
      assert (0 < 2 ^ (e + 1074)) by (apply Z.pow_pos_nonneg; lia).
      nia. }
    assert (Hnorm : 2 ^ 52 <= Zpos m)
      by (destruct Hn as [?|E2]; [lia|now rewrite <- E2]).
    assert (He2 : e <= 1).
    { destruct (Z_lt_le_dec 1 e) as [Hlt|]; [|lia]. exfalso.
      assert (2 ^ 1076 <= 2 ^ (e + 1074)) by (apply Z.pow_le_mono_r; lia).
      change (2 ^ 1127) with (2 ^ 51 * 2 ^ 1076) in HBv.
      change (2 ^ 52) with (2 * 2 ^ 51) in Hnorm.
      assert (0 < 2 ^ 51) by (apply Z.pow_pos_nonneg; lia).
      nia. }
    destruct (Z.eq_dec e 1) as [->|He3].
    { assert (Zpos m = 2 ^ 52).
      { change (1 + 1074) with 1075 in HBv.
        change (2 ^ 1127) with (2 ^ 52 * 2 ^ 1075) in HBv.
        assert (0 < 2 ^ 1075) by (apply Z.pow_pos_nonneg; lia). nia. }
      replace (Zpos m) with (2 ^ 52). vm_compute. reflexivity. }
    set (a := e + 1074) in *.
    assert (Pa : 0 < 2 ^ a) by (apply Z.pow_pos_nonneg; lia).
    assert (Hone : 2 ^ 1074 = 2 ^ (- e) * 2 ^ a).
    { rewrite <- Z.pow_add_r by lia. f_equal. lia. }
    set (Y := Zpos m - 2 ^ (- e)).
    assert (HY : Zpos m * 2 ^ a - 2 ^ 1074 = Y * 2 ^ a)
      by (unfold Y; rewrite Hone; ring).
    rewrite HY.
    assert (HYpos : 0 < Y).
    { assert (0 < Y * 2 ^ a) by lia. nia. }
    assert (HYlt : Y < 2 ^ 53).
    { unfold Y. assert (0 < 2 ^ (- e)) by (apply Z.pow_pos_nonneg; lia).
      lia. }
    assert (HYlog : Z.log2 Y < 53) by (apply Z.log2_lt_pow2; lia).
    pose proof (Z.log2_nonneg Y) as HYlog0.
    set (X := Y * 2 ^ a * 2 ^ 1074).
    assert (HX : X = Y * 2 ^ (a + 1074)).
    { unfold X. rewrite Z.pow_add_r by lia. ring. }
    assert (Hc : cexp 2148 X <= a + 1074).
    { unfold cexp. rewrite HX, log2_scaled by lia. rewrite emin_val.
      change prec with 53. lia. }
    pose proof (cexp_nonneg 2148 X ltac:(lia)) as Hc0.
    apply (Rnd_exact 2148 X (Y * 2 ^ (a + 1074 - cexp 2148 X))); [lia|].
    rewrite HX at 1. rewrite <- Z.mul_assoc, <- Z.pow_add_r by lia.
    f_equal. f_equal. lia. }
  assert (Hple : p <= dval B - 2 ^ 1074).
  { assert (Hm : Rnd 2148 (dval alpha * dval B)
                 <= Rnd 2148 ((dval B - 2 ^ 1074) * 2 ^ 1074)).
    { apply Rnd_mono; [lia|]. split; [nia|].
      change (2 ^ 2148) with (2 ^ 1074 * 2 ^ 1074) in Hex. nia. }
    rewrite Hrep, <- Hp in Hm. nia. }
  assert (0 <= p).
  { pose proof (Rnd_nonneg 2148 (dval alpha * dval B) ltac:(lia)
                  ltac:(nia)). nia. }
  assert (HRB : Rnd 1074 (dval B) = dval B) by exact (Rnd_canon _ HBc).
  rewrite Hg, <- HRB. apply Rnd_mono; lia.
Qed.

Lemma limit_cross (a b : Z) (D : positive) :
  0 <= a < Zpos D ->
  (1 / (1 - (a # D)) <= b # D)%Q ->
  a * b + Zpos D * Zpos D <= b * Zpos D.
Proof.
  intros Ha H.
  assert (Hpos : (0 < 1 - (a # D))%Q).
  { unfold Qlt, Qminus, Qplus, Qopp. cbn [Qnum Qden Pos.mul]. lia. }
  apply (Qmult_le_compat_r _ _ (1 - (a # D))) in H; [|now apply Qlt_le_weak].
  assert (E : (1 / (1 - (a # D)) * (1 - (a # D)) == 1)%Q).
  { field. intros E0. rewrite E0 in Hpos. now apply Qlt_irrefl in Hpos. }
  rewrite E in H.
  unfold Qle, Qmult, Qminus, Qplus, Qopp in H. cbn [Qnum Qden Pos.mul] in H.
  rewrite !Pos2Z.inj_mul in H. nia.
Qed.

Lemma limit_post_fixed_Q alpha B :
  decay_factor alpha = true -> score_range B = true ->
  (1 / (1 - Q_of_double alpha) <= Q_of_double B)%Q ->
  (alpha * B + 1 <=? B)%float = true.
Proof.
  intros Ha HB H. apply limit_post_fixed; try assumption.
  pose proof (decay_factor_spec alpha Ha) as [_ Hlt].
  pose proof (ival_nonneg (Prim2SF alpha)) as H0. fold (dval alpha) in H0.
  unfold Q_of_double in H.
  assert (HD : Zpos (2 ^ 1074)%positive = 2 ^ 1074) by reflexivity.
  apply limit_cross in H; [|rewrite HD; lia].
  rewrite HD in H. change (2 ^ 2148) with (2 ^ 1074 * 2 ^ 1074). exact H.
Qed.

(** The scores never exceed a double that is at least the limit
    [1 / (1 - alpha)]. *)
Lemma limit_bound alpha (B : double) n :
  decay_factor alpha = true ->
  (1 / (1 - Q_of_double alpha) <= Q_of_double B)%Q ->
  (iter_decay alpha n 0 <=? B)%float = true.
Proof.
  intros Ha H.
  pose proof (decay_factor_spec alpha Ha) as [_ Hlt].
  pose proof (ival_nonneg (Prim2SF alpha)) as H0. fold (dval alpha) in H0.
  pose proof H as Hz. unfold Q_of_double in Hz.
  assert (HD : Zpos (2 ^ 1074)%positive = 2 ^ 1074) by reflexivity.
  apply limit_cross in Hz; [|rewrite HD; lia]. rewrite HD in Hz.
  assert (P1 : 0 < 2 ^ 1074) by (apply Z.pow_pos_nonneg; lia).
  assert (HB1 : 2 ^ 1074 <= dval B) by nia.
  assert (HBc : canon_nonneg (Prim2SF B) = true).
  { pose proof (Prim2SF_valid B) as Hv. unfold dval, ival in HB1.
    destruct (Prim2SF B) as [s|s| |[|] m e]; cbn [SFint] in HB1; try lia.
    exact Hv. }
  pose proof (iter_decay_range alpha n 0 Ha eq_refl) as Hr.
  destruct (Z_le_gt_dec (dval B) (2 ^ 1127)) as [Hle|Hgt].
  - assert (HB : score_range B = true) by (apply score_range_spec; now split).
    apply iter_decay_bound; try assumption; try reflexivity.
    + now apply limit_post_fixed_Q.
    + unfold score_range in HB. now apply andb_true_iff in HB as [HB _].
  - apply score_range_spec in Hr as [Hc Hv].
    rewrite leb_dval by assumption. apply Z.leb_le. lia.
Qed.

(** *** The rounding error *)

(** Rounding loses at most half a unit in the last place. *)
Lemma Rnd_lower K X :
  1074 <= K -> 0 <= X -> 2 * (X - Rnd K X) <= 2 ^ cexp K X.
Proof.
  intros HK HX. unfold Rnd, rne. cbv zeta.
  pose proof (cexp_nonneg K X HK) as Hc.
  set (P := 2 ^ cexp K X).
  assert (HP : 0 < P) by (apply Z.pow_pos_nonneg; lia).
  pose proof (Z.div_mod X P ltac:(lia)) as Hdm.
  pose proof (Z.mod_pos_bound X P HP) as Hm.
  destruct (P <? 2 * (X mod P)) eqn:E1; cbn [orb]; [nia|].
  destruct ((P =? 2 * (X mod P)) && Z.odd (X / P)); nia.
Qed.

(** The unit in the last place is 2^-52 times the number at most,
    unless the number is subnormal. *)
Lemma cexp_small K X :
  1074 <= K -> 0 < X ->
  2 ^ 52 * 2 ^ cexp K X <= X \/ cexp K X = K - 1074.
Proof.
  intros HK HX. unfold cexp. rewrite emin_val. change prec with 53.
  destruct (Z_le_gt_dec (-1074 + K) (Z.log2 X + 1 - 53)) as [H|H];
    [left|right; lia].
  replace (Z.max (Z.log2 X + 1 - 53) (-1074 + K)) with (Z.log2 X - 52)
    by lia.
  rewrite <- Z.pow_add_r by lia.
  replace (52 + (Z.log2 X - 52)) with (Z.log2 X) by lia.
  now apply Z.log2_spec.
Qed.

(** One step of the recurrence loses at most a relative 2^-52. *)
Lemma decay_step_lower alpha s :
  decay_factor alpha = true -> score_range s = true ->
  2 ^ 1074 <= dval s ->
  (2 ^ 53 - 1)
  * (2 ^ 53 * (dval alpha * dval s) - dval s * 2 ^ 1074
     + 2 ^ 53 * (2 ^ 1074 * 2 ^ 1074))
  <= 2 ^ 53 * 2 ^ 53 * (dval (alpha * s + 1) * 2 ^ 1074).
Proof.
  intros Ha Hs Hs1.
  destruct (decay_step_spec alpha s Ha Hs) as (_ & _ & p & Hp & Hg).
  apply decay_factor_spec in Ha as [_ Hav].
  pose proof (ival_nonneg (Prim2SF alpha)) as Ha0. fold (dval alpha) in Ha0.
  set (a := dval alpha) in *. set (S := dval s) in *.
  set (g := dval (alpha * s + 1)) in *.
  assert (HD52 : 2 ^ 52 <= 2 ^ 1074) by (apply Z.pow_le_mono_r; lia).
  assert (HU : 2 ^ 53 = 2 * 2 ^ 52) by reflexivity.
  assert (HV : 0 < 2 ^ 52) by (apply Z.pow_pos_nonneg; lia).
  assert (Hp0 : 0 <= p).
  { pose proof (Rnd_nonneg 2148 (a * S) ltac:(lia) ltac:(nia)). nia. }
  (* the product *)
  assert (H1 : 2 ^ 53 * (a * S - p * 2 ^ 1074) <= S * 2 ^ 1074).
  { destruct (Z.eq_dec (a * S) 0) as [E|E].
    { rewrite E in *. rewrite Rnd_zero in Hp by lia. nia. }
    pose proof (Rnd_lower 2148 (a * S) ltac:(lia) ltac:(nia)) as Hl.
    rewrite <- Hp in Hl.
    destruct (cexp_small 2148 (a * S) ltac:(lia) ltac:(nia)) as [Hc|Hc].
    - rewrite HU. set (c := 2 ^ cexp 2148 (a * S)) in *. nia.
    - rewrite Hc in Hl. change (2 ^ (2148 - 1074)) with (2 ^ 1074) in Hl.
      rewrite HU. nia. }
  (* the sum *)
  assert (H2 : (2 ^ 53 - 1) * (p + 2 ^ 1074) <= 2 ^ 53 * g).
  { pose proof (Rnd_lower 1074 (p + 2 ^ 1074) ltac:(lia) ltac:(lia)) as Hl.
    rewrite <- Hg in Hl.
    destruct (cexp_small 1074 (p + 2 ^ 1074) ltac:(lia) ltac:(lia))
      as [Hc|Hc].
    - rewrite HU. set (c := 2 ^ cexp 1074 (p + 2 ^ 1074)) in *. nia.
    - rewrite Hc in Hl. change (2 ^ (1074 - 1074)) with 1 in Hl. nia. }
  set (U := 2 ^ 53) in *. set (D := 2 ^ 1074) in *.
  assert (0 < U) by (unfold U; apply Z.pow_pos_nonneg; lia).
  assert (0 < D) by lia.
  clearbody U D a S g.
  assert (H3 : (U - 1) * (U * (a * S) - S * D + U * (D * D))
               <= (U - 1) * (U * (p * D) + U * (D * D))) by nia.
  assert (H4 : (U - 1) * (U * (p * D) + U * (D * D)) = U * D * ((U - 1) * (p + D)))
    by ring.
  assert (H5 : U * D * ((U - 1) * (p + D)) <= U * D * (U * g)) by nia.
  replace (U * U * (g * D)) with (U * D * (U * g)) by ring. lia.
Qed.

Lemma limit_cross_lower (a S : Z) (D U V : positive) :
  Zpos U = 2 * Zpos V -> 0 <= a < Zpos D -> 0 <= S ->
  (Zpos U - 1) * (Zpos D * Zpos D)
  <= S * (Zpos U * Zpos D - Zpos U * a + 2 * Zpos D) ->
  ((1 - (1 # U)) / (1 - (a # D) + (1 # V)) <= S # D)%Q.
Proof.
  intros HU Ha HS H.
  apply Qle_shift_div_r.
  - unfold Qlt, Qminus, Qplus, Qopp. cbn [Qnum Qden Pos.mul].
    rewrite ?Pos2Z.inj_mul. nia.
  - unfold Qle, Qmult, Qminus, Qplus, Qopp. cbn [Qnum Qden Pos.mul].
    rewrite ?Pos2Z.inj_mul.
    set (u := Zpos U) in *. set (d := Zpos D) in *. set (v := Zpos V) in *.
    assert (0 < d) by (unfold d; lia). assert (0 < v) by (unfold v; lia).
    clearbody u d v. subst u.
    match goal with
    | |- ?l <= ?r =>
        replace l with (v * ((2 * v - 1) * (d * d))) by ring;
        replace r with (v * (S * (2 * v * d - 2 * v * a + 2 * d))) by ring
    end.
    apply Z.mul_le_mono_nonneg_l; [lia|exact H].
Qed.

(** A score that the update leaves as it is lies close to the limit. *)
Lemma fixed_point_lower alpha s :
  decay_factor alpha = true -> score_range s = true ->
  (alpha * s + 1)%float = s ->
  ((1 - (1 # 2 ^ 53)) / (1 - Q_of_double alpha + (1 # 2 ^ 52))
   <= Q_of_double s)%Q.
Proof.
  intros Ha Hs Hfix.
  destruct (decay_step_spec alpha s Ha Hs) as (_ & Hs1 & _).
  rewrite Hfix in Hs1.
  pose proof (decay_step_lower alpha s Ha Hs Hs1) as H.
  rewrite Hfix in H.
  pose proof (decay_factor_spec alpha Ha) as [_ Hav].
  pose proof (ival_nonneg (Prim2SF alpha)) as Ha0. fold (dval alpha) in Ha0.
  unfold Q_of_double.
  assert (HD : Zpos (2 ^ 1074)%positive = 2 ^ 1074) by reflexivity.
  assert (HU : Zpos (2 ^ 53)%positive = 2 ^ 53) by reflexivity.
  apply limit_cross_lower;
    [reflexivity|rewrite HD; lia|apply ival_nonneg|rewrite HD, HU].
  set (U := 2 ^ 53) in *. set (D := 2 ^ 1074) in *.
  assert (0 < U) by (unfold U; apply Z.pow_pos_nonneg; lia).
  assert (0 < D) by (unfold D; apply Z.pow_pos_nonneg; lia).
  set (a := dval alpha) in *. set (S := dval s) in *.
  clearbody U D a S.
  assert (H' : U * D * ((U - 1) * (D * D))
               <= U * D * (S * (U * D - U * a + 2 * D))); [|nia].
  assert (0 <= S * (U * (D - a) + D)) by nia.
  nia.
Qed.

End Rounding.

(** * Facts about the tiered index *)

Section HCTree.
Context {L : BTLayout}.

(** ** The ordered index *)

Lemma bt_entries_create degree : bt_entries (bt_create degree) = ∅.
Proof. reflexivity. Qed.

Lemma bt_entries_insert t k v :
  bt_entries (bt_insert t k v) = <[k:=v]> (bt_entries t).
Proof. reflexivity. Qed.

Lemma bt_range_sorted t lo hi : Sorted key_le (bt_range t lo hi).
Proof.
  apply Sorted_merge_sort.
  - intros p q. unfold key_le. lia.
Qed.

Lemma bt_search_payload t k :
  (bt_search t k).1 = default NULL (bt_entries t !! k).
Proof. reflexivity. Qed.

Lemma bt_search_found t k v :
  (bt_search t k).1 = v -> v ≠ NULL -> bt_entries t !! k = Some v.
Proof.
  rewrite bt_search_payload. destruct (bt_entries t !! k); simpl; congruence.
Qed.

Lemma Z_eqb_NULL v : (v =? NULL) = false <-> v ≠ NULL.
Proof. apply Z.eqb_neq. Qed.

(** ** What the adapter leaves alone *)

Ltac adapt_cases idx :=
  unfold hc_maybe_adapt_sampling;
  destruct (negb (adapt_sampling (params idx))); [reflexivity|];
  destruct (queries (stats idx) - last_q_for_adapt idx <? MIN_DELTA_Q);
  reflexivity.

Lemma adapt_hot idx : hot (hc_maybe_adapt_sampling idx) = hot idx.
Proof. adapt_cases idx. Qed.

Lemma adapt_cold idx : cold (hc_maybe_adapt_sampling idx) = cold idx.
Proof. adapt_cases idx. Qed.

Lemma adapt_max_key idx : max_key (hc_maybe_adapt_sampling idx) = max_key idx.
Proof. adapt_cases idx. Qed.

Lemma adapt_hit_score idx :
  hit_score (hc_maybe_adapt_sampling idx) = hit_score idx.
Proof. adapt_cases idx. Qed.

Lemma adapt_stats idx : stats (hc_maybe_adapt_sampling idx) = stats idx.
Proof. adapt_cases idx. Qed.

Lemma adapt_params idx :
  params (hc_maybe_adapt_sampling idx)
  = set_sampling_rate (params idx)
      (sampling_rate (params (hc_maybe_adapt_sampling idx))).
Proof.
  unfold hc_maybe_adapt_sampling.
  destruct (negb (adapt_sampling (params idx)));
    [destruct (params idx); reflexivity|].
  destruct (queries (stats idx) - last_q_for_adapt idx <? MIN_DELTA_Q);
    [destruct (params idx); reflexivity|reflexivity].
Qed.

Lemma adapt_decay_alpha idx :
  decay_alpha (params (hc_maybe_adapt_sampling idx)) = decay_alpha (params idx).
Proof. rewrite adapt_params. reflexivity. Qed.

Lemma adapt_hot_threshold idx :
  hot_threshold (params (hc_maybe_adapt_sampling idx))
  = hot_threshold (params idx).
Proof. rewrite adapt_params. reflexivity. Qed.

Lemma adapt_max_hot_fraction idx :
  max_hot_fraction (params (hc_maybe_adapt_sampling idx))
  = max_hot_fraction (params idx).
Proof. rewrite adapt_params. reflexivity. Qed.

Lemma adapt_inclusive idx :
  inclusive (params (hc_maybe_adapt_sampling idx)) = inclusive (params idx).
Proof. rewrite adapt_params. reflexivity. Qed.

Lemma adapt_adapt_sampling idx :
  adapt_sampling (params (hc_maybe_adapt_sampling idx))
  = adapt_sampling (params idx).
Proof. rewrite adapt_params. reflexivity. Qed.

(** ** Promotion: either nothing happens or one key is copied *)

Lemma maybe_promote_cases idx k u :
  maybe_promote idx k u = idx \/
  exists v, bt_entries (cold idx) !! k = Some v /\ v ≠ NULL /\
            at_capacity idx = false /\
            (clamp01 (sampling_rate (params idx)) <? u)%float = false /\
            inclusive (params idx) = true /\
            maybe_promote idx k u = set_hot idx (bt_insert (hot idx) k v).
Proof.
  unfold maybe_promote.
  destruct (inclusive (params idx)); simpl; [|now left].
  destruct (clamp01 (sampling_rate (params idx)) <? u)%float; [now left|].
  destruct (at_capacity idx); [now left|].
  destruct (default NULL (bt_entries (hot idx) !! k) =? NULL); simpl;
    [|now left].
  destruct (default NULL (bt_entries (cold idx) !! k) =? NULL) eqn:E;
    [now left|].
  right. exists (default NULL (bt_entries (cold idx) !! k)).
  apply Z_eqb_NULL in E.
  repeat split; try reflexivity; try assumption.
  destruct (bt_entries (cold idx) !! k); simpl in *; congruence.
Qed.

Lemma promote_cold idx k u : cold (maybe_promote idx k u) = cold idx.
Proof.
  destruct (maybe_promote_cases idx k u) as [->|(v & _ & _ & _ & _ & _ & ->)];
    reflexivity.
Qed.

Lemma promote_max_key idx k u : max_key (maybe_promote idx k u) = max_key idx.
Proof.
  destruct (maybe_promote_cases idx k u) as [->|(v & _ & _ & _ & _ & _ & ->)];
    reflexivity.
Qed.

Lemma promote_hit_score idx k u :
  hit_score (maybe_promote idx k u) = hit_score idx.
Proof.
  destruct (maybe_promote_cases idx k u) as [->|(v & _ & _ & _ & _ & _ & ->)];
    reflexivity.
Qed.

Lemma promote_params idx k u : params (maybe_promote idx k u) = params idx.
Proof.
  destruct (maybe_promote_cases idx k u) as [->|(v & _ & _ & _ & _ & _ & ->)];
    reflexivity.
Qed.

Lemma promote_stats idx k u : stats (maybe_promote idx k u) = stats idx.
Proof.
  destruct (maybe_promote_cases idx k u) as [->|(v & _ & _ & _ & _ & _ & ->)];
    reflexivity.
Qed.

Lemma promote_hot_cases idx k u :
  hot (maybe_promote idx k u) = hot idx \/
  exists v, bt_entries (cold idx) !! k = Some v /\ v ≠ NULL /\
            at_capacity idx = false /\
            hot (maybe_promote idx k u) = bt_insert (hot idx) k v.
Proof.
  destruct (maybe_promote_cases idx k u) as [->|(v & ? & ? & ? & _ & _ & ->)];
    [now left|right; now exists v].
Qed.

(** ** Searching *)

(** [hc_search] with the adapter's frame resolved: the probes, the
    domain test and the score are those of the state before the call. *)
Lemma hc_search_eq idx k u :
  hc_search idx k u =
  let idx1 :=
    hc_maybe_adapt_sampling (set_stats idx (incr_queries (stats idx))) in
  let hv := default NULL (bt_entries (hot idx) !! k) in
  let cv := default NULL (bt_entries (cold idx) !! k) in
  let st2 :=
    add_hot_node_visits (incr_queries (stats idx))
      (search_visits (hot idx) k) in
  let st3 := add_cold_node_visits st2 (search_visits (cold idx) k) in
  let hs :=
    if in_domain idx k
    then <[Z.to_nat k := decayed_score idx k]> (hit_score idx)
    else hit_score idx in
  if negb (hv =? NULL) then
    (hv, set_hit_score (set_stats idx1 (incr_hot_hits st2)) hs)
  else if negb (cv =? NULL) then
    (cv,
     let idx4 := set_hit_score (set_stats idx1 (incr_cold_hits st3)) hs in
     if in_domain idx k
        && (hot_threshold (params idx) <=? decayed_score idx k)%float
     then maybe_promote idx4 k u else idx4)
  else (NULL, set_stats idx1 (incr_not_found st3)).
Proof.
  unfold hc_search, bt_search. cbv zeta. cbn [fst snd node_visits].
  set (idx1 := hc_maybe_adapt_sampling _).
  assert (Hh : hot idx1 = hot idx) by (unfold idx1; now rewrite adapt_hot).
  assert (Hc : cold idx1 = cold idx) by (unfold idx1; now rewrite adapt_cold).
  assert (Hs : stats idx1 = incr_queries (stats idx))
    by (unfold idx1; now rewrite adapt_stats).
  assert (Hm : max_key idx1 = max_key idx)
    by (unfold idx1; now rewrite adapt_max_key).
  assert (Hhs : hit_score idx1 = hit_score idx)
    by (unfold idx1; now rewrite adapt_hit_score).
  assert (Ha : decay_alpha (params idx1) = decay_alpha (params idx))
    by (unfold idx1; now rewrite adapt_decay_alpha).
  assert (Ht : hot_threshold (params idx1) = hot_threshold (params idx))
    by (unfold idx1; now rewrite adapt_hot_threshold).
  clearbody idx1.
  destruct idx1 as [h1 c1 m1 hs1 p1 s1 q1 lc1 ld1]. simpl in *. subst.
  unfold in_domain, decayed_score. simpl. rewrite Ha, Ht.
  destruct (negb (default NULL (bt_entries (hot idx) !! k) =? NULL));
    [destruct ((0 <=? k) && (k <=? max_key idx)); reflexivity|].
  destruct (negb (default NULL (bt_entries (cold idx) !! k) =? NULL));
    [|reflexivity].
  destruct ((0 <=? k) && (k <=? max_key idx)); [|reflexivity].
  cbn [andb]. now destruct (_ <=? _)%float.
Qed.

Ltac search_cases idx k :=
  rewrite (hc_search_eq idx k); cbv zeta;
  destruct (negb (default NULL (bt_entries (hot idx) !! k) =? NULL)) eqn:Ehot;
  [|destruct (negb (default NULL (bt_entries (cold idx) !! k) =? NULL))
      eqn:Ecold;
    [destruct (in_domain idx k
               && (hot_threshold (params idx) <=? decayed_score idx k)%float)
       eqn:Epromote|]];
  cbn [fst snd].

Lemma search_cold idx k u : cold (hc_search idx k u).2 = cold idx.
Proof.
  search_cases idx k; rewrite ?promote_cold; simpl; now rewrite adapt_cold.
Qed.

Lemma search_max_key idx k u : max_key (hc_search idx k u).2 = max_key idx.
Proof.
  search_cases idx k; rewrite ?promote_max_key; simpl;
    now rewrite adapt_max_key.
Qed.

Lemma search_params idx k u :
  params (hc_search idx k u).2
  = params (hc_maybe_adapt_sampling
              (set_stats idx (incr_queries (stats idx)))).
Proof. search_cases idx k; rewrite ?promote_params; reflexivity. Qed.

Lemma search_max_hot_fraction idx k u :
  max_hot_fraction (params (hc_search idx k u).2)
  = max_hot_fraction (params idx).
Proof. now rewrite search_params, adapt_max_hot_fraction. Qed.

Lemma search_decay_alpha idx k u :
  decay_alpha (params (hc_search idx k u).2) = decay_alpha (params idx).
Proof. now rewrite search_params, adapt_decay_alpha. Qed.

Lemma search_hit_score idx k u :
  hit_score (hc_search idx k u).2
  = if negb (default NULL (bt_entries (hot idx) !! k) =? NULL)
       || negb (default NULL (bt_entries (cold idx) !! k) =? NULL)
    then if in_domain idx k
         then <[Z.to_nat k := decayed_score idx k]> (hit_score idx)
         else hit_score idx
    else hit_score idx.
Proof.
  search_cases idx k; rewrite ?promote_hit_score; simpl;
    rewrite ?adapt_hit_score; reflexivity.
Qed.

Lemma search_hit_score_length idx k u :
  length (hit_score (hc_search idx k u).2) = length (hit_score idx).
Proof.
  rewrite search_hit_score.
  repeat match goal with
         | |- context [if ?c then _ else _] => destruct c
         end; rewrite ?length_insert; reflexivity.
Qed.

(** A search changes the hot tier only by promoting the searched key,
    in the domain, with the payload the cold tier holds, and only while
    the hot tier is below capacity. *)
Lemma search_hot_cases idx k u :
  hot (hc_search idx k u).2 = hot idx \/
  exists v, bt_entries (cold idx) !! k = Some v /\ v ≠ NULL /\
            in_domain idx k = true /\ at_capacity idx = false /\
            hot (hc_search idx k u).2 = bt_insert (hot idx) k v.
Proof.
  search_cases idx k;
    try (left; simpl; now rewrite adapt_hot).
  apply andb_true_iff in Epromote as [Hdom _].
  match goal with
  | |- context [maybe_promote ?i k u] =>
      destruct (promote_hot_cases i k u) as [->|(v & Hc & Hv & Hcap & ->)]
  end; simpl in *; [left; now rewrite adapt_hot|].
  right. exists v.
  rewrite adapt_cold in Hc. rewrite adapt_hot. simpl in *.
  unfold at_capacity, hot_capacity in *. simpl in *.
  rewrite adapt_hot, adapt_max_key, adapt_max_hot_fraction in Hcap.
  repeat split; assumption.
Qed.

(** ** One call *)

Lemma insert_cases idx k v :
  in_domain idx k = false /\
    hc_insert idx k v = (idx, [ErrOutOfRange k (max_key idx)]) \/
  in_domain idx k = true /\
    hc_insert idx k v = (set_cold idx (bt_insert (cold idx) k v), []).
Proof.
  unfold hc_insert, in_domain.
  destruct (k <? 0) eqn:E1, (max_key idx <? k) eqn:E2; simpl;
    [left|left|left|right]; split; try reflexivity; lia.
Qed.

Lemma range_search_state {U : Type} idx lo hi
    (cb : BTKey -> BTPayload -> U -> U) arg :
  (hc_range_search idx lo hi cb arg).1
  = set_stats idx
      (add_cold_node_visits
         (add_hot_node_visits (stats idx) (range_visits (hot idx) lo hi))
         (range_visits (cold idx) lo hi)).
Proof. reflexivity. Qed.

Lemma step_max_key idx c : max_key (hc_step idx c) = max_key idx.
Proof.
  destruct c as [k v|k u|lo hi|]; unfold hc_step, hc_run.
  - destruct (insert_cases idx k v) as [[_ ->]|[_ ->]]; reflexivity.
  - pose proof (search_max_key idx k u).
    destruct (hc_search idx k u); assumption.
  - reflexivity.
  - reflexivity.
Qed.

Lemma step_max_hot_fraction idx c :
  max_hot_fraction (params (hc_step idx c)) = max_hot_fraction (params idx).
Proof.
  destruct c as [k v|k u|lo hi|]; unfold hc_step, hc_run.
  - destruct (insert_cases idx k v) as [[_ ->]|[_ ->]]; reflexivity.
  - pose proof (search_max_hot_fraction idx k u).
    destruct (hc_search idx k u); assumption.
  - reflexivity.
  - reflexivity.
Qed.

Lemma step_hot_cases idx c :
  hot (hc_step idx c) = hot idx \/
  exists k v, bt_entries (cold idx) !! k = Some v /\ v ≠ NULL /\
              in_domain idx k = true /\ at_capacity idx = false /\
              cold (hc_step idx c) = cold idx /\
              hot (hc_step idx c) = bt_insert (hot idx) k v.
Proof.
  destruct c as [k v|k u|lo hi|]; unfold hc_step, hc_run.
  - left. destruct (insert_cases idx k v) as [[_ ->]|[_ ->]]; reflexivity.
  - pose proof (search_hot_cases idx k u) as H.
    pose proof (search_cold idx k u) as Hc.
    destruct (hc_search idx k u) as [r idx']. simpl in *.
    destruct H as [H|(v & ? & ? & ? & ? & ?)]; [now left|].
    right. exists k, v. repeat split; assumption.
  - now left.
  - now left.
Qed.

Lemma step_cold_cases idx c :
  cold (hc_step idx c) = cold idx \/
  exists k v, c = CallInsert k v /\ in_domain idx k = true /\
              hot (hc_step idx c) = hot idx /\
              cold (hc_step idx c) = bt_insert (cold idx) k v.
Proof.
  destruct c as [k v|k u|lo hi|]; unfold hc_step, hc_run.
  - destruct (insert_cases idx k v) as [[_ ->]|[? ->]]; [now left|].
    right. exists k, v. repeat split; assumption.
  - left. pose proof (search_cold idx k u).
    destruct (hc_search idx k u); assumption.
  - now left.
  - now left.
Qed.

Lemma reachable_steps idx cs :
  reachable idx -> reachable (hc_steps idx cs).
Proof.
  revert idx. induction cs as [|c cs IH]; intros idx H; [exact H|].
  apply IH. now apply reachable_step.
Qed.

(** ** Promotion frame *)

(** C10: [maybe_promote] changes at most the hot tier, by one insertion of
    [k] with the payload fetched from the cold tier; the cold tier, the
    scores, the parameters, every counter and the adapter state are
    unchanged.  The node visits of its two probes are dropped: the
    counters, and with them the adapter's cost signal, do not move. *)
Theorem C10_maybe_promote_frame idx k u :
  (hot (maybe_promote idx k u) = hot idx \/
   exists v, (bt_search (cold idx) k).1 = v /\ v ≠ NULL /\
             hot (maybe_promote idx k u) = bt_insert (hot idx) k v) /\
  cold (maybe_promote idx k u) = cold idx /\
  hit_score (maybe_promote idx k u) = hit_score idx /\
  params (maybe_promote idx k u) = params idx /\
  max_key (maybe_promote idx k u) = max_key idx /\
  stats (maybe_promote idx k u) = stats idx /\
  last_q_for_adapt (maybe_promote idx k u) = last_q_for_adapt idx /\
  last_cost (maybe_promote idx k u) = last_cost idx /\
  last_D (maybe_promote idx k u) = last_D idx /\
  adapt_cost (maybe_promote idx k u) = adapt_cost idx.
Proof.
  destruct (maybe_promote_cases idx k u)
    as [->|(v & Hc & Hv & _ & _ & _ & ->)].
  - repeat split; try reflexivity. now left.
  - repeat split; try reflexivity.
    right. exists v. rewrite bt_search_payload, Hc. now repeat split.
Qed.

(** ** Range-scan frame *)

(** C9: a range scan adds the node visits of its two scans to
    [hot_node_visits] and [cold_node_visits] and changes nothing else:
    not the query, hit and miss counters, the scores, the tiers, the
    parameters (so the sampling rate) or the adapter state. *)
Theorem C9_range_search_frame {U : Type} idx lo hi
    (cb : BTKey -> BTPayload -> U -> U) (arg : U) :
  let idx' := (hc_range_search idx lo hi cb arg).1 in
  queries (stats idx') = queries (stats idx) /\
  hot_hits (stats idx') = hot_hits (stats idx) /\
  cold_hits (stats idx') = cold_hits (stats idx) /\
  not_found (stats idx') = not_found (stats idx) /\
  hit_score idx' = hit_score idx /\
  hot idx' = hot idx /\
  cold idx' = cold idx /\
  max_key idx' = max_key idx /\
  params idx' = params idx /\
  last_q_for_adapt idx' = last_q_for_adapt idx /\
  last_cost idx' = last_cost idx /\
  last_D idx' = last_D idx /\
  hot_node_visits (stats idx')
  = hot_node_visits (stats idx) + range_visits (hot idx) lo hi /\
  cold_node_visits (stats idx')
  = cold_node_visits (stats idx) + range_visits (cold idx) lo hi.
Proof.
  cbv zeta. rewrite range_search_state. repeat split.
Qed.

(** ** Inclusion of the hot tier in the cold tier *)

Lemma key_inclusion_create max_key degree params :
  key_inclusion (hc_create max_key degree params).
Proof. unfold key_inclusion. simpl. reflexivity. Qed.

Lemma key_inclusion_step idx c :
  key_inclusion idx -> key_inclusion (hc_step idx c).
Proof.
  unfold key_inclusion. intros H.
  destruct (step_hot_cases idx c)
    as [Hh|(k & v & Hc & _ & _ & _ & Hcold & Hh)]; rewrite Hh.
  - destruct (step_cold_cases idx c) as [Hc|(k & v & _ & _ & _ & Hc)];
      rewrite Hc; [exact H|].
    rewrite bt_entries_insert, dom_insert_L.
    intros x Hx. apply elem_of_union. right. now apply H.
  - rewrite Hcold, bt_entries_insert, dom_insert_L.
    apply elem_of_dom_2 in Hc.
    intros x [->%elem_of_singleton|Hx]%elem_of_union; [exact Hc|now apply H].
Qed.

Lemma entry_inclusion_step idx c :
  keeps_hot_payloads idx c ->
  entry_inclusion idx -> entry_inclusion (hc_step idx c).
Proof.
  unfold entry_inclusion. intros Hok H k' w.
  destruct (step_hot_cases idx c)
    as [Hh|(k & v & Hc & _ & _ & _ & Hcold & Hh)]; rewrite Hh.
  - destruct (step_cold_cases idx c) as [Hc|(k & v & -> & _ & _ & Hc)];
      rewrite Hc; [apply H|].
    rewrite bt_entries_insert. intros Hw.
    destruct (decide (k = k')) as [->|Hne].
    + rewrite lookup_insert_eq. f_equal. symmetry. now apply Hok.
    + rewrite lookup_insert_ne by assumption. now apply H.
  - rewrite Hcold, bt_entries_insert.
    destruct (decide (k = k')) as [->|Hne].
    + rewrite lookup_insert_eq. congruence.
    + rewrite lookup_insert_ne by assumption. apply H.
Qed.

(** ** Capacity of the hot tier *)

Lemma step_hot_capacity idx c : hot_capacity (hc_step idx c) = hot_capacity idx.
Proof.
  unfold hot_capacity. now rewrite step_max_key, step_max_hot_fraction.
Qed.

Lemma capacity_inv_step idx c :
  capacity_inv idx -> capacity_inv (hc_step idx c).
Proof.
  unfold capacity_inv. intros H. rewrite step_hot_capacity.
  destruct (step_hot_cases idx c)
    as [Hh|(k & v & _ & _ & _ & Hcap & _ & Hh)]; rewrite Hh; [exact H|].
  unfold bt_count_keys in *. rewrite bt_entries_insert.
  destruct (bt_entries (hot idx) !! k) as [w|] eqn:Ek.
  - rewrite map_size_insert_Some by (rewrite Ek; eauto). exact H.
  - rewrite map_size_insert_None by exact Ek. right.
    unfold at_capacity, bt_count_keys in Hcap.
    replace (Z.of_nat (S (size (bt_entries (hot idx)))) - 1)
      with (Z.of_nat (size (bt_entries (hot idx)))) by lia.
    exact Hcap.
Qed.

Lemma step_hot_grows idx c :
  dom (bt_entries (hot idx)) ⊆ dom (bt_entries (hot (hc_step idx c))).
Proof.
  destruct (step_hot_cases idx c)
    as [Hh|(k & v & _ & _ & _ & _ & _ & Hh)]; rewrite Hh; [reflexivity|].
  rewrite bt_entries_insert, dom_insert_L.
  intros x Hx. apply elem_of_union. now right.
Qed.

(** C3 (amended): in every reachable state the hot tier without its
    newest key was below the bound [max_hot_fraction * (max_key + 1)], so
    the number of hot keys stays below the bound plus one; once the
    number of hot keys has reached the bound no promotion succeeds and no
    call changes the hot tier; and no call removes a key from the hot
    tier. *)
Theorem C3_capacity idx :
  reachable idx ->
  capacity_inv idx /\
  (at_capacity idx = true ->
   (forall k u, maybe_promote idx k u = idx) /\
   (forall c, hot (hc_step idx c) = hot idx)) /\
  (forall c,
     dom (bt_entries (hot idx)) ⊆ dom (bt_entries (hot (hc_step idx c)))).
Proof.
  intros H. repeat split.
  - induction H as [mk deg p|idx c _ IH _].
    + now left.
    + now apply capacity_inv_step.
  - intros k u.
    destruct (maybe_promote_cases idx k u)
      as [E|(v & _ & _ & Hcap & _)]; [exact E|congruence].
  - intros c.
    destruct (step_hot_cases idx c)
      as [E|(k & v & _ & _ & _ & Hcap & _)]; [exact E|congruence].
  - apply step_hot_grows.
Qed.

(** ** The sampling rate stays in [0, 1] *)

Lemma nudge_not_nan idx q D :
  in01 D = true -> is_nan_sf (Prim2SF (nudge_by_hot_frac idx q D)) = false.
Proof.
  intros HD. unfold nudge_by_hot_frac. cbv zeta.
  destruct (_ <? _)%float;
    [apply Double.in01_add_not_nan|apply Double.in01_sub_not_nan];
    auto.
Qed.

Lemma adapt_in01 idx :
  in01 (sampling_rate (params idx)) = true ->
  in01 (sampling_rate (params (hc_maybe_adapt_sampling idx))) = true.
Proof.
  intros HD. unfold hc_maybe_adapt_sampling.
  destruct (negb (adapt_sampling (params idx))); [exact HD|].
  destruct (queries (stats idx) - last_q_for_adapt idx <? MIN_DELTA_Q);
    [exact HD|].
  cbv zeta. simpl. apply Double.clamp01_in01.
  destruct (last_q_for_adapt idx =? 0); [now apply nudge_not_nan|].
  destruct (abs _ <? 1e-9)%float; [now apply nudge_not_nan|].
  destruct (_ * _ <? 0)%float.
  { destruct (0 <? _)%float; apply Double.in01_add_not_nan; auto. }
  destruct (0 <? _ * _)%float.
  { destruct (0 <? _)%float; apply Double.in01_sub_not_nan; auto. }
  now apply Double.in01_not_nan.
Qed.

Lemma step_sampling_rate_in01 idx c :
  in01 (sampling_rate (params idx)) = true ->
  in01 (sampling_rate (params (hc_step idx c))) = true.
Proof.
  intros HD. destruct c as [k v|k u|lo hi|]; unfold hc_step, hc_run.
  - destruct (insert_cases idx k v) as [[_ ->]|[_ ->]]; exact HD.
  - pose proof (search_params idx k u) as Hp.
    destruct (hc_search idx k u) as [r idx']. simpl in *. rewrite Hp.
    now apply adapt_in01.
  - exact HD.
  - exact HD.
Qed.

(** C6: if the sampling rate is a number in [0, 1], it is still a number
    in [0, 1] after any sequence of calls, searches and the adaptation
    steps they trigger included. *)
Theorem C6_sampling_rate_bounds idx cs :
  in01 (sampling_rate (params idx)) = true ->
  in01 (sampling_rate (params (hc_steps idx cs))) = true.
Proof.
  revert idx. induction cs as [|c cs IH]; intros idx HD; [exact HD|].
  apply IH. now apply step_sampling_rate_in01.
Qed.

(** ** The adapter's decision rule *)

(** C7: on an adaptation after the first, when the sampling rate moved
    by at least 1e-9 since the previous adaptation: a cost change of the
    opposite sign moves D by 0.05 in the direction of dD, a cost change
    of the same sign moves D by 0.05 against it, no cost change leaves D
    as it is; the new rate is the clamped result, and the adapter
    records the old rate, the cost and the query count. *)
Theorem C7_adapter_rule idx :
  adapt_sampling (params idx) = true ->
  MIN_DELTA_Q <= queries (stats idx) - last_q_for_adapt idx ->
  last_q_for_adapt idx <> 0 ->
  let D := sampling_rate (params idx) in
  let cost := adapt_cost idx in
  let dC := (cost - last_cost idx)%float in
  let dD := (D - last_D idx)%float in
  (1e-9 <=? abs dD)%float = true ->
  let idx' := hc_maybe_adapt_sampling idx in
  ((dC * dD <? 0)%float = true ->
   sampling_rate (params idx') = clamp01 (move_D D (0 <? dD)%float)) /\
  ((0 <? dC * dD)%float = true ->
   sampling_rate (params idx') = clamp01 (move_D D (negb (0 <? dD)%float))) /\
  ((dC =? 0)%float = true -> sampling_rate (params idx') = clamp01 D) /\
  ((dC * dD <? 0)%float = false -> (0 <? dC * dD)%float = false ->
   sampling_rate (params idx') = clamp01 D) /\
  last_D idx' = D /\
  last_cost idx' = cost /\
  last_q_for_adapt idx' = queries (stats idx) /\
  hot idx' = hot idx /\ cold idx' = cold idx /\
  hit_score idx' = hit_score idx /\ stats idx' = stats idx.
Proof.
  intros Hon Hq Hlast D cost dC dD HdD idx'.
  assert (E1 : (queries (stats idx) - last_q_for_adapt idx <? MIN_DELTA_Q)
               = false) by lia.
  assert (E2 : (last_q_for_adapt idx =? 0) = false) by lia.
  assert (E3 : (abs dD <? 1e-9)%float = false)
    by now apply Double.leb_ltb_asym.
  assert (E : idx' =
    {| hot := hot idx; cold := cold idx; max_key := max_key idx;
       hit_score := hit_score idx;
       params := set_sampling_rate (params idx)
         (clamp01
            (if (dC * dD <? 0)%float then
               (D + 0.05 * (if (0 <? dD)%float then 1 else -1))%float
             else if (0 <? dC * dD)%float then
               (D - 0.05 * (if (0 <? dD)%float then 1 else -1))%float
             else D));
       stats := stats idx;
       last_q_for_adapt := queries (stats idx);
       last_cost := cost;
       last_D := D |}).
  { unfold idx', hc_maybe_adapt_sampling. rewrite Hon, E1, E2. cbv zeta.
    fold D cost. fold dC. fold dD. rewrite E3. reflexivity. }
  rewrite E. cbn [sampling_rate params set_sampling_rate hot cold hit_score
                  stats last_D last_cost last_q_for_adapt].
  repeat split.
  - intros Hneg. rewrite Hneg. unfold move_D. f_equal.
    destruct (0 <? dD)%float;
      [apply Double.step_up_pos|apply Double.step_up_neg].
  - intros Hpos. rewrite (Double.ltb_asym _ _ Hpos), Hpos. unfold move_D.
    f_equal. destruct (0 <? dD)%float; cbn [negb];
      [apply Double.step_down_pos|apply Double.step_down_neg].
  - intros Hzero.
    destruct (Double.mul_zero_l_sign dC dD Hzero) as [-> ->]. reflexivity.
  - intros -> ->. reflexivity.
Qed.

(** ** Promotion at full sampling *)

(** When adaptation is off, or fewer than 5000 queries have passed
    since the last one, the adapter step of a search does nothing. *)
Lemma adapt_idle idx :
  adapt_sampling (params idx) = false \/
  queries (stats idx) + 1 - last_q_for_adapt idx < MIN_DELTA_Q ->
  hc_maybe_adapt_sampling (set_stats idx (incr_queries (stats idx)))
  = set_stats idx (incr_queries (stats idx)).
Proof.
  intros H. unfold hc_maybe_adapt_sampling. simpl.
  destruct H as [->|H]; [reflexivity|].
  destruct (negb _); [reflexivity|].
  now replace (_ <? MIN_DELTA_Q) with true by lia.
Qed.

(** C4 (amended): if the sampling rate is 1.0 once the adapter step of
    the call has run, [inclusive] is set, the hot tier is strictly below
    its capacity bound, and [k] is in the domain, stored in the cold tier
    with a non-NULL payload [v] and not in the hot tier, then a search of
    [k] whose updated score reaches [hot_threshold] returns [v] and
    inserts [(k, v)] into the hot tier, whatever the draw [u] in [0, 1). *)
Theorem C4_promotion_at_full_sampling idx k v u :
  sampling_rate
    (params (hc_maybe_adapt_sampling
               (set_stats idx (incr_queries (stats idx))))) = 1%float ->
  inclusive (params idx) = true ->
  (double_of_Z (bt_count_keys (hot idx)) <? hot_capacity idx)%float = true ->
  in_domain idx k = true ->
  bt_entries (cold idx) !! k = Some v ->
  v ≠ NULL ->
  bt_entries (hot idx) !! k = None ->
  (hot_threshold (params idx) <=? decayed_score idx k)%float = true ->
  (u <? 1)%float = true ->
  (hc_search idx k u).1 = v /\
  hot (hc_search idx k u).2 = bt_insert (hot idx) k v /\
  cold (hc_search idx k u).2 = cold idx.
Proof.
  intros HD Hinc Hcap Hdom Hc Hv Hh Hthr Hu.
  split; [|split; [|apply search_cold]].
  - rewrite hc_search_eq. cbv zeta. rewrite Hh, Hc. simpl.
    apply Z_eqb_NULL in Hv. rewrite Hv. reflexivity.
  - rewrite hc_search_eq. cbv zeta. rewrite Hh, Hc, Hdom, Hthr. simpl.
    pose proof Hv as Hv'. apply Z_eqb_NULL in Hv'. rewrite Hv'. simpl.
    set (idx1 := hc_maybe_adapt_sampling _) in *.
    unfold maybe_promote. simpl.
    assert (Hi : inclusive (params idx1) = true)
      by (unfold idx1; now rewrite adapt_inclusive).
    rewrite Hi, HD, Double.clamp01_one, (Double.ltb_asym _ _ Hu). simpl.
    assert (Hcap' : at_capacity
              (set_hit_score
                 (set_stats idx1
                    (incr_cold_hits
                       (add_cold_node_visits
                          (add_hot_node_visits (incr_queries (stats idx))
                             (search_visits (hot idx) k))
                          (search_visits (cold idx) k))))
                 (<[Z.to_nat k:=decayed_score idx k]> (hit_score idx)))
            = false).
    { unfold at_capacity, hot_capacity. simpl. unfold idx1.
      rewrite adapt_hot, adapt_max_key, adapt_max_hot_fraction. simpl.
      now apply Double.ltb_leb_asym. }
    rewrite Hcap'. unfold idx1. rewrite adapt_hot, adapt_cold. simpl.
    rewrite Hh, Hc. simpl. rewrite Hv'. reflexivity.
Qed.

(** ** Keys outside the domain *)

Lemma in_domain_spec idx k : in_domain idx k = true <-> 0 <= k <= max_key idx.
Proof. unfold in_domain. lia. Qed.

Lemma outside_domain_absent idx k :
  keys_in_domain idx -> in_domain idx k = false ->
  bt_entries (hot idx) !! k = None /\ bt_entries (cold idx) !! k = None.
Proof.
  intros Hkeys Hdom.
  assert (Hk : ~ (0 <= k <= max_key idx))
    by (rewrite <- in_domain_spec; congruence).
  split; apply not_elem_of_dom; intros Hin; apply Hk, Hkeys;
    apply elem_of_union; auto.
Qed.

(** C2 (amended): for a key outside [0, max_key], [hc_insert] changes
    nothing at all and prints the out-of-range line; [hc_search] leaves
    both tiers and the score array unchanged and prints nothing: when no
    stored key lies outside the domain it returns NULL and counts the
    call as a query and as not found. *)
Theorem C2_domain_guard idx k :
  in_domain idx k = false ->
  (forall v,
     hc_step idx (CallInsert k v) = idx /\
     printed (hc_run idx (CallInsert k v)).2
     = [ErrOutOfRange k (max_key idx)] /\
     reports_OutOfRange (hc_run idx (CallInsert k v)).2) /\
  (forall u,
     hot (hc_step idx (CallSearch k u)) = hot idx /\
     cold (hc_step idx (CallSearch k u)) = cold idx /\
     hit_score (hc_step idx (CallSearch k u)) = hit_score idx /\
     printed (hc_run idx (CallSearch k u)).2 = [] /\
     (keys_in_domain idx ->
      returned (hc_run idx (CallSearch k u)).2 = Some NULL /\
      queries (stats (hc_step idx (CallSearch k u)))
      = queries (stats idx) + 1 /\
      not_found (stats (hc_step idx (CallSearch k u)))
      = not_found (stats idx) + 1 /\
      hot_hits (stats (hc_step idx (CallSearch k u))) = hot_hits (stats idx) /\
      cold_hits (stats (hc_step idx (CallSearch k u)))
      = cold_hits (stats idx))).
Proof.
  intros Hdom. split.
  - intros v. unfold hc_step, hc_run.
    destruct (insert_cases idx k v) as [[_ ->]|[? _]]; [|congruence].
    simpl. repeat split.
    exists k, (max_key idx). apply list_elem_of_singleton. reflexivity.
  - intros u.
    assert (Hrun : hc_run idx (CallSearch k u)
                   = ((hc_search idx k u).2,
                      {| returned := Some (hc_search idx k u).1;
                         printed := []; emitted := []; read_stats := None |}))
      by (unfold hc_run; now destruct (hc_search idx k u)).
    unfold hc_step. rewrite Hrun. simpl. repeat split.
    + destruct (search_hot_cases idx k u) as [E|(v & _ & _ & ? & _)];
        [exact E|congruence].
    + apply search_cold.
    + rewrite search_hit_score, Hdom. now destruct (_ || _).
    + f_equal.
      destruct (outside_domain_absent idx k H Hdom) as [Hh Hc].
      rewrite hc_search_eq. cbv zeta. rewrite Hh, Hc. reflexivity.
    + destruct (outside_domain_absent idx k H Hdom) as [Hh Hc].
      rewrite hc_search_eq. cbv zeta. rewrite Hh, Hc. reflexivity.
    + destruct (outside_domain_absent idx k H Hdom) as [Hh Hc].
      rewrite hc_search_eq. cbv zeta. rewrite Hh, Hc. reflexivity.
    + destruct (outside_domain_absent idx k H Hdom) as [Hh Hc].
      rewrite hc_search_eq. cbv zeta. rewrite Hh, Hc. reflexivity.
    + destruct (outside_domain_absent idx k H Hdom) as [Hh Hc].
      rewrite hc_search_eq. cbv zeta. rewrite Hh, Hc. reflexivity.
Qed.

(** ** The decay recurrence *)

Lemma search_score_hit idx k u :
  in_domain idx k = true -> score_array_ok idx ->
  (bt_search (cold idx) k).1 ≠ NULL ->
  hit_score (hc_search idx k u).2 !!! Z.to_nat k = decayed_score idx k /\
  (hc_search idx k u).1 ≠ NULL.
Proof.
  intros Hdom Hlen Hc. rewrite bt_search_payload in Hc.
  pose proof Hc as Hc'. apply Z_eqb_NULL in Hc'.
  split.
  - rewrite search_hit_score, Hdom, Hc'. simpl. rewrite orb_true_r.
    apply list_lookup_total_insert_eq.
    apply in_domain_spec in Hdom. unfold score_array_ok in Hlen. lia.
  - rewrite hc_search_eq. cbv zeta. rewrite Hc'.
    destruct (negb (default NULL (bt_entries (hot idx) !! k) =? NULL))
      eqn:Eh; simpl; [|exact Hc].
    apply negb_true_iff in Eh. now apply Z_eqb_NULL.
Qed.

Lemma search_many_cons idx k u us :
  search_many idx k (u :: us) = search_many (hc_search idx k u).2 k us.
Proof. reflexivity. Qed.

Lemma search_many_snoc idx k us u :
  search_many idx k (us ++ [u]) = (hc_search (search_many idx k us) k u).2.
Proof. unfold search_many. now rewrite foldl_app. Qed.

Lemma search_many_score idx k us :
  in_domain idx k = true ->
  score_array_ok idx ->
  (bt_search (cold idx) k).1 ≠ NULL ->
  hit_score (search_many idx k us) !!! Z.to_nat k
  = iter_decay (decay_alpha (params idx)) (length us)
      (hit_score idx !!! Z.to_nat k).
Proof.
  revert idx. induction us as [|u us IH]; intros idx Hdom Hlen Hc;
    [reflexivity|].
  rewrite search_many_cons, IH.
  - rewrite search_decay_alpha.
    destruct (search_score_hit idx k u Hdom Hlen Hc) as [-> _].
    reflexivity.
  - apply in_domain_spec. rewrite search_max_key.
    now apply in_domain_spec.
  - unfold score_array_ok.
    now rewrite search_hit_score_length, search_max_key.
  - now rewrite search_cold.
Qed.

Lemma search_many_hits idx k us u :
  in_domain idx k = true ->
  score_array_ok idx ->
  (bt_search (cold idx) k).1 ≠ NULL ->
  (hc_search (search_many idx k us) k u).1 ≠ NULL.
Proof.
  revert idx. induction us as [|u' us IH]; intros idx Hdom Hlen Hc.
  - now apply search_score_hit.
  - rewrite search_many_cons. apply IH.
    + apply in_domain_spec. rewrite search_max_key.
      now apply in_domain_spec.
    + unfold score_array_ok.
      now rewrite search_hit_score_length, search_max_key.
    + now rewrite search_cold.
Qed.

(** C8 (amended): for a key of the domain stored in the cold tier with a
    non-NULL payload, every search of the key is a hit, and after [n]
    consecutive searches its score is the [n]-fold iterate of
    [s := decay_alpha * s + 1.0], in double arithmetic, of the score it
    had; the first hit on a score of 0 gives exactly 1.0.  For a
    [decay_alpha] in [0, 1) and an initial score of 0 the scores never
    decrease from one hit to the next; they never exceed 2^53, nor any
    double that the update does not raise, nor any double [B] at least
    [1 / (1 - decay_alpha)]: they stay at or below the limit rounded up
    to a double; and from some hit on the score stays constant, at a
    double [s] between [(1 - 2^-53) / (1 - decay_alpha + 2^-52)] and the
    limit rounded up. *)
Theorem C8_decay_iterates idx k us :
  in_domain idx k = true ->
  score_array_ok idx ->
  (bt_search (cold idx) k).1 ≠ NULL ->
  let alpha := decay_alpha (params idx) in
  let score := fun us => hit_score (search_many idx k us) !!! Z.to_nat k in
  score us = iter_decay alpha (length us) (hit_score idx !!! Z.to_nat k) /\
  (forall u, (hc_search (search_many idx k us) k u).1 ≠ NULL) /\
  (is_finite_sf (Prim2SF alpha) = true -> iter_decay alpha 1 0 = 1%float) /\
  (decay_factor alpha = true ->
   hit_score idx !!! Z.to_nat k = 0%float ->
   (forall u, (score us <=? score (us ++ [u]))%float = true) /\
   (score us <=? 9007199254740992)%float = true /\
   (forall B : double,
      score_range B = true -> (alpha * B + 1 <=? B)%float = true ->
      (score us <=? B)%float = true) /\
   (forall B : double,
      (1 / (1 - Q_of_double alpha) <= Q_of_double B)%Q ->
      (score us <=? B)%float = true) /\
   (exists N,
      (forall us', (N <= length us')%nat ->
         score us' = iter_decay alpha N 0) /\
      (alpha * iter_decay alpha N 0 + 1)%float = iter_decay alpha N 0 /\
      ((1 - (1 # 2 ^ 53)) / (1 - Q_of_double alpha + (1 # 2 ^ 52))
       <= Q_of_double (iter_decay alpha N 0))%Q)).
Proof.
  intros Hdom Hlen Hc alpha score.
  assert (Hscore : forall us',
            score us' = iter_decay alpha (length us')
                          (hit_score idx !!! Z.to_nat k))
    by (intros us'; now apply search_many_score).
  split; [apply Hscore|].
  split; [intros u; now apply search_many_hits|].
  split; [intros Hfin; simpl; now apply Double.decay_from_zero|].
  intros Ha H0. rewrite H0 in Hscore.
  assert (Hbound : forall B : double,
            score_range B = true -> (alpha * B + 1 <=? B)%float = true ->
            (score us <=? B)%float = true).
  { intros B HB Hpost. rewrite Hscore.
    apply Rounding.iter_decay_bound; try assumption; [reflexivity|].
    unfold score_range in HB. now apply andb_true_iff in HB as [HB _]. }
  split; [|split; [|split; [exact Hbound|split]]].
  - intros u. rewrite !Hscore, length_app, Nat.add_1_r.
    now apply Rounding.iter_decay_nondecreasing.
  - rewrite Hscore.
    pose proof (Rounding.iter_decay_range alpha (length us) 0 Ha eq_refl)
      as Hr.
    unfold score_range in Hr. now apply andb_true_iff in Hr as [_ Hr].
  - intros B Hlim. rewrite Hscore. now apply Rounding.limit_bound.
  - destruct (Rounding.iter_decay_stationary alpha Ha) as (N & HN & Hfix).
    exists N. split; [|split; [exact Hfix|]].
    + intros us' Hus'. rewrite Hscore. now apply HN.
    + apply Rounding.fixed_point_lower; [exact Ha| |exact Hfix].
      now apply Rounding.iter_decay_range.
Qed.

(** ** The deduplicated range scan *)

Lemma fold_range_cb_hot {U : Type} (l : list (BTKey * BTPayload)) :
  forall ctx : HCRangeCtx U,
  foldl (fun a p => hc_range_cb_hot p.1 p.2 a) ctx l
  = {| user_cb := user_cb ctx;
       user_arg :=
         foldl (fun a p => user_cb ctx p.1 p.2 a) (user_arg ctx)
           (dedup_scan (max_key (ctx_idx ctx)) (seen ctx) l).1;
       seen := (dedup_scan (max_key (ctx_idx ctx)) (seen ctx) l).2;
       ctx_idx := ctx_idx ctx |}.
Proof.
  induction l as [|[k v] l IH]; intros ctx; [now destruct ctx|].
  cbn [foldl dedup_scan fst snd]. rewrite IH. unfold hc_range_cb_hot.
  destruct ((k <? 0) || (max_key (ctx_idx ctx) <? k)); [reflexivity|].
  destruct (seen ctx !!! Z.to_nat k =? 0); [|reflexivity].
  cbn [user_cb user_arg seen ctx_idx].
  now destruct (dedup_scan _ _ l).
Qed.

Lemma fold_range_cb_cold {U : Type} (l : list (BTKey * BTPayload))
    (ctx : HCRangeCtx U) :
  foldl (fun a p => hc_range_cb_cold p.1 p.2 a) ctx l
  = {| user_cb := user_cb ctx;
       user_arg :=
         foldl (fun a p => user_cb ctx p.1 p.2 a) (user_arg ctx)
           (dedup_scan (max_key (ctx_idx ctx)) (seen ctx) l).1;
       seen := (dedup_scan (max_key (ctx_idx ctx)) (seen ctx) l).2;
       ctx_idx := ctx_idx ctx |}.
Proof. exact (fold_range_cb_hot l ctx). Qed.

Lemma seen_marks_fresh mk :
  seen_marks mk (replicate (Z.to_nat (mk + 1)) 0) (fun _ => False).
Proof.
  split; [apply length_replicate|].
  intros k Hk. rewrite lookup_total_replicate_2 by lia. tauto.
Qed.

Lemma seen_marks_insert mk seen P k :
  0 <= k <= mk -> seen_marks mk seen P ->
  seen_marks mk (<[Z.to_nat k := 1]> seen) (fun x => P x \/ x = k).
Proof.
  intros Hk [Hlen Hm]. split; [now rewrite length_insert|].
  intros x Hx. destruct (decide (x = k)) as [->|Hne].
  - rewrite list_lookup_total_insert_eq by lia. split; [auto|discriminate].
  - rewrite list_lookup_total_insert_ne by lia.
    rewrite (Hm x Hx). tauto.
Qed.

Lemma dedup_scan_spec mk l : forall seen P,
  seen_marks mk seen P ->
  NoDup (dedup_scan mk seen l).1.*1 /\
  (forall k, k ∈ (dedup_scan mk seen l).1.*1 <->
             k ∈ l.*1 /\ 0 <= k <= mk /\ ~ P k) /\
  seen_marks mk (dedup_scan mk seen l).2
    (fun k => P k \/ k ∈ (dedup_scan mk seen l).1.*1).
Proof.
  induction l as [|[k v] l IH]; intros seen P Hseen.
  - cbn. split; [constructor|]. split.
    + intros k. rewrite elem_of_nil. tauto.
    + destruct Hseen as [Hlen Hm]. split; [exact Hlen|].
      intros k Hk. rewrite (Hm k Hk), elem_of_nil. tauto.
  - cbn [dedup_scan fmap list_fmap fst].
    destruct ((k <? 0) || (mk <? k)) eqn:Edom.
    { destruct (IH seen P Hseen) as (Hnd & Hin & Hmarks).
      split; [exact Hnd|]. split; [|exact Hmarks].
      intros x. rewrite Hin, elem_of_cons.
      split; [tauto|]. intros [[->|Hx] [Hd HP]]; [lia|tauto]. }
    assert (Hk : 0 <= k <= mk) by lia.
    destruct (seen !!! Z.to_nat k =? 0) eqn:Eseen.
    + assert (HPk : ~ P k).
      { destruct Hseen as [_ Hm]. rewrite <- (Hm k Hk). lia. }
      destruct (IH _ _ (seen_marks_insert mk seen P k Hk Hseen))
        as (Hnd & Hin & Hmarks).
      destruct (dedup_scan mk (<[Z.to_nat k:=1]> seen) l) as [calls seen'].
      cbn [fst snd fmap list_fmap] in *.
      split; [|split].
      * constructor; [|exact Hnd]. rewrite Hin. tauto.
      * intros x. rewrite !elem_of_cons, Hin.
        destruct (decide (x = k)) as [->|Hne]; tauto.
      * destruct Hmarks as [Hlen Hm]. split; [exact Hlen|].
        intros x Hx. rewrite (Hm x Hx), elem_of_cons. tauto.
    + assert (HPk : P k).
      { destruct Hseen as [_ Hm]. apply (Hm k Hk). lia. }
      destruct (IH seen P Hseen) as (Hnd & Hin & Hmarks).
      split; [exact Hnd|]. split; [|exact Hmarks].
      intros x. rewrite Hin, elem_of_cons.
      split; [tauto|]. intros [[->|Hx] [Hd HP]]; tauto.
Qed.

Lemma bt_range_keys t lo hi k :
  k ∈ (bt_range t lo hi).*1 <-> lo <= k <= hi /\ k ∈ dom (bt_entries t).
Proof.
  unfold bt_range. rewrite merge_sort_Permutation.
  rewrite list_elem_of_fmap. split.
  - intros ([k' v] & -> & Hin). apply list_elem_of_filter in Hin as [Hr Hin].
    apply elem_of_map_to_list in Hin. split; [exact Hr|].
    now apply elem_of_dom_2 in Hin.
  - intros [Hr [v Hv]%elem_of_dom]. exists (k, v). split; [reflexivity|].
    apply list_elem_of_filter. split; [exact Hr|].
    now apply elem_of_map_to_list.
Qed.

Lemma once_of_NoDup (l : list (BTKey * BTPayload)) k :
  NoDup l.*1 -> k ∈ l.*1 ->
  length (filter (fun p => p.1 = k) l) = 1%nat.
Proof.
  induction l as [|[k' v] l IH]; cbn [fmap list_fmap fst].
  - intros _ Hin. now apply elem_of_nil in Hin.
  - intros Hnd Hin. apply NoDup_cons in Hnd as [Hk' Hnd].
    rewrite filter_cons. cbn [fst].
    destruct (decide (k' = k)) as [->|Hne].
    + cbn [length]. f_equal.
      clear IH Hin Hnd. induction l as [|[k'' v'] l IH]; [reflexivity|].
      cbn [fmap list_fmap fst] in Hk'. apply not_elem_of_cons in Hk' as [? ?].
      rewrite filter_cons. cbn [fst].
      destruct (decide (k'' = k)); [congruence|]. now apply IH.
    + apply IH; [exact Hnd|].
      apply elem_of_cons in Hin as [?|?]; [congruence|assumption].
Qed.

(** C5: for every interval the callback invocations of [hc_range_search]
    are a list [calls], the same for every callback, in which no key
    occurs twice and whose keys are the keys of either tier that lie in
    the interval and in the domain; so every key of the cold tier in
    [lo, hi] ∩ [0, max_key] is emitted exactly once, whether or not it is
    in the hot tier. *)
Theorem C5_range_dedup idx lo hi :
  exists calls : list (BTKey * BTPayload),
    (forall (U : Type) (cb : BTKey -> BTPayload -> U -> U) (arg : U),
       (hc_range_search idx lo hi cb arg).2
       = foldl (fun a p => cb p.1 p.2 a) arg calls) /\
    NoDup calls.*1 /\
    (forall k, k ∈ calls.*1 <->
               lo <= k <= hi /\ 0 <= k <= max_key idx /\
               (k ∈ dom (bt_entries (hot idx)) \/
                k ∈ dom (bt_entries (cold idx)))) /\
    (forall k, lo <= k <= hi -> 0 <= k <= max_key idx ->
               k ∈ dom (bt_entries (cold idx)) ->
               length (filter (fun p => p.1 = k) calls) = 1%nat) /\
    (key_inclusion idx ->
     forall k, k ∈ calls.*1 <->
               lo <= k <= hi /\ 0 <= k <= max_key idx /\
               k ∈ dom (bt_entries (cold idx))).
Proof.
  set (mk := max_key idx).
  set (seen0 := replicate (Z.to_nat (mk + 1)) 0).
  set (r1 := dedup_scan mk seen0 (bt_range (hot idx) lo hi)).
  set (r2 := dedup_scan mk r1.2 (bt_range (cold idx) lo hi)).
  destruct (dedup_scan_spec mk (bt_range (hot idx) lo hi) seen0 _
              (seen_marks_fresh mk)) as (Hnd1 & Hin1 & Hm1).
  destruct (dedup_scan_spec mk (bt_range (cold idx) lo hi) r1.2 _ Hm1)
    as (Hnd2 & Hin2 & _).
  fold r1 in Hnd1, Hin1, Hin2. fold r2 in Hnd2, Hin2.
  assert (Hkeys : forall k, k ∈ (r1.1 ++ r2.1).*1 <->
            lo <= k <= hi /\ 0 <= k <= max_key idx /\
            (k ∈ dom (bt_entries (hot idx)) \/
             k ∈ dom (bt_entries (cold idx)))).
  { intros k. rewrite fmap_app, elem_of_app, Hin2, Hin1, !bt_range_keys.
    fold mk. destruct (decide (k ∈ dom (bt_entries (hot idx)))); tauto. }
  assert (Hnd : NoDup (r1.1 ++ r2.1).*1).
  { rewrite fmap_app. apply NoDup_app. split; [exact Hnd1|].
    split; [|exact Hnd2]. intros k Hk1 Hk2. apply Hin2 in Hk2. tauto. }
  exists (r1.1 ++ r2.1). split; [|split; [exact Hnd|split; [exact Hkeys|]]].
  - intros U cb arg. unfold hc_range_search, bt_range_search. cbv zeta.
    rewrite fold_range_cb_hot. cbn [user_cb user_arg seen ctx_idx].
    rewrite fold_range_cb_cold. cbn [user_cb user_arg seen ctx_idx snd].
    rewrite foldl_app. reflexivity.
  - split.
    + intros k Hr Hd Hc. apply once_of_NoDup; [exact Hnd|].
      apply Hkeys. tauto.
    + intros Hincl k. rewrite Hkeys. unfold key_inclusion in Hincl.
      split; [|tauto]. intros (? & ? & [Hh|Hc]); auto.
Qed.

(** ** The domain bound *)

Lemma step_hit_score_length idx c :
  length (hit_score (hc_step idx c)) = length (hit_score idx).
Proof.
  destruct c as [k v|k u|lo hi|]; unfold hc_step, hc_run.
  - destruct (insert_cases idx k v) as [[_ ->]|[_ ->]]; reflexivity.
  - pose proof (search_hit_score_length idx k u).
    destruct (hc_search idx k u); assumption.
  - reflexivity.
  - reflexivity.
Qed.

Lemma keys_in_domain_step idx c :
  keys_in_domain idx -> keys_in_domain (hc_step idx c).
Proof.
  unfold keys_in_domain. intros H x. rewrite step_max_key.
  destruct (step_hot_cases idx c)
    as [Hh|(k & v & _ & _ & Hdom & _ & Hcold & Hh)]; rewrite Hh.
  - destruct (step_cold_cases idx c) as [Hc|(k & v & _ & Hdom & _ & Hc)];
      rewrite Hc; [apply H|].
    rewrite bt_entries_insert, dom_insert_L. apply in_domain_spec in Hdom.
    intros [Hx|[->%elem_of_singleton|Hx]%elem_of_union]%elem_of_union;
      [| exact Hdom |]; apply H, elem_of_union; auto.
  - rewrite Hcold, bt_entries_insert, dom_insert_L.
    apply in_domain_spec in Hdom.
    intros [[->%elem_of_singleton|Hx]%elem_of_union|Hx]%elem_of_union;
      [exact Hdom | |]; apply H, elem_of_union; auto.
Qed.

(** The domain bound: in every reachable state the keys of both tiers
    lie in [0, max_key] and the score array has [max_key + 1] slots. *)
Theorem reachable_domain_bound idx :
  reachable idx -> keys_in_domain idx /\ score_array_ok idx.
Proof.
  intros H. induction H as [mk deg p|idx c _ [IHk IHs] _].
  - split.
    + intros k Hk. simpl in Hk. rewrite !bt_entries_create in Hk.
      apply elem_of_union in Hk as [Hk|Hk];
        now rewrite dom_empty_L in Hk; apply not_elem_of_empty in Hk.
    + apply length_replicate.
  - split; [now apply keys_in_domain_step|].
    unfold score_array_ok in *.
    now rewrite step_hit_score_length, step_max_key.
Qed.

(** * Further properties of the operations *)

(** ** Induction over the reachable states *)

Lemma reachable_inv (P : HCIndex -> Prop) :
  (forall max_key degree params, P (hc_create max_key degree params)) ->
  (forall idx c, reachable idx -> P idx -> P (hc_step idx c)) ->
  forall idx, reachable idx -> P idx.
Proof.
  intros Hcreate Hstep idx H.
  induction H as [mk deg p|idx c H IH _]; [apply Hcreate|now apply Hstep].
Qed.

Lemma reachable_key_inclusion idx : reachable idx -> key_inclusion idx.
Proof.
  apply reachable_inv.
  - apply key_inclusion_create.
  - intros i c _. apply key_inclusion_step.
Qed.

Lemma reachable_keys_in_domain idx : reachable idx -> keys_in_domain idx.
Proof.
  apply reachable_inv.
  - intros mk deg p k Hk. simpl in Hk. rewrite !bt_entries_create in Hk.
    apply elem_of_union in Hk as [Hk|Hk];
      now rewrite dom_empty_L in Hk; apply not_elem_of_empty in Hk.
  - intros i c _. apply keys_in_domain_step.
Qed.

(** ** The gates of a promotion *)

Lemma maybe_promote_spec idx k u :
  maybe_promote idx k u
  = if inclusive (params idx)
       && negb (clamp01 (sampling_rate (params idx)) <? u)%float
       && negb (at_capacity idx)
       && ((bt_search (hot idx) k).1 =? NULL)
       && negb ((bt_search (cold idx) k).1 =? NULL)
    then set_hot idx (bt_insert (hot idx) k (bt_search (cold idx) k).1)
    else idx.
Proof.
  unfold maybe_promote, bt_search. cbn [fst snd].
  destruct (inclusive (params idx)); [|reflexivity].
  destruct (clamp01 (sampling_rate (params idx)) <? u)%float; [reflexivity|].
  destruct (at_capacity idx); [reflexivity|].
  destruct (default NULL (bt_entries (hot idx) !! k) =? NULL);
    [|reflexivity].
  now destruct (default NULL (bt_entries (cold idx) !! k) =? NULL).
Qed.

Lemma promote_adapter_state idx k u :
  last_q_for_adapt (maybe_promote idx k u) = last_q_for_adapt idx /\
  last_cost (maybe_promote idx k u) = last_cost idx /\
  last_D (maybe_promote idx k u) = last_D idx.
Proof.
  destruct (maybe_promote_cases idx k u) as [->|(v & _ & _ & _ & _ & _ & ->)];
    now repeat split.
Qed.

Lemma search_hot_spec idx k u :
  hot (hc_search idx k u).2
  = if promotes idx k u
    then bt_insert (hot idx) k (bt_search (cold idx) k).1
    else hot idx.
Proof.
  unfold promotes. cbv zeta. rewrite !bt_search_payload.
  search_cases idx k.
  - apply negb_true_iff in Ehot. rewrite Ehot. simpl. now rewrite adapt_hot.
  - apply negb_false_iff in Ehot. rewrite Ehot.
    apply andb_true_iff in Epromote as [Hdom Hthr]. rewrite Hdom, Hthr.
    cbn [andb negb]. rewrite maybe_promote_spec.
    set (idx1 := hc_maybe_adapt_sampling _).
    assert (Hh : hot idx1 = hot idx) by (unfold idx1; now rewrite adapt_hot).
    assert (Hc : cold idx1 = cold idx)
      by (unfold idx1; now rewrite adapt_cold).
    assert (Hm : max_key idx1 = max_key idx)
      by (unfold idx1; now rewrite adapt_max_key).
    assert (Hf : max_hot_fraction (params idx1) = max_hot_fraction (params idx))
      by (unfold idx1; now rewrite adapt_max_hot_fraction).
    assert (Hi : inclusive (params idx1) = inclusive (params idx))
      by (unfold idx1; now rewrite adapt_inclusive).
    unfold at_capacity, hot_capacity, bt_search. simpl.
    rewrite Hh, Hc, Hm, Hf, Hi, Ehot, Ecold.
    destruct (inclusive (params idx)); [|simpl; exact Hh]. cbn [andb].
    destruct (negb (clamp01 (sampling_rate (params idx1)) <? u)%float);
      [|simpl; exact Hh]. cbn [andb].
    destruct (negb (_ <=? _)%float); simpl; [reflexivity|exact Hh].
  - apply negb_false_iff in Ehot. rewrite Ehot. cbn [andb].
    rewrite Epromote. simpl. now rewrite adapt_hot.
  - apply negb_false_iff in Ehot. rewrite Ehot. simpl. now rewrite adapt_hot.
Qed.

(** The hot tier after a search: the searched key is added, with the
    payload of the cold tier, exactly when all gates of the promotion are
    passed; otherwise the hot tier is as it was.  In particular no key is
    promoted on a hot hit or a miss, outside the domain, below the
    threshold, in non-inclusive mode, when sampled out, or at capacity. *)
Theorem promotion_iff idx k u :
  hot (hc_search idx k u).2
  = (if promotes idx k u
     then bt_insert (hot idx) k (bt_search (cold idx) k).1
     else hot idx) /\
  (promotes idx k u = true ->
   (bt_search (hot idx) k).1 = NULL /\
   (bt_search (cold idx) k).1 ≠ NULL /\
   in_domain idx k = true /\
   (hot_threshold (params idx) <=? decayed_score idx k)%float = true /\
   inclusive (params idx) = true /\
   at_capacity idx = false).
Proof.
  split; [apply search_hot_spec|].
  unfold promotes. cbv zeta. intros H.
  repeat (apply andb_true_iff in H as [H ?]).
  repeat split; try assumption.
  - now apply Z.eqb_eq.
  - apply Z.eqb_neq. now apply negb_true_iff.
  - now apply negb_true_iff.
Qed.

(** ** The counters *)

Lemma search_stats idx k u :
  stats (hc_search idx k u).2
  = let st2 :=
      add_hot_node_visits (incr_queries (stats idx))
        (search_visits (hot idx) k) in
    let st3 := add_cold_node_visits st2 (search_visits (cold idx) k) in
    if negb ((bt_search (hot idx) k).1 =? NULL) then incr_hot_hits st2
    else if negb ((bt_search (cold idx) k).1 =? NULL) then incr_cold_hits st3
    else incr_not_found st3.
Proof.
  cbv zeta. rewrite !bt_search_payload.
  search_cases idx k; rewrite ?promote_stats; reflexivity.
Qed.

Lemma step_stats idx c :
  (exists k u, c = CallSearch k u /\
               stats (hc_step idx c) = stats (hc_search idx k u).2) \/
  is_search c = false /\
  queries (stats (hc_step idx c)) = queries (stats idx) /\
  hot_hits (stats (hc_step idx c)) = hot_hits (stats idx) /\
  cold_hits (stats (hc_step idx c)) = cold_hits (stats idx) /\
  not_found (stats (hc_step idx c)) = not_found (stats idx).
Proof.
  destruct c as [k v|k u|lo hi|]; unfold hc_step, hc_run.
  - right. destruct (insert_cases idx k v) as [[_ ->]|[_ ->]];
      now repeat split.
  - left. exists k, u. split; [reflexivity|].
    now destruct (hc_search idx k u).
  - right. now repeat split.
  - right. now repeat split.
Qed.

Lemma step_queries idx c :
  queries (stats (hc_step idx c))
  = queries (stats idx) + (if is_search c then 1 else 0).
Proof.
  destruct (step_stats idx c) as [(k & u & -> & ->)|(-> & -> & _)]; [|lia].
  rewrite search_stats. cbv zeta.
  destruct (negb _); [reflexivity|]. now destruct (negb _).
Qed.

(** [queries] counts the searches and nothing else: after any sequence
    of calls it has grown by the number of [hc_search] calls among them. *)
Theorem queries_count_searches idx cs :
  queries (stats (hc_steps idx cs))
  = queries (stats idx) + count_searches cs.
Proof.
  revert idx. induction cs as [|c cs IH]; intros idx; [simpl; lia|].
  change (hc_steps idx (c :: cs)) with (hc_steps (hc_step idx c) cs).
  rewrite IH, step_queries. cbn [count_searches]. lia.
Qed.

Lemma stats_balanced_step idx c :
  stats_balanced (stats idx) -> stats_balanced (stats (hc_step idx c)).
Proof.
  unfold stats_balanced. intros H.
  destruct (step_stats idx c)
    as [(k & u & -> & ->)|(_ & -> & -> & -> & ->)]; [|exact H].
  rewrite search_stats. cbv zeta.
  destruct (negb _); [simpl; lia|]. destruct (negb _); simpl; lia.
Qed.

(** In every reachable state each query is accounted for exactly once:
    [queries = hot_hits + cold_hits + not_found], as [hc_get_stats]
    reports them, and no counter is negative. *)
Theorem stats_accounting idx :
  reachable idx ->
  queries (hc_get_stats idx)
  = hot_hits (hc_get_stats idx) + cold_hits (hc_get_stats idx)
    + not_found (hc_get_stats idx) /\
  0 <= hot_hits (hc_get_stats idx) /\
  0 <= cold_hits (hc_get_stats idx) /\
  0 <= not_found (hc_get_stats idx).
Proof.
  intros H. change (stats_balanced (stats idx)). revert idx H.
  apply reachable_inv.
  - intros mk deg p. unfold stats_balanced. simpl. lia.
  - intros idx c _. apply stats_balanced_step.
Qed.

(** ** What the hot tier holds *)

Lemma steps_inv (P : HCIndex -> Prop) :
  (forall idx c, P idx -> P (hc_step idx c)) ->
  forall cs idx, P idx -> P (hc_steps idx cs).
Proof.
  intros Hstep cs. induction cs as [|c cs IH]; intros idx H; [exact H|].
  apply IH, Hstep, H.
Qed.

Lemma step_search idx k u :
  hc_step idx (CallSearch k u) = (hc_search idx k u).2.
Proof. unfold hc_step, hc_run. now destruct (hc_search idx k u). Qed.

(** A call changes the hot tier only by a promotion of a key that had
    no non-NULL payload there. *)
Lemma step_hot_probe idx c :
  hot (hc_step idx c) = hot idx \/
  exists k v, default NULL (bt_entries (hot idx) !! k) = NULL /\ v ≠ NULL /\
              hot (hc_step idx c) = bt_insert (hot idx) k v.
Proof.
  destruct c as [k v|k u|lo hi|].
  - left. unfold hc_step, hc_run.
    destruct (insert_cases idx k v) as [[_ ->]|[_ ->]]; reflexivity.
  - rewrite step_search, search_hot_spec.
    destruct (promotes idx k u) eqn:E; [|now left].
    right. exists k, (bt_search (cold idx) k).1.
    unfold promotes in E. cbv zeta in E.
    repeat (apply andb_true_iff in E as [E ?]).
    rewrite bt_search_payload in E. apply Z.eqb_eq in E.
    repeat split; [exact E|].
    apply Z.eqb_neq. now apply negb_true_iff.
  - now left.
  - now left.
Qed.

Lemma hot_payloads_set_step idx c :
  hot_payloads_set idx -> hot_payloads_set (hc_step idx c).
Proof.
  unfold hot_payloads_set. intros H k' w.
  destruct (step_hot_probe idx c) as [->|(k & v & _ & Hv & ->)]; [apply H|].
  rewrite bt_entries_insert.
  destruct (decide (k = k')) as [->|Hne].
  - rewrite lookup_insert_eq. congruence.
  - rewrite lookup_insert_ne by assumption. apply H.
Qed.

Lemma reachable_hot_payloads_set idx : reachable idx -> hot_payloads_set idx.
Proof.
  apply reachable_inv.
  - intros mk deg p k v Hk. simpl in Hk.
    rewrite bt_entries_create, lookup_empty in Hk. discriminate Hk.
  - intros i c _. apply hot_payloads_set_step.
Qed.

(** In every reachable state no hot entry has a NULL payload, and a call
    never removes or overwrites a hot entry: the hot tier after the call
    holds every entry it held before, and at most one more. *)
Theorem hot_entries_persist idx c :
  reachable idx ->
  hot_payloads_set idx /\
  bt_entries (hot idx) ⊆ bt_entries (hot (hc_step idx c)) /\
  bt_count_keys (hot (hc_step idx c)) <= bt_count_keys (hot idx) + 1.
Proof.
  intros H. pose proof (reachable_hot_payloads_set idx H) as Hset.
  split; [exact Hset|].
  destruct (step_hot_probe idx c) as [->|(k & v & Hk & _ & ->)].
  - split; [reflexivity|lia].
  - assert (Hnone : bt_entries (hot idx) !! k = None).
    { destruct (bt_entries (hot idx) !! k) as [w|] eqn:E; [|reflexivity].
      simpl in Hk. subst w. now apply Hset in E. }
    rewrite bt_entries_insert. split; [now apply insert_subseteq|].
    unfold bt_count_keys. rewrite bt_entries_insert.
    rewrite map_size_insert_None by exact Hnone. lia.
Qed.

(** ** Reading back what was inserted *)

Lemma search_returns_cold idx k u :
  entry_inclusion idx ->
  (hc_search idx k u).1 = (bt_search (cold idx) k).1.
Proof.
  intros Hincl. rewrite bt_search_payload, hc_search_eq. cbv zeta.
  destruct (bt_entries (hot idx) !! k) as [w|] eqn:Eh.
  - rewrite (Hincl k w Eh). simpl.
    destruct (negb (w =? NULL)) eqn:Ew; [reflexivity|].
    apply negb_false_iff, Z.eqb_eq in Ew. now rewrite Ew.
  - simpl.
    destruct (negb (default NULL (bt_entries (cold idx) !! k) =? NULL))
      eqn:Ec; simpl; [reflexivity|].
    apply negb_false_iff, Z.eqb_eq in Ec. now rewrite Ec.
Qed.

Lemma reachable_by_entry_inclusion idx :
  reachable_by keeps_hot_payloads idx -> entry_inclusion idx.
Proof.
  intros H. induction H as [mk deg p|idx c _ IH Hok].
  - intros k v Hk. exact Hk.
  - now apply entry_inclusion_step.
Qed.

(** ** The inclusion invariant, key by key *)

Lemma hc_steps_snoc idx cs c :
  hc_steps idx (cs ++ [c]) = hc_step (hc_steps idx cs) c.
Proof. unfold hc_steps. now rewrite foldl_app. Qed.

Lemma last_insert_snoc k cs c : forall d,
  last_insert k (cs ++ [c]) d
  = match c with
    | CallInsert k' w => if k' =? k then w else last_insert k cs d
    | _ => last_insert k cs d
    end.
Proof.
  induction cs as [|c' cs IH]; intros d.
  - now destruct c.
  - destruct c'; cbn [app last_insert]; apply IH.
Qed.

Lemma last_insert_same k v cs :
  (forall w, CallInsert k w ∈ cs -> w = v) -> last_insert k cs v = v.
Proof.
  induction cs as [|c cs IH]; intros H; [reflexivity|].
  assert (Hcs : forall w, CallInsert k w ∈ cs -> w = v)
    by (intros w Hw; apply H, elem_of_cons; now right).
  destruct c as [k' w|k' u|lo hi|]; cbn [last_insert]; try now apply IH.
  destruct (k' =? k) eqn:E; [|now apply IH].
  apply Z.eqb_eq in E. subst k'.
  rewrite (H w) by (apply elem_of_cons; now left). now apply IH.
Qed.

Lemma hot_lookup_in_domain idx k v :
  reachable idx -> bt_entries (hot idx) !! k = Some v ->
  in_domain idx k = true.
Proof.
  intros H Hk. apply in_domain_spec, (reachable_keys_in_domain idx H).
  apply elem_of_union. left. now apply elem_of_dom_2 in Hk.
Qed.

(** A reachable state is the result of a sequence of calls on a fresh
    index. *)
Lemma reachable_trace idx :
  reachable idx ->
  exists max_key degree p cs, idx = hc_steps (hc_create max_key degree p) cs.
Proof.
  intros H. induction H as [mk deg p|idx c _ (mk & deg & p & cs & ->) _].
  - now exists mk, deg, p, [].
  - exists mk, deg, p, (cs ++ [c]). now rewrite hc_steps_snoc.
Qed.

(** Every entry of the hot tier was put there by one search of its key,
    which copied the payload that the cold tier held then; the cold tier
    holds since what the later insertions of that key made of it. *)
Lemma promotion_history max_key degree p cs : forall k v,
  bt_entries (hot (hc_steps (hc_create max_key degree p) cs)) !! k = Some v ->
  exists cs1 u cs2,
    cs = cs1 ++ CallSearch k u :: cs2 /\
    bt_entries (hot (hc_steps (hc_create max_key degree p) cs1)) !! k = None /\
    bt_entries (cold (hc_steps (hc_create max_key degree p) cs1)) !! k
    = Some v /\
    bt_entries
      (hot (hc_step (hc_steps (hc_create max_key degree p) cs1)
              (CallSearch k u))) !! k = Some v /\
    bt_entries (cold (hc_steps (hc_create max_key degree p) cs)) !! k
    = Some (last_insert k cs2 v).
Proof.
  induction cs as [|c cs IH] using rev_ind; intros k v Hk.
  { cbn in Hk. rewrite bt_entries_create, lookup_empty in Hk.
    discriminate Hk. }
  rewrite hc_steps_snoc in Hk |- *.
  set (idx := hc_steps (hc_create max_key degree p) cs) in *.
  assert (Hreach : reachable idx)
    by apply reachable_steps, reachable_create.
  assert (Hold : forall cold',
             bt_entries (hot idx) !! k = Some v ->
             (forall d, bt_entries (cold idx) !! k = Some d ->
                        bt_entries cold' !! k
                        = Some (match c with
                                | CallInsert k' w => if k' =? k then w else d
                                | _ => d
                                end)) ->
             exists cs1 u cs2,
               cs ++ [c] = cs1 ++ CallSearch k u :: cs2 /\
               bt_entries (hot (hc_steps (hc_create max_key degree p) cs1))
                 !! k = None /\
               bt_entries (cold (hc_steps (hc_create max_key degree p) cs1))
                 !! k = Some v /\
               bt_entries
                 (hot (hc_step (hc_steps (hc_create max_key degree p) cs1)
                         (CallSearch k u))) !! k = Some v /\
               bt_entries cold' !! k = Some (last_insert k cs2 v)).
  { intros cold' Hhot Hcold.
    destruct (IH k v Hhot) as (cs1 & u & cs2 & -> & H1 & H2 & H3 & H4).
    exists cs1, u, (cs2 ++ [c]). repeat split; try assumption.
    - now rewrite <- app_assoc.
    - rewrite (Hcold _ H4), last_insert_snoc. now destruct c. }
  destruct c as [k' w|k' u|lo hi|].
  - unfold hc_step, hc_run in Hk |- *.
    destruct (insert_cases idx k' w) as [[Hdom E]|[Hdom E]];
      rewrite E in Hk |- *; cbn [fst hot cold set_cold] in Hk |- *;
      apply Hold; try assumption; intros d Hd.
    + destruct (k' =? k) eqn:Ek; [|exact Hd].
      apply Z.eqb_eq in Ek. subst k'.
      rewrite (hot_lookup_in_domain idx k v Hreach Hk) in Hdom.
      discriminate Hdom.
    + rewrite bt_entries_insert.
      destruct (k' =? k) eqn:Ek.
      * apply Z.eqb_eq in Ek. subst k'. now rewrite lookup_insert_eq.
      * apply Z.eqb_neq in Ek. now rewrite lookup_insert_ne.
  - rewrite step_search in Hk |- *. rewrite search_cold.
    rewrite search_hot_spec in Hk.
    destruct (promotes idx k' u) eqn:Ep;
      [|apply Hold; [exact Hk|now intros d Hd]].
    rewrite bt_entries_insert in Hk.
    destruct (decide (k' = k)) as [->|Hne];
      [|rewrite lookup_insert_ne in Hk by exact Hne;
        apply Hold; [exact Hk|now intros d Hd]].
    rewrite lookup_insert_eq in Hk. injection Hk as Hv.
    assert (Hnew : bt_entries (hot (hc_step idx (CallSearch k u))) !! k
                   = Some v)
      by (rewrite step_search, search_hot_spec, Ep, bt_entries_insert,
            lookup_insert_eq; f_equal; exact Hv).
    unfold promotes in Ep. cbv zeta in Ep.
    repeat (apply andb_true_iff in Ep as [Ep ?]).
    rewrite bt_search_payload in Ep. change (default NULL (bt_entries (cold idx) !! k) = v) in Hv.
    apply Z.eqb_eq in Ep.
    assert (Hcold : default NULL (bt_entries (cold idx) !! k) ≠ NULL).
    { match goal with
      | H : negb ((bt_search (cold idx) k).1 =? NULL) = true |- _ =>
          rewrite bt_search_payload in H;
          apply Z.eqb_neq; now apply negb_true_iff
      end. }
    assert (Ec : bt_entries (cold idx) !! k = Some v).
    { destruct (bt_entries (cold idx) !! k) as [w|];
        [cbn in Hv; now subst w|now cbn in Hcold]. }
    exists cs, u, []. fold idx.
    split; [reflexivity|].
    split; [|split; [exact Ec|split; [exact Hnew|exact Ec]]].
    destruct (bt_entries (hot idx) !! k) as [w|] eqn:Eh; [|reflexivity].
    cbn in Ep. subst w.
    now apply (reachable_hot_payloads_set idx Hreach) in Eh.
  - apply Hold; [exact Hk|now intros d Hd].
  - apply Hold; [exact Hk|now intros d Hd].
Qed.

(** C1 (amended): in every reachable state every key of the hot tier is
    a key of the cold tier.  Whatever sequence of calls led to the state,
    the hot payload of a key is the payload the cold tier held when a
    search of the key promoted it, and the cold tier holds since the
    payload of the last insertion of that key, if there was one: the two
    payloads of a key are identical as long as no [hc_insert] inserts
    that key again with another payload, whatever happens to other keys.
    In particular every hot entry is a cold entry as long as no call
    inserts any hot key again with another payload. *)
Theorem C1_inclusion idx :
  reachable idx ->
  key_inclusion idx /\
  (reachable_by keeps_hot_payloads idx -> entry_inclusion idx) /\
  (exists max_key degree p cs,
     idx = hc_steps (hc_create max_key degree p) cs) /\
  forall max_key degree p cs,
    idx = hc_steps (hc_create max_key degree p) cs ->
    forall k v, bt_entries (hot idx) !! k = Some v ->
    exists cs1 u cs2,
      cs = cs1 ++ CallSearch k u :: cs2 /\
      bt_entries (hot (hc_steps (hc_create max_key degree p) cs1)) !! k
      = None /\
      bt_entries (cold (hc_steps (hc_create max_key degree p) cs1)) !! k
      = Some v /\
      bt_entries
        (hot (hc_step (hc_steps (hc_create max_key degree p) cs1)
                (CallSearch k u))) !! k = Some v /\
      bt_entries (cold idx) !! k = Some (last_insert k cs2 v) /\
      ((forall w, CallInsert k w ∈ cs2 -> w = v) ->
       bt_entries (cold idx) !! k = Some v).
Proof.
  intros H. split; [now apply reachable_key_inclusion|].
  split; [apply reachable_by_entry_inclusion|].
  split; [now apply reachable_trace|].
  intros mk deg p cs -> k v Hk.
  destruct (promotion_history mk deg p cs k v Hk)
    as (cs1 & u & cs2 & E & H1 & H2 & H3 & H4).
  exists cs1, u, cs2. repeat split; try assumption.
  intros Hsame. now rewrite H4, last_insert_same.
Qed.

(** ** Reading back through a search *)

(** Read your writes: in a state reached without re-inserting a key of
    the hot tier with another payload, a search returns the payload the
    cold tier holds for the key, that is the one inserted last, and NULL
    for a key that was never inserted. *)
Theorem search_reads_cold idx k u :
  reachable_by keeps_hot_payloads idx ->
  (hc_search idx k u).1 = default NULL (bt_entries (cold idx) !! k).
Proof.
  intros H. rewrite <- bt_search_payload.
  apply search_returns_cold. now apply reachable_by_entry_inclusion.
Qed.

Lemma step_insert idx k v :
  in_domain idx k = true ->
  hc_step idx (CallInsert k v) = set_cold idx (bt_insert (cold idx) k v).
Proof.
  intros Hdom. unfold hc_step, hc_run.
  destruct (insert_cases idx k v) as [[? _]|[_ ->]]; [congruence|reflexivity].
Qed.

(** Insert, then search: when every hot entry is a cold entry and the
    insertion does not give a key of the hot tier another payload, a
    search of the inserted key returns the inserted payload, and a search
    of any other key returns what it returned before. *)
Theorem insert_search_round_trip idx k v u :
  in_domain idx k = true ->
  entry_inclusion idx ->
  keeps_hot_payloads idx (CallInsert k v) ->
  (hc_search (hc_insert idx k v).1 k u).1 = v /\
  (forall j, j ≠ k ->
     (hc_search (hc_insert idx k v).1 j u).1 = (hc_search idx j u).1).
Proof.
  intros Hdom Hincl Hkeep.
  pose proof (entry_inclusion_step idx (CallInsert k v) Hkeep Hincl) as Hincl'.
  rewrite step_insert in Hincl' by exact Hdom.
  destruct (insert_cases idx k v) as [[? _]|[_ ->]]; [congruence|].
  cbn [fst]. split.
  - rewrite search_returns_cold by exact Hincl'.
    rewrite bt_search_payload. simpl.
    now rewrite bt_entries_insert, lookup_insert_eq.
  - intros j Hj. rewrite !search_returns_cold by assumption.
    rewrite !bt_search_payload. simpl.
    now rewrite bt_entries_insert, lookup_insert_ne by congruence.
Qed.

(** ** The score array *)

(** A call changes the score array only when it is a search of a key of
    the domain that hits, and then only in the slot of that key, which
    becomes [decay_alpha * old + 1.0]. *)
Theorem score_slot_frame idx c :
  hit_score (hc_step idx c) = hit_score idx \/
  exists k u, c = CallSearch k u /\ in_domain idx k = true /\
              (hc_search idx k u).1 ≠ NULL /\
              hit_score (hc_step idx c)
              = <[Z.to_nat k := decayed_score idx k]> (hit_score idx).
Proof.
  destruct c as [k v|k u|lo hi|].
  - left. unfold hc_step, hc_run.
    destruct (insert_cases idx k v) as [[_ ->]|[_ ->]]; reflexivity.
  - rewrite step_search, search_hit_score.
    destruct (negb (default NULL (bt_entries (hot idx) !! k) =? NULL)
              || negb (default NULL (bt_entries (cold idx) !! k) =? NULL))
      eqn:Ehit; [|now left].
    destruct (in_domain idx k) eqn:Edom; [|now left].
    right. exists k, u. repeat split; [exact Edom|].
    rewrite hc_search_eq. cbv zeta.
    destruct (negb (default NULL (bt_entries (hot idx) !! k) =? NULL))
      eqn:Eh; simpl.
    + apply Z.eqb_neq. now apply negb_true_iff.
    + simpl in Ehit. rewrite Ehit. simpl.
      apply Z.eqb_neq. now apply negb_true_iff.
  - now left.
  - now left.
Qed.

Lemma hit_in_cold idx k :
  key_inclusion idx ->
  negb (default NULL (bt_entries (hot idx) !! k) =? NULL)
  || negb (default NULL (bt_entries (cold idx) !! k) =? NULL) = true ->
  k ∈ dom (bt_entries (cold idx)).
Proof.
  intros Hincl [Eh|Ec]%orb_true_iff.
  - apply Hincl.
    destruct (bt_entries (hot idx) !! k) eqn:E; [now apply elem_of_dom_2 in E|].
    discriminate Eh.
  - destruct (bt_entries (cold idx) !! k) eqn:E; [now apply elem_of_dom_2 in E|].
    discriminate Ec.
Qed.

Lemma unseen_scores_zero_step idx c :
  key_inclusion idx ->
  unseen_scores_zero idx -> unseen_scores_zero (hc_step idx c).
Proof.
  intros Hincl H k Hk Hcold. rewrite step_max_key in Hk.
  assert (Hcold' : k ∉ dom (bt_entries (cold idx))).
  { destruct (step_cold_cases idx c) as [E|(j & v & _ & _ & _ & E)];
      rewrite E in Hcold; [exact Hcold|].
    rewrite bt_entries_insert, dom_insert_L in Hcold.
    intros Hin. apply Hcold, elem_of_union. now right. }
  destruct c as [j v|j u|lo hi|].
  - unfold hc_step, hc_run.
    destruct (insert_cases idx j v) as [[_ ->]|[_ ->]]; now apply H.
  - rewrite step_search, search_hit_score.
    destruct (negb (default NULL (bt_entries (hot idx) !! j) =? NULL)
              || negb (default NULL (bt_entries (cold idx) !! j) =? NULL))
      eqn:Ehit; [|now apply H].
    destruct (in_domain idx j) eqn:Edom; [|now apply H].
    assert (j ≠ k) by (intros ->; now apply Hcold', hit_in_cold).
    apply in_domain_spec in Edom.
    rewrite list_lookup_total_insert_ne by lia. now apply H.
  - now apply H.
  - now apply H.
Qed.

(** In every reachable state a key of the domain that was never inserted
    has score 0: misses leave no trace in the score array. *)
Theorem unseen_scores_stay_zero idx k :
  reachable idx ->
  0 <= k <= max_key idx ->
  k ∉ dom (bt_entries (cold idx)) ->
  hit_score idx !!! Z.to_nat k = 0%float.
Proof.
  intros H. revert k. change (unseen_scores_zero idx).
  induction H as [mk deg p|idx c H IH _].
  - intros k Hk _. simpl in *. apply lookup_total_replicate_2. lia.
  - apply unseen_scores_zero_step; [|exact IH].
    now apply reachable_key_inclusion.
Qed.

(** ** The three outcomes of a search *)

(** A hot hit returns the hot payload without probing the cold tier: the
    cold visit counter, the cold-hit and miss counters and both tiers are
    as before.  A miss in both tiers returns NULL, is charged the visits
    of both probes, counts as not found, and leaves both tiers and the
    score array as they were. *)
Theorem search_hit_and_miss idx k u :
  ((bt_search (hot idx) k).1 ≠ NULL ->
   (hc_search idx k u).1 = (bt_search (hot idx) k).1 /\
   hot (hc_search idx k u).2 = hot idx /\
   cold (hc_search idx k u).2 = cold idx /\
   stats (hc_search idx k u).2
   = incr_hot_hits
       (add_hot_node_visits (incr_queries (stats idx))
          (bt_search (hot idx) k).2.(node_visits))) /\
  ((bt_search (hot idx) k).1 = NULL ->
   (bt_search (cold idx) k).1 = NULL ->
   (hc_search idx k u).1 = NULL /\
   hot (hc_search idx k u).2 = hot idx /\
   cold (hc_search idx k u).2 = cold idx /\
   hit_score (hc_search idx k u).2 = hit_score idx /\
   stats (hc_search idx k u).2
   = incr_not_found
       (add_cold_node_visits
          (add_hot_node_visits (incr_queries (stats idx))
             (bt_search (hot idx) k).2.(node_visits))
          (bt_search (cold idx) k).2.(node_visits))).
Proof.
  split.
  - intros Hh. pose proof Hh as Hh'. apply Z.eqb_neq in Hh'.
    repeat split.
    + rewrite hc_search_eq. cbv zeta.
      rewrite bt_search_payload in Hh'. now rewrite Hh'.
    + rewrite search_hot_spec. unfold promotes. cbv zeta. now rewrite Hh'.
    + apply search_cold.
    + rewrite search_stats. cbv zeta. now rewrite Hh'.
  - intros Hh Hc. repeat split.
    + rewrite hc_search_eq. cbv zeta.
      rewrite bt_search_payload in Hh, Hc. now rewrite Hh, Hc.
    + rewrite search_hot_spec. unfold promotes. cbv zeta.
      now rewrite Hh, Hc.
    + apply search_cold.
    + rewrite search_hit_score.
      rewrite bt_search_payload in Hh, Hc. now rewrite Hh, Hc.
    + rewrite search_stats. cbv zeta. now rewrite Hh, Hc.
Qed.

(** ** A fresh index *)

Lemma range_search_calls {U : Type} idx lo hi
    (cb : BTKey -> BTPayload -> U -> U) (arg : U) :
  (hc_range_search idx lo hi cb arg).2
  = foldl (fun a p => cb p.1 p.2 a) arg (range_calls idx lo hi).
Proof.
  unfold hc_range_search, bt_range_search, range_calls, range_calls_cold,
    range_calls_hot. cbv zeta.
  rewrite fold_range_cb_hot. cbn [user_cb user_arg seen ctx_idx].
  rewrite fold_range_cb_cold. cbn [user_cb user_arg seen ctx_idx snd].
  now rewrite foldl_app.
Qed.

Lemma range_calls_keys idx lo hi k :
  k ∈ (range_calls idx lo hi).*1 <->
  lo <= k <= hi /\ 0 <= k <= max_key idx /\
  (k ∈ dom (bt_entries (hot idx)) \/ k ∈ dom (bt_entries (cold idx))).
Proof.
  unfold range_calls, range_calls_cold, range_calls_hot.
  destruct (dedup_scan_spec (max_key idx) (bt_range (hot idx) lo hi) _ _
              (seen_marks_fresh (max_key idx))) as (_ & Hin1 & Hm1).
  destruct (dedup_scan_spec (max_key idx) (bt_range (cold idx) lo hi) _ _ Hm1)
    as (_ & Hin2 & _).
  rewrite fmap_app, elem_of_app, Hin2, Hin1, !bt_range_keys.
  destruct (decide (k ∈ dom (bt_entries (hot idx)))); tauto.
Qed.

Lemma range_calls_nil idx lo hi :
  hi < lo \/ hi < 0 \/ max_key idx < lo -> range_calls idx lo hi = [].
Proof.
  intros H. destruct (range_calls idx lo hi) as [|[k v] l] eqn:E;
    [reflexivity|].
  assert (Hk : k ∈ (range_calls idx lo hi).*1)
    by (rewrite E; apply elem_of_cons; now left).
  apply range_calls_keys in Hk. lia.
Qed.

(** A range scan over an empty interval, or over an interval that misses
    the domain, never invokes the callback. *)
Theorem range_outside_emits_nothing {U : Type} idx lo hi
    (cb : BTKey -> BTPayload -> U -> U) (arg : U) :
  hi < lo \/ hi < 0 \/ max_key idx < lo ->
  (hc_range_search idx lo hi cb arg).2 = arg.
Proof.
  intros H. now rewrite range_search_calls, range_calls_nil.
Qed.

(** A fresh index is empty: every search misses, every range scan stays
    silent, and the statistics are zero, with the configured sampling
    rate. *)
Theorem fresh_index_is_empty {U : Type} max_key degree params k u lo hi
    (cb : BTKey -> BTPayload -> U -> U) (arg : U) :
  (hc_search (hc_create max_key degree params) k u).1 = NULL /\
  not_found (stats (hc_search (hc_create max_key degree params) k u).2) = 1 /\
  (hc_range_search (hc_create max_key degree params) lo hi cb arg).2 = arg /\
  hc_get_stats (hc_create max_key degree params)
  = {| queries := 0; hot_hits := 0; cold_hits := 0; not_found := 0;
       hot_node_visits := 0; cold_node_visits := 0;
       hot_keys := 0; cold_keys := 0;
       final_sampling_rate := sampling_rate params |}.
Proof.
  split; [|split; [|split; [|reflexivity]]].
  - rewrite hc_search_eq. cbv zeta. cbn [hot cold hc_create].
    now rewrite !bt_entries_create, !lookup_empty.
  - rewrite search_stats. cbv zeta. rewrite !bt_search_payload.
    cbn [hot cold hc_create].
    now rewrite !bt_entries_create, !lookup_empty.
  - rewrite range_search_calls.
    destruct (range_calls (hc_create max_key degree params) lo hi)
      as [|[j v] l] eqn:E; [reflexivity|].
    assert (Hj : j ∈ (range_calls (hc_create max_key degree params) lo hi).*1)
      by (rewrite E; apply elem_of_cons; now left).
    apply range_calls_keys in Hj as (_ & _ & [Hj|Hj]);
      simpl in Hj; rewrite bt_entries_create, dom_empty_L in Hj;
      now apply not_elem_of_empty in Hj.
Qed.

(** ** The order and the payloads of a range scan *)

Lemma dedup_scan_elem mk l : forall seen p,
  p ∈ (dedup_scan mk seen l).1 -> p ∈ l.
Proof.
  induction l as [|[k v] l IH]; intros seen p; cbn [dedup_scan].
  - cbn. now intros ?%elem_of_nil.
  - destruct ((k <? 0) || (mk <? k));
      [intros H; apply elem_of_cons; right; now apply (IH seen)|].
    destruct (seen !!! Z.to_nat k =? 0);
      [|intros H; apply elem_of_cons; right; now apply (IH seen)].
    specialize (IH (<[Z.to_nat k:=1]> seen) p).
    destruct (dedup_scan mk (<[Z.to_nat k:=1]> seen) l) as [calls seen'].
    cbn [fst] in *. intros [->|H]%elem_of_cons; apply elem_of_cons; auto.
Qed.

Lemma dedup_scan_sorted mk l : forall seen,
  StronglySorted key_le l -> StronglySorted key_le (dedup_scan mk seen l).1.
Proof.
  induction l as [|[k v] l IH]; intros seen Hs; cbn [dedup_scan].
  - constructor.
  - apply StronglySorted_inv in Hs as [Hs Hall].
    destruct ((k <? 0) || (mk <? k)); [now apply IH|].
    destruct (seen !!! Z.to_nat k =? 0); [|now apply IH].
    pose proof (IH (<[Z.to_nat k:=1]> seen) Hs) as IH'.
    pose proof (dedup_scan_elem mk l (<[Z.to_nat k:=1]> seen)) as Hel.
    destruct (dedup_scan mk (<[Z.to_nat k:=1]> seen) l) as [calls seen'].
    cbn [fst] in *. constructor; [exact IH'|].
    apply Forall_forall. intros p Hp.
    rewrite Forall_forall in Hall. apply Hall, Hel, Hp.
Qed.

Lemma bt_range_strongly_sorted t lo hi :
  StronglySorted key_le (bt_range t lo hi).
Proof.
  apply Sorted_StronglySorted; [|apply bt_range_sorted].
  intros p q r. unfold key_le. lia.
Qed.

Lemma bt_range_entries t lo hi k v :
  (k, v) ∈ bt_range t lo hi -> bt_entries t !! k = Some v.
Proof.
  unfold bt_range. rewrite merge_sort_Permutation.
  intros [_ Hin]%list_elem_of_filter. now apply elem_of_map_to_list in Hin.
Qed.

Lemma foldl_record_cb (l : list (BTKey * BTPayload)) : forall acc,
  foldl (fun a p => record_cb p.1 p.2 a) acc l = acc ++ l.
Proof.
  induction l as [|[k v] l IH]; intros acc; cbn [foldl].
  - now rewrite app_nil_r.
  - rewrite IH. unfold record_cb. cbn [fst snd].
    now rewrite <- app_assoc.
Qed.

(** The callback invocations of a range scan are not a merge of the two
    tiers: first come entries of the hot tier, in ascending key order,
    with the hot payloads; then entries of the cold tier whose keys are
    not in the hot tier, in ascending key order. *)
Theorem range_scan_order idx lo hi :
  exists c1 c2 : list (BTKey * BTPayload),
    (forall (U : Type) (cb : BTKey -> BTPayload -> U -> U) (arg : U),
       (hc_range_search idx lo hi cb arg).2
       = foldl (fun a p => cb p.1 p.2 a) arg (c1 ++ c2)) /\
    emitted (hc_run idx (CallRangeSearch lo hi)).2 = c1 ++ c2 /\
    StronglySorted key_le c1 /\
    StronglySorted key_le c2 /\
    (forall k v, (k, v) ∈ c1 -> bt_entries (hot idx) !! k = Some v) /\
    (forall k v, (k, v) ∈ c2 ->
       bt_entries (cold idx) !! k = Some v /\
       k ∉ dom (bt_entries (hot idx))).
Proof.
  exists (range_calls_hot idx lo hi).1, (range_calls_cold idx lo hi).
  split; [intros U cb arg; apply range_search_calls|].
  split.
  { unfold hc_run.
    pose proof (range_search_calls idx lo hi record_cb []) as E.
    destruct (hc_range_search idx lo hi record_cb []) as [idx' out].
    cbn [fst snd emitted] in *. now rewrite E, foldl_record_cb. }
  split; [apply dedup_scan_sorted, bt_range_strongly_sorted|].
  split; [apply dedup_scan_sorted, bt_range_strongly_sorted|].
  split.
  - intros k v Hin. apply dedup_scan_elem in Hin.
    now apply bt_range_entries in Hin.
  - intros k v Hin. split.
    + apply dedup_scan_elem in Hin. now apply bt_range_entries in Hin.
    + unfold range_calls_cold, range_calls_hot in Hin.
      destruct (dedup_scan_spec (max_key idx) (bt_range (hot idx) lo hi) _ _
                  (seen_marks_fresh (max_key idx))) as (_ & Hin1 & Hm1).
      destruct (dedup_scan_spec (max_key idx) (bt_range (cold idx) lo hi)
                  _ _ Hm1) as (_ & Hin2 & _).
      assert (Hk : k ∈ (dedup_scan (max_key idx)
                          (dedup_scan (max_key idx)
                             (replicate (Z.to_nat (max_key idx + 1)) 0)
                             (bt_range (hot idx) lo hi)).2
                          (bt_range (cold idx) lo hi)).1.*1).
      { apply list_elem_of_fmap. now exists (k, v). }
      apply Hin2 in Hk as (Hr & Hd & Hnot).
      intros Hhot. apply Hnot. right. apply Hin1.
      apply bt_range_keys in Hr as [Hr _].
      rewrite bt_range_keys. tauto.
Qed.

(** ** The key counts of the statistics *)

Lemma domain_keys_size idx : Z.of_nat (size (domain_keys idx))
                             = Z.max 0 (max_key idx + 1).
Proof.
  unfold domain_keys. rewrite size_list_to_set by apply NoDup_seqZ.
  rewrite length_seqZ. lia.
Qed.

(** In every reachable state the statistics report
    [0 <= hot_keys <= cold_keys <= max_key + 1] (0 for a negative
    [max_key + 1]). *)
Theorem stats_key_counts idx :
  reachable idx ->
  0 <= hot_keys (hc_get_stats idx) /\
  hot_keys (hc_get_stats idx) <= cold_keys (hc_get_stats idx) /\
  cold_keys (hc_get_stats idx) <= Z.max 0 (max_key idx + 1).
Proof.
  intros H. cbn [hc_get_stats hot_keys cold_keys]. unfold bt_count_keys.
  pose proof (reachable_key_inclusion idx H) as Hincl.
  pose proof (reachable_keys_in_domain idx H) as Hdom.
  split; [lia|]. split.
  - apply Nat2Z.inj_le. rewrite <- !size_dom.
    now apply subseteq_size.
  - rewrite <- domain_keys_size. apply Nat2Z.inj_le.
    rewrite <- size_dom. apply subseteq_size.
    intros k Hk. unfold domain_keys.
    apply elem_of_list_to_set, elem_of_seqZ.
    assert (0 <= k <= max_key idx)
      by (apply Hdom, elem_of_union; now right).
    lia.
Qed.

(** ** The configuration and the adapter state *)

Lemma adapt_fires idx :
  hc_maybe_adapt_sampling idx = idx \/
  adapt_sampling (params idx) = true /\
  MIN_DELTA_Q <= queries (stats idx) - last_q_for_adapt idx /\
  last_q_for_adapt (hc_maybe_adapt_sampling idx) = queries (stats idx) /\
  last_D (hc_maybe_adapt_sampling idx) = sampling_rate (params idx) /\
  last_cost (hc_maybe_adapt_sampling idx) = adapt_cost idx.
Proof.
  unfold hc_maybe_adapt_sampling.
  destruct (adapt_sampling (params idx)); [|now left]. simpl.
  destruct (queries (stats idx) - last_q_for_adapt idx <? MIN_DELTA_Q)
    eqn:E; [now left|].
  right. repeat split. lia.
Qed.

Lemma search_adapter_state idx k u :
  params (hc_search idx k u).2
  = params (hc_maybe_adapt_sampling
              (set_stats idx (incr_queries (stats idx)))) /\
  last_q_for_adapt (hc_search idx k u).2
  = last_q_for_adapt (hc_maybe_adapt_sampling
                        (set_stats idx (incr_queries (stats idx)))) /\
  last_cost (hc_search idx k u).2
  = last_cost (hc_maybe_adapt_sampling
                 (set_stats idx (incr_queries (stats idx)))) /\
  last_D (hc_search idx k u).2
  = last_D (hc_maybe_adapt_sampling
              (set_stats idx (incr_queries (stats idx)))).
Proof.
  split; [apply search_params|].
  search_cases idx k;
    try match goal with
        | |- context [maybe_promote ?i k u] =>
            destruct (promote_adapter_state i k u) as (-> & -> & ->)
        end; now repeat split.
Qed.

(** A call leaves the parameters and the adapter state alone unless it
    is a search that finds adaptation enabled and at least 5000 queries,
    itself included, since the adapter last acted. *)
Lemma step_adapter idx c :
  same_adapter idx (hc_step idx c) \/
  exists k u, c = CallSearch k u /\
    adapt_sampling (params idx) = true /\
    MIN_DELTA_Q <= queries (stats idx) + 1 - last_q_for_adapt idx /\
    last_q_for_adapt (hc_step idx c) = queries (stats idx) + 1 /\
    last_D (hc_step idx c) = sampling_rate (params idx).
Proof.
  unfold same_adapter. destruct c as [k v|k u|lo hi|].
  - left. unfold hc_step, hc_run.
    destruct (insert_cases idx k v) as [[_ ->]|[_ ->]]; now repeat split.
  - rewrite step_search.
    destruct (search_adapter_state idx k u) as (-> & -> & -> & ->).
    destruct (adapt_fires (set_stats idx (incr_queries (stats idx))))
      as [->|(Hon & Hq & -> & -> & _)].
    + left. now repeat split.
    + right. exists k, u. now repeat split.
  - left. now repeat split.
  - left. now repeat split.
Qed.

Lemma same_config_step idx0 idx c :
  same_config idx0 idx -> same_config idx0 (hc_step idx c).
Proof.
  unfold same_config. intros (Hm & Ha & Hd & Ht & Hf & Hi).
  rewrite step_max_key.
  destruct c as [k v|k u|lo hi|].
  - unfold hc_step, hc_run.
    destruct (insert_cases idx k v) as [[_ ->]|[_ ->]]; now repeat split.
  - rewrite step_search, search_params, adapt_adapt_sampling,
      adapt_decay_alpha, adapt_hot_threshold, adapt_max_hot_fraction,
      adapt_inclusive.
    now repeat split.
  - now repeat split.
  - now repeat split.
Qed.

(** No sequence of calls changes [max_key] or any parameter other than
    the sampling rate. *)
Theorem config_immutable idx cs : same_config idx (hc_steps idx cs).
Proof.
  apply (steps_inv (same_config idx)).
  - intros i c. apply same_config_step.
  - now repeat split.
Qed.

(** With adaptation disabled no sequence of calls changes the sampling
    rate, any other parameter, or the adapter state. *)
Theorem adapt_off_frozen idx cs :
  adapt_sampling (params idx) = false ->
  same_adapter idx (hc_steps idx cs).
Proof.
  intros Hoff.
  apply (steps_inv (fun i => same_adapter idx i)); [|now repeat split].
  unfold same_adapter. intros i c (Hp & Hq & Hc & HD).
  destruct (step_adapter i c)
    as [(Hp' & Hq' & Hc' & HD')|(k & u & _ & Hon & _)].
  - rewrite Hp', Hq', Hc', HD'. now repeat split.
  - rewrite Hp in Hon. congruence.
Qed.

Lemma adapter_window_step idx c :
  adapter_window_ok idx -> adapter_window_ok (hc_step idx c).
Proof.
  unfold adapter_window_ok. intros [Hle H0].
  pose proof (step_queries idx c) as Hq.
  destruct (step_adapter idx c)
    as [(_ & -> & _)|(k & u & -> & _ & Hwin & -> & _)].
  - split; [|exact H0]. destruct (is_search c); lia.
  - simpl in Hq. split; [lia|]. right. lia.
Qed.

(** The adapter acts at most once per 5000 queries.  In every reachable
    state it last acted at a query count that is 0 or at least 5000 and
    not beyond the current one; and a call changes the parameters or the
    adapter state only if it is a search that brings the query count to
    at least 5000 more than that, in which case the adapter records the
    new query count and the old sampling rate. *)
Theorem adapter_cadence idx c :
  reachable idx ->
  adapter_window_ok idx /\
  (same_adapter idx (hc_step idx c) \/
   exists k u, c = CallSearch k u /\
     adapt_sampling (params idx) = true /\
     MIN_DELTA_Q <= queries (stats idx) + 1 - last_q_for_adapt idx /\
     last_q_for_adapt (hc_step idx c) = queries (stats idx) + 1 /\
     last_D (hc_step idx c) = sampling_rate (params idx)).
Proof.
  intros H. split; [|apply step_adapter].
  revert idx H. apply reachable_inv.
  - intros mk deg p. split; [reflexivity|now left].
  - intros i c' _. apply adapter_window_step.
Qed.

(** The first adaptation, and any later one at which the sampling rate
    has not moved by 1e-9 since the previous one, follows the hot-hit
    ratio: the rate goes up by 0.05 when fewer than 0.6 of the queries
    were hot hits and down by 0.05 otherwise, is clamped to [0, 1], and the
    adapter records the old rate, the cost and the query count. *)
Theorem adapter_first_step idx :
  adapt_sampling (params idx) = true ->
  MIN_DELTA_Q <= queries (stats idx) - last_q_for_adapt idx ->
  last_q_for_adapt idx = 0 \/
  (abs (sampling_rate (params idx) - last_D idx) <? 1e-9)%float = true ->
  sampling_rate (params (hc_maybe_adapt_sampling idx))
  = clamp01 (move_D (sampling_rate (params idx))
               (hot_frac idx <? 0.6)%float) /\
  last_D (hc_maybe_adapt_sampling idx) = sampling_rate (params idx) /\
  last_cost (hc_maybe_adapt_sampling idx) = adapt_cost idx /\
  last_q_for_adapt (hc_maybe_adapt_sampling idx) = queries (stats idx).
Proof.
  intros Hon Hq Hcase.
  assert (E1 : (queries (stats idx) - last_q_for_adapt idx <? MIN_DELTA_Q)
               = false) by lia.
  unfold hc_maybe_adapt_sampling. rewrite Hon, E1. cbv zeta.
  cbn [negb sampling_rate params set_sampling_rate last_D last_cost
       last_q_for_adapt].
  repeat split. f_equal.
  destruct (last_q_for_adapt idx =? 0) eqn:E0; [reflexivity|].
  destruct Hcase as [H0|Hsmall]; [lia|]. now rewrite Hsmall.
Qed.

(** ** Non-inclusive mode *)

Lemma step_inclusive idx c :
  inclusive (params (hc_step idx c)) = inclusive (params idx).
Proof.
  assert (H : same_config idx idx) by now repeat split.
  now destruct (same_config_step idx idx c H) as (_ & _ & _ & _ & _ & ?).
Qed.

Lemma step_hot_noninclusive idx c :
  inclusive (params idx) = false -> hot (hc_step idx c) = hot idx.
Proof.
  intros Hoff. destruct c as [k v|k u|lo hi|]; try reflexivity.
  - unfold hc_step, hc_run.
    destruct (insert_cases idx k v) as [[_ ->]|[_ ->]]; reflexivity.
  - rewrite step_search, search_hot_spec.
    destruct (promotes idx k u) eqn:E; [|reflexivity].
    unfold promotes in E. cbv zeta in E.
    repeat (apply andb_true_iff in E as [E ?]). congruence.
Qed.

Lemma step_hot_hits_empty idx c :
  bt_entries (hot idx) = ∅ ->
  hot_hits (stats (hc_step idx c)) = hot_hits (stats idx).
Proof.
  intros Hempty.
  destruct (step_stats idx c) as [(k & u & -> & ->)|(_ & _ & -> & _)];
    [|reflexivity].
  rewrite search_stats. cbv zeta.
  rewrite (bt_search_payload (hot idx)), Hempty, lookup_empty. simpl.
  now destruct (negb _).
Qed.

(** When [inclusive] is off, promotion is silently disabled: after any
    sequence of calls on an index created in that mode the hot tier is
    empty, no search was a hot hit, and the statistics report no hot
    key. *)
Theorem noninclusive_hot_tier_unused max_key degree p cs :
  inclusive p = false ->
  bt_entries (hot (hc_steps (hc_create max_key degree p) cs)) = ∅ /\
  hot_hits (stats (hc_steps (hc_create max_key degree p) cs)) = 0 /\
  hot_keys (hc_get_stats (hc_steps (hc_create max_key degree p) cs)) = 0.
Proof.
  intros Hoff.
  pose (P := fun i : HCIndex =>
               inclusive (params i) = false /\
               bt_entries (hot i) = ∅ /\ hot_hits (stats i) = 0).
  assert (HP : P (hc_steps (hc_create max_key degree p) cs)).
  { apply (steps_inv P); [|now repeat split].
    intros i c (Hi & Hh & Hn). repeat split.
    - now rewrite step_inclusive.
    - now rewrite step_hot_noninclusive.
    - now rewrite step_hot_hits_empty. }
  destruct HP as (_ & Hh & Hn). repeat split; try assumption.
  cbn [hc_get_stats hot_keys]. unfold bt_count_keys.
  now rewrite Hh, map_size_empty.
Qed.

(** ** Writers of the cold tier *)

(** The cold tier has one writer: a call changes it only if it is an
    [hc_insert] of a key of the domain, which stores the pair in the cold
    tier and changes nothing else. *)
Theorem cold_tier_single_writer idx c :
  cold (hc_step idx c) = cold idx \/
  exists k v, c = CallInsert k v /\ in_domain idx k = true /\
              printed (hc_run idx c).2 = [] /\
              hc_step idx c = set_cold idx (bt_insert (cold idx) k v).
Proof.
  destruct c as [k v|k u|lo hi|].
  - unfold hc_step, hc_run.
    destruct (insert_cases idx k v) as [[_ ->]|[Hdom ->]]; [now left|].
    right. exists k, v. now repeat split.
  - left. rewrite step_search. apply search_cold.
  - now left.
  - now left.
Qed.

(** ** After a promotion *)

(** A promoted key is served from the hot tier: the search after the
    promotion is a hot hit that returns the promoted payload without
    probing the cold tier. *)
Theorem promoted_then_hot_hit idx k u u' :
  promotes idx k u = true ->
  (hc_search (hc_search idx k u).2 k u').1 = (hc_search idx k u).1 /\
  hot_hits (stats (hc_search (hc_search idx k u).2 k u').2)
  = hot_hits (stats (hc_search idx k u).2) + 1 /\
  cold_node_visits (stats (hc_search (hc_search idx k u).2 k u').2)
  = cold_node_visits (stats (hc_search idx k u).2) /\
  hot (hc_search (hc_search idx k u).2 k u').2 = hot (hc_search idx k u).2.
Proof.
  intros Hp.
  assert (Hgates : (bt_search (hot idx) k).1 = NULL /\
                   (bt_search (cold idx) k).1 ≠ NULL).
  { unfold promotes in Hp. cbv zeta in Hp.
    repeat (apply andb_true_iff in Hp as [Hp ?]).
    split; [now apply Z.eqb_eq|]. apply Z.eqb_neq. now apply negb_true_iff. }
  destruct Hgates as [Hhot Hcold].
  assert (Hret : (hc_search idx k u).1 = (bt_search (cold idx) k).1).
  { rewrite hc_search_eq. cbv zeta. rewrite bt_search_payload in Hhot, Hcold.
    rewrite Hhot. apply Z.eqb_neq in Hcold. now rewrite Hcold. }
  assert (Hnew : (bt_search (hot (hc_search idx k u).2) k).1
                 = (bt_search (cold idx) k).1).
  { rewrite search_hot_spec, Hp, bt_search_payload, bt_entries_insert.
    now rewrite lookup_insert_eq. }
  rewrite Hret. remember (hc_search idx k u).2 as idx' eqn:Eidx.
  assert (Hhit : negb ((bt_search (hot idx') k).1 =? NULL) = true).
  { rewrite Hnew. apply negb_true_iff. now apply Z.eqb_neq. }
  split; [|split; [|split]].
  - rewrite hc_search_eq. cbv zeta.
    rewrite bt_search_payload in Hhit, Hnew. now rewrite Hhit.
  - rewrite search_stats. cbv zeta. now rewrite Hhit.
  - rewrite search_stats. cbv zeta. now rewrite Hhit.
  - rewrite search_hot_spec. unfold promotes. cbv zeta.
    apply negb_true_iff in Hhit. now rewrite Hhit.
Qed.



End HCTree.

(** * The scenarios, evaluated *)

Ltac reach_by :=
  cbv delta [hc_steps foldl]; cbn beta iota;
  repeat (apply reachable_step;
          [|first [exact I
                  |let w := fresh in let Hw := fresh in
                   intros w Hw; vm_compute in Hw; congruence]]);
  apply reachable_create.

Lemma ex_half_reachable : reachable (L := ex_layout) ex_half.
Proof. apply reachable_steps, reachable_create. Qed.

Lemma ex_half_reachable_keeping :
  reachable_by (L := ex_layout) keeps_hot_payloads ex_half.
Proof. unfold ex_half. reach_by. Qed.

Lemma ex_two_hot_reachable : reachable (L := ex_layout) ex_two_hot.
Proof. apply reachable_steps, reachable_create. Qed.

Lemma C1_inclusion_witness :
  (key_inclusion ex_half /\ entry_inclusion ex_half) /\
  bt_entries (hot ex_two_hot) !! 42 = Some 65 /\
  bt_entries (cold ex_two_hot) !! 42 = Some 66 /\
  bt_entries (hot ex_two_hot) !! 7 = Some 70 /\
  exists cs1 u cs2,
    ex_two_hot_calls = cs1 ++ CallSearch 7 u :: cs2 /\
    bt_entries (cold ex_two_hot) !! 7 = Some (last_insert 7 cs2 70).
Proof.
  split.
  { destruct (C1_inclusion (L := ex_layout) ex_half ex_half_reachable)
      as (Hkeys & Hentries & _).
    split; [exact Hkeys|exact (Hentries ex_half_reachable_keeping)]. }
  split; [vm_compute; reflexivity|].
  split; [vm_compute; reflexivity|].
  assert (Hhot : bt_entries (hot ex_two_hot) !! 7 = Some 70)
    by (vm_compute; reflexivity).
  split; [exact Hhot|].
  destruct (C1_inclusion (L := ex_layout) ex_two_hot ex_two_hot_reachable)
    as (_ & _ & _ & Hhist).
  destruct (Hhist 99 4 (ex_params false 0.5 1 1) ex_two_hot_calls
              eq_refl 7 70 Hhot)
    as (cs1 & u & cs2 & E & _ & _ & _ & Hcold & _).
  exists cs1, u, cs2. split; [exact E|exact Hcold].
Defined.

(** C1, as stated, fails: after key 42 has been promoted with payload 65
    and inserted again with payload 66, the hot tier still holds 65 while
    the cold tier holds 66, and a search returns the hot payload. *)
Lemma C1_payload_counterexample :
  reachable (L := ex_layout) ex_reinsert /\
  bt_entries (hot ex_reinsert) !! 42 = Some 65 /\
  bt_entries (cold ex_reinsert) !! 42 = Some 66 /\
  (hc_search (L := ex_layout) ex_reinsert 42 0).1 = 65 /\
  ~ entry_inclusion ex_reinsert.
Proof.
  split; [apply reachable_steps, reachable_create|].
  repeat split; try (vm_compute; reflexivity).
  intros H. specialize (H 42 65). vm_compute in H.
  specialize (H eq_refl). discriminate H.
Qed.

Lemma C3_capacity_witness :
  capacity_inv ex_half /\
  dom (bt_entries (hot ex_half))
    ⊆ dom (bt_entries (hot (hc_step (L := ex_layout) ex_half (CallSearch 1 0)))).
Proof.
  destruct (C3_capacity (L := ex_layout) ex_half ex_half_reachable)
    as (Hinv & _ & Hgrow).
  split; [exact Hinv|apply Hgrow].
Defined.

(** C3, as stated, fails: with five keys in the domain and
    [max_hot_fraction = 0.5] the bound is 2.5, and three keys are
    promoted. *)
Lemma C3_bound_counterexample :
  reachable (L := ex_layout) ex_half /\
  bt_count_keys (hot ex_half) = 3 /\
  hot_capacity ex_half = 2.5%float /\
  within_capacity ex_half = false.
Proof.
  split; [apply reachable_steps, reachable_create|].
  repeat split; vm_compute; reflexivity.
Qed.

Lemma C2_domain_guard_witness :
  hc_step (L := ex_layout) ex_fresh (CallInsert 100 65) = ex_fresh /\
  hit_score (hc_step (L := ex_layout) ex_fresh (CallSearch 100 0))
  = hit_score ex_fresh.
Proof.
  destruct (C2_domain_guard (L := ex_layout) ex_fresh 100 eq_refl)
    as [Hinsert Hsearch].
  split; [apply (Hinsert 65)|apply (Hsearch 0%float)].
Defined.

(** C2, as stated, fails for [hc_search]: the search of key 100 in a
    domain 0..99 prints nothing and returns NULL, exactly what the search
    of the absent key 7 of the domain gives. *)
Lemma C2_search_counterexample :
  in_domain ex_fresh 100 = false /\
  ~ reports_OutOfRange (hc_run (L := ex_layout) ex_fresh (CallSearch 100 0)).2 /\
  (hc_run (L := ex_layout) ex_fresh (CallSearch 100 0)).2
  = (hc_run (L := ex_layout) ex_fresh (CallSearch 7 0)).2.
Proof.
  split; [reflexivity|]. split; [|vm_compute; reflexivity].
  intros (k & m & H).
  assert (E : printed (hc_run (L := ex_layout) ex_fresh (CallSearch 100 0)).2
              = []) by (vm_compute; reflexivity).
  rewrite E in H. now apply elem_of_nil in H.
Qed.

Lemma C4_promotion_witness :
  (hc_search (L := ex_layout) ex_one 42 0.3).1 = 65 /\
  hot (hc_search (L := ex_layout) ex_one 42 0.3).2
  = bt_insert (hot ex_one) 42 65 /\
  cold (hc_search (L := ex_layout) ex_one 42 0.3).2 = cold ex_one.
Proof.
  apply (C4_promotion_at_full_sampling (L := ex_layout) ex_one 42 65 0.3);
    [rewrite adapt_idle by (left; reflexivity); reflexivity
    |first [discriminate|vm_compute; reflexivity] ..].
Defined.

(** C4, as stated, fails: in [ex_adapt] the sampling rate is 1.0, the
    hot tier holds one key of a capacity of two, key 1 is in the cold
    tier only and its updated score 1.0 reaches the threshold 1.0; but the
    search is the 5000th query, the adapter lowers the rate to 0.95 before
    the promotion gate, and the draw 0.99 is sampled out. *)
Lemma C4_adaptation_counterexample :
  reachable (L := ex_layout) ex_adapt /\
  sampling_rate (params ex_adapt) = 1%float /\
  inclusive (params ex_adapt) = true /\
  (double_of_Z (bt_count_keys (hot ex_adapt)) <? hot_capacity ex_adapt)%float
  = true /\
  in_domain ex_adapt 1 = true /\
  bt_entries (cold ex_adapt) !! 1 = Some 66 /\
  bt_entries (hot ex_adapt) !! 1 = None /\
  (hot_threshold (params ex_adapt) <=? decayed_score ex_adapt 1)%float = true /\
  (0 <=? 0.99)%float = true /\ (0.99 <? 1)%float = true /\
  (hc_search (L := ex_layout) ex_adapt 1 0.99).1 = 66 /\
  bt_entries (hot (hc_search (L := ex_layout) ex_adapt 1 0.99).2) !! 1 = None /\
  sampling_rate (params (hc_search (L := ex_layout) ex_adapt 1 0.99).2)
  = 0.95%float.
Proof.
  split; [apply reachable_steps, reachable_create|].
  repeat split; vm_compute; reflexivity.
Qed.

Lemma C6_sampling_rate_witness :
  in01 (sampling_rate
          (params (hc_steps (L := ex_layout) ex_adapt [CallSearch 1 0.99])))
  = true.
Proof.
  apply (C6_sampling_rate_bounds (L := ex_layout)).
  vm_compute. reflexivity.
Defined.

Lemma C7_adapter_rule_witness :
  sampling_rate (params (hc_maybe_adapt_sampling ex_adapt_again))
  = clamp01 (move_D 0.95 false) /\
  last_D (hc_maybe_adapt_sampling ex_adapt_again) = 0.95%float /\
  last_q_for_adapt (hc_maybe_adapt_sampling ex_adapt_again) = 10000.
Proof.
  assert (H1 : adapt_sampling (params ex_adapt_again) = true)
    by (vm_compute; reflexivity).
  assert (H2 : MIN_DELTA_Q
               <= queries (stats ex_adapt_again)
                  - last_q_for_adapt ex_adapt_again)
    by (apply Z.leb_le; vm_compute; reflexivity).
  assert (H3 : last_q_for_adapt ex_adapt_again <> 0)
    by (apply Z.eqb_neq; vm_compute; reflexivity).
  assert (H4 : (1e-9 <=? abs (sampling_rate (params ex_adapt_again)
                              - last_D ex_adapt_again))%float = true)
    by (vm_compute; reflexivity).
  destruct (C7_adapter_rule ex_adapt_again H1 H2 H3 H4)
    as (Hneg & _ & _ & _ & HD & _ & Hq & _).
  split; [|split].
  - rewrite Hneg by (vm_compute; reflexivity). vm_compute. reflexivity.
  - rewrite HD. vm_compute. reflexivity.
  - rewrite Hq. vm_compute. reflexivity.
Defined.

Lemma C8_decay_witness :
  hit_score (search_many (L := ex_layout) (ex_decay 0.5) 5 [0; 0; 0]%float)
    !!! Z.to_nat 5
  = iter_decay 0.5 3 0 /\
  (hit_score (search_many (L := ex_layout) (ex_decay 0.5) 5 [0; 0; 0]%float)
     !!! Z.to_nat 5
   <=? hit_score
         (search_many (L := ex_layout) (ex_decay 0.5) 5
            ([0; 0; 0] ++ [0])%float) !!! Z.to_nat 5)%float = true /\
  (hit_score (search_many (L := ex_layout) (ex_decay 0.5) 5 [0; 0; 0]%float)
     !!! Z.to_nat 5 <=? 2)%float = true.
Proof.
  destruct (C8_decay_iterates (L := ex_layout) (ex_decay 0.5) 5
              [0; 0; 0]%float) as (Hiter & _ & _ & Horder).
  - reflexivity.
  - reflexivity.
  - vm_compute. discriminate.
  - destruct Horder as (Hmono & _ & _ & Hlimit & _);
      [vm_compute; reflexivity|vm_compute; reflexivity|].
    split; [exact Hiter|]. split; [apply (Hmono 0%float)|].
    apply (Hlimit 2%float). vm_compute. discriminate.
Defined.

(** C8, as stated, fails.  With [decay_alpha = 0] the score is 1.0 after
    the first hit and 1.0 after the second: it does not strictly
    increase.  With [decay_alpha = 0.5] the score after 54 hits is
    2.0 = 1 / (1 - 0.5): it does not stay below the limit, and the 55th
    hit leaves it there. *)
Lemma C8_strict_increase_counterexample :
  in_domain (ex_decay 0) 5 = true /\
  (bt_search (L := ex_layout) (cold (ex_decay 0)) 5).1 = 65 /\
  hit_score (ex_decay 0) !!! Z.to_nat 5 = 0%float /\
  hit_score (search_many (L := ex_layout) (ex_decay 0) 5 [0]%float)
    !!! Z.to_nat 5 = 1%float /\
  hit_score (search_many (L := ex_layout) (ex_decay 0) 5 [0; 0]%float)
    !!! Z.to_nat 5 = 1%float /\
  (1 <? 1)%float = false /\
  hit_score (search_many (L := ex_layout) (ex_decay 0.5) 5
               (replicate 54 0%float)) !!! Z.to_nat 5 = 2%float /\
  hit_score (search_many (L := ex_layout) (ex_decay 0.5) 5
               (replicate 55 0%float)) !!! Z.to_nat 5 = 2%float /\
  (1 / (1 - 0.5))%float = 2%float /\
  (2 <? 2)%float = false.
Proof. repeat split; vm_compute; reflexivity. Qed.

Lemma reachable_domain_bound_witness :
  keys_in_domain ex_half /\ score_array_ok ex_half.
Proof.
  exact (reachable_domain_bound (L := ex_layout) ex_half ex_half_reachable).
Defined.

(** The worked example: the first search of key 42 is a cold hit with
    score 1.0 and no promotion, the second a cold hit with score 1.5 and a
    promotion, the third a hot hit with score 1.75; the statistics then
    read 3 queries, 1 hot hit, 2 cold hits, 0 not found, 1 hot key and 1
    cold key.  A search of the absent key 7 returns NULL, counts as not
    found and changes neither the scores nor the hot tier. *)
Lemma spec_worked_example :
  hit_score (ex_spec 1) !!! 42%nat = 1%float /\
  bt_entries (hot (ex_spec 1)) = ∅ /\
  hit_score (ex_spec 2) !!! 42%nat = 1.5%float /\
  bt_entries (hot (ex_spec 2)) !! 42 = Some 65 /\
  hit_score (ex_spec 3) !!! 42%nat = 1.75%float /\
  hot (ex_spec 3) = hot (ex_spec 2) /\
  (hc_search (L := ex_layout) (ex_spec 2) 42 0).1 = 65 /\
  hc_get_stats (ex_spec 3)
  = {| queries := 3; hot_hits := 1; cold_hits := 2; not_found := 0;
       hot_node_visits := 3; cold_node_visits := 2;
       hot_keys := 1; cold_keys := 1; final_sampling_rate := 1%float |} /\
  (hc_search (L := ex_layout) (ex_spec 3) 7 0).1 = NULL /\
  not_found (stats (hc_search (L := ex_layout) (ex_spec 3) 7 0).2) = 1 /\
  hit_score (hc_search (L := ex_layout) (ex_spec 3) 7 0).2
  = hit_score (ex_spec 3) /\
  hot (hc_search (L := ex_layout) (ex_spec 3) 7 0).2 = hot (ex_spec 3).
Proof. repeat split; vm_compute; reflexivity. Qed.

(** * The further properties at concrete states *)

Lemma stats_accounting_witness :
  queries (hc_get_stats ex_half)
  = hot_hits (hc_get_stats ex_half) + cold_hits (hc_get_stats ex_half)
    + not_found (hc_get_stats ex_half).
Proof.
  exact (proj1 (stats_accounting (L := ex_layout) ex_half ex_half_reachable)).
Defined.

Lemma hot_entries_persist_witness :
  bt_entries (hot ex_half)
    ⊆ bt_entries (hot (hc_step (L := ex_layout) ex_half (CallInsert 0 70))).
Proof.
  exact (proj1 (proj2 (hot_entries_persist (L := ex_layout) ex_half
                         (CallInsert 0 70) ex_half_reachable))).
Defined.

Lemma search_reads_cold_witness :
  (hc_search (L := ex_layout) ex_half 1 0).1
  = default NULL (bt_entries (cold ex_half) !! 1).
Proof.
  exact (search_reads_cold (L := ex_layout) ex_half 1 0
           ex_half_reachable_keeping).
Defined.

Lemma insert_search_round_trip_witness :
  (hc_search (L := ex_layout) (hc_insert ex_half 3 70).1 3 0).1 = 70.
Proof.
  refine (proj1 (insert_search_round_trip (L := ex_layout) ex_half 3 70 0
                   eq_refl _ _)).
  - exact (reachable_by_entry_inclusion (L := ex_layout) ex_half
             ex_half_reachable_keeping).
  - intros w Hw. vm_compute in Hw. discriminate Hw.
Defined.

Lemma unseen_scores_stay_zero_witness :
  hit_score ex_half !!! Z.to_nat 4 = 0%float.
Proof.
  apply (unseen_scores_stay_zero (L := ex_layout) ex_half 4
           ex_half_reachable).
  - vm_compute. split; discriminate.
  - apply not_elem_of_dom. vm_compute. reflexivity.
Defined.

Lemma range_outside_emits_nothing_witness :
  (hc_range_search (L := ex_layout) ex_half 3 1 record_cb []).2 = [].
Proof.
  apply (range_outside_emits_nothing (L := ex_layout)). left. lia.
Defined.

Lemma stats_key_counts_witness :
  hot_keys (hc_get_stats ex_half) <= cold_keys (hc_get_stats ex_half).
Proof.
  exact (proj1 (proj2 (stats_key_counts (L := ex_layout) ex_half
                         ex_half_reachable))).
Defined.

Lemma adapt_off_frozen_witness :
  same_adapter ex_half
    (hc_steps (L := ex_layout) ex_half [CallSearch 0 0; CallInsert 3 70]).
Proof.
  apply (adapt_off_frozen (L := ex_layout)). reflexivity.
Defined.

Lemma adapter_cadence_witness : adapter_window_ok ex_adapt.
Proof.
  refine (proj1 (adapter_cadence (L := ex_layout) ex_adapt
                   (CallSearch 1 0.99) _)).
  apply reachable_steps, reachable_create.
Defined.

Lemma adapter_first_step_witness :
  sampling_rate (params (hc_maybe_adapt_sampling ex_adapt_entry))
  = 0.95%float.
Proof.
  assert (H1 : adapt_sampling (params ex_adapt_entry) = true)
    by (vm_compute; reflexivity).
  assert (H2 : MIN_DELTA_Q
               <= queries (stats ex_adapt_entry)
                  - last_q_for_adapt ex_adapt_entry)
    by (apply Z.leb_le; vm_compute; reflexivity).
  assert (H3 : last_q_for_adapt ex_adapt_entry = 0
               \/ (abs (sampling_rate (params ex_adapt_entry)
                        - last_D ex_adapt_entry) <? 1e-9)%float = true)
    by (left; vm_compute; reflexivity).
  destruct (adapter_first_step ex_adapt_entry H1 H2 H3) as [-> _].
  vm_compute. reflexivity.
Defined.

Lemma noninclusive_hot_tier_unused_witness :
  bt_entries
    (hot (hc_steps (L := ex_layout) (hc_create 9 4 ex_noninclusive_params)
            [CallInsert 5 65; CallSearch 5 0; CallSearch 5 0])) = ∅.
Proof.
  exact (proj1 (noninclusive_hot_tier_unused (L := ex_layout) 9 4
                  ex_noninclusive_params
                  [CallInsert 5 65; CallSearch 5 0; CallSearch 5 0]
                  eq_refl)).
Defined.

Lemma promoted_then_hot_hit_witness :
  (hc_search (L := ex_layout)
     (hc_search (L := ex_layout) ex_one 42 0.3).2 42 0.9).1
  = (hc_search (L := ex_layout) ex_one 42 0.3).1.
Proof.
  refine (proj1 (promoted_then_hot_hit (L := ex_layout) ex_one 42 0.3 0.9 _)).
  vm_compute. reflexivity.
Defined.
